(** * QuantStream: a shallow embedding of the real-time pipeline

    The Python backend ingests trades from a vendor WebSocket feed, caches
    and stores them, resamples them into OHLC candles, and computes
    analytics and alerts over the candles.  The first part of this file
    embeds the source, one module per source file; the second part states
    and proves the properties, in a module [...Facts] per embedded module.

    - [PyFloat]          Python's [float] and [int] arithmetic on binary64
    - [Binary64]         the values of binary64 numbers, for the proofs
    - [Database]         [app/storage/models.py], [app/storage/database.py]
    - [RedisCache]       [app/storage/redis_client.py]
    - [Resampling]       [app/analytics/resampling.py]
    - [BinanceWs]        [app/ingestion/binance_ws.py]
    - [AlertEngine]      [app/alerts/alert_engine.py]
    - [BasicStats]       [app/analytics/basic_stats.py]
    - [PairsTrading]     [app/analytics/pairs_trading.py]
    - [TickPairsTrading] [app/analytics/tick_pairs_trading.py]

    Conventions.  A naive [datetime] is the number of microseconds since
    1970-01-01T00:00:00 (a [Z]); a Python [float] is a primitive binary64
    [float]; a Python [int] is a [Z]; [str] is [string].  An [await] on the
    cache or the database is a pure function of the store that is passed in.
    Calls into pandas, numpy and scikit-learn whose numerical result is not
    fixed by the source are Section variables of the module that uses them;
    the instances given for them are used in the examples only. *)

From Stdlib Require Import ZArith String Ascii Lia Floats.
From stdpp Require Import gmap strings option pretty sorting list.

Open Scope Z_scope.

(** Decimal literals denote the nearest binary64 value, as in Python. *)
Set Warnings "-inexact-float".

(** ** Python numbers *)

Module PyFloat.

(** [float(n)] for a Python [int]: the nearest binary64, ties to even. *)
Definition of_int (n : Z) : float :=
  SF2Prim (binary_normalize prec emax n 0 false).

(** [a / b] on two Python [int]s with [b > 0]: the correctly rounded
    quotient.  The quotient is scaled to at least 60 significant bits, the
    remainder is kept as a sticky bit, and the integer is rounded once. *)
Definition int_truediv (a b : Z) : float :=
  if a =? 0 then 0%float else
  let n := Z.abs a in
  let k := 60 - (Z.log2 n - Z.log2 b) in
  let num := if 0 <=? k then Z.shiftl n k else n in
  let den := if 0 <=? k then b else Z.shiftl b (- k) in
  let q := num / den in
  let q' := if num mod den =? 0 then 2 * q else 2 * q + 1 in
  let m := if a <? 0 then - q' else q' in
  SF2Prim (binary_normalize prec emax m (- k - 1) false).

(** [int(x)]: truncation toward zero; [None] where Python raises
    ([ValueError] on NaN, [OverflowError] on an infinity). *)
Definition to_int (x : float) : option Z :=
  match Prim2SF x with
  | S754_zero _ => Some 0
  | S754_finite s m e =>
      let a := if 0 <=? e then Z.shiftl (Z.pos m) e else Z.shiftr (Z.pos m) (- e) in
      Some (if s then - a else a)
  | S754_infinity _ | S754_nan => None
  end.

(** [x / y] on Python floats raises [ZeroDivisionError] when [y == 0]. *)
Definition div (x y : float) : option float :=
  if PrimFloat.eqb y 0 then None else Some (PrimFloat.div x y).

End PyFloat.

(** ** The values of binary64 numbers

    What the proofs about [PyFloat] are stated with: the value of a
    mantissa and an exponent, and what it is for a float to be a rounding
    of a rational or to be an integer. *)

Module Binary64.

(** [2 ^ e] for an exponent of binary64, scaled by [2 ^ 1100] so that it
    is an integer. *)
Definition pw (e : Z) : Z := 2 ^ (e + 1100).

(** A normal binary64: a mantissa of 53 bits and an exponent in range. *)
Definition canonical (m e : Z) : Prop := 2 ^ 52 ≤ m < 2 ^ 53 ∧ -1074 ≤ e ≤ 971.

(** [m * 2 ^ e] is one of the two normal binary64 numbers around the
    rational [N / D], and is [N / D] itself when that is one. *)
Definition faithful (N D m e : Z) : Prop :=
  ∃ mq g, 2 ^ 52 ≤ mq < 2 ^ 53 ∧ -1074 ≤ g ≤ 970
          ∧ mq * pw g * D ≤ N * pw 0 < (mq + 1) * pw g * D
          ∧ (m * pw e = mq * pw g
             ∨ (mq * pw g * D < N * pw 0 ∧ m * pw e = (mq + 1) * pw g)).

(** The float [x] is the integer [N]. *)
Definition represents (x : float) (N : Z) : Prop :=
  ∃ m e, Prim2SF x = S754_finite false m e ∧ canonical (Z.pos m) e
         ∧ Z.pos m * pw e = N * pw 0.

(** No bit was shifted out. *)
Definition clean (r : shr_record) : Prop := shr_r r = false ∧ shr_s r = false.

End Binary64.


(** ** Storage: the [ohlc] table and its upsert *)

Module Database.

(** A row of [class OHLC(Base)]. *)
Record OHLC := mkOHLC {
  ohlc_id : Z;
  ohlc_symbol : string;
  ohlc_timeframe : string;
  ohlc_timestamp : Z;
  ohlc_open : float;
  ohlc_high : float;
  ohlc_low : float;
  ohlc_close : float;
  ohlc_volume : float;
  ohlc_trade_count : Z;
  ohlc_created_at : Z
}.

(** The [ohlc_data] dict handed to [insert_ohlc]; ['trade_count'] may be
    absent. *)
Record ohlc_data := mkData {
  d_symbol : string;
  d_timeframe : string;
  d_timestamp : Z;
  d_open : float;
  d_high : float;
  d_low : float;
  d_close : float;
  d_volume : float;
  d_trade_count : option Z
}.

(** The exceptions the session raises: [scalar_one_or_none] on more than
    one row, and the commit on a violated constraint. *)
Inductive exn := MultipleResultsFound | IntegrityError.

Definition key : Type := string * string * Z.

Definition row_key (r : OHLC) : key :=
  (ohlc_symbol r, ohlc_timeframe r, ohlc_timestamp r).

Definition data_key (d : ohlc_data) : key :=
  (d_symbol d, d_timeframe d, d_timestamp d).

(** The six fields an upsert writes. *)
Definition row_values (r : OHLC) : float * float * float * float * float * Z :=
  (ohlc_open r, ohlc_high r, ohlc_low r, ohlc_close r, ohlc_volume r,
   ohlc_trade_count r).

Definition data_values (d : ohlc_data) : float * float * float * float * float * Z :=
  (d_open d, d_high d, d_low d, d_close d, d_volume d,
   default 0 (d_trade_count d)).

(** [select(OHLC).where(and_(symbol == .., timeframe == .., timestamp == ..))] *)
Definition same_key (d : ohlc_data) (r : OHLC) : bool :=
  String.eqb (ohlc_symbol r) (d_symbol d)
  && String.eqb (ohlc_timeframe r) (d_timeframe d)
  && (ohlc_timestamp r =? d_timestamp d).

Definition scalar_one_or_none (rows : list OHLC) : exn + option OHLC :=
  match rows with
  | [] => inr None
  | [r] => inr (Some r)
  | _ :: _ :: _ => inl MultipleResultsFound
  end.

(** The branch [if existing:] of [insert_ohlc]: six assignments. *)
Definition update_existing (d : ohlc_data) (r : OHLC) : OHLC :=
  {| ohlc_id := ohlc_id r;
     ohlc_symbol := ohlc_symbol r;
     ohlc_timeframe := ohlc_timeframe r;
     ohlc_timestamp := ohlc_timestamp r;
     ohlc_open := d_open d;
     ohlc_high := d_high d;
     ohlc_low := d_low d;
     ohlc_close := d_close d;
     ohlc_volume := d_volume d;
     ohlc_trade_count := default 0 (d_trade_count d);
     ohlc_created_at := ohlc_created_at r |}.

(** The primary key SQLite gives the next row: one more than the largest. *)
Definition next_id (tbl : list OHLC) : Z :=
  1 + fold_right Z.max 0 (map ohlc_id tbl).

(** The branch [else:] builds an [OHLC] row from the dict; the column
    defaults are filled in at insert. *)
Definition new_row (i utcnow : Z) (d : ohlc_data) : OHLC :=
  {| ohlc_id := i;
     ohlc_symbol := d_symbol d;
     ohlc_timeframe := d_timeframe d;
     ohlc_timestamp := d_timestamp d;
     ohlc_open := d_open d;
     ohlc_high := d_high d;
     ohlc_low := d_low d;
     ohlc_close := d_close d;
     ohlc_volume := d_volume d;
     ohlc_trade_count := default 0 (d_trade_count d);
     ohlc_created_at := utcnow |}.

(** The flush of the mutated object: an UPDATE of the row with its
    primary key. *)
Definition update_table (d : ohlc_data) (existing : OHLC) (tbl : list OHLC)
  : list OHLC :=
  map (fun r => if ohlc_id r =? ohlc_id existing then update_existing d r else r)
      tbl.

(** The columns [open], [high], [low], [close] and [volume] are
    [Column(Float, nullable=False)].  SQLite has no NaN: the driver binds
    a NaN as NULL, so a row is accepted when none of the five is a NaN.
    ([trade_count] and [created_at] are nullable and have defaults.) *)
Definition not_null (x : float) : bool := negb (PrimFloat.is_nan x).

Definition storable (d : ohlc_data) : bool :=
  not_null (d_open d) && not_null (d_high d) && not_null (d_low d)
  && not_null (d_close d) && not_null (d_volume d).

(** [await session.commit()]: the pending INSERT or UPDATE is flushed; a
    NULL in a NOT NULL column raises [IntegrityError], the transaction is
    rolled back and the table stays as it was. *)
Definition commit (d : ohlc_data) (flushed : list OHLC) : exn + list OHLC :=
  if storable d then inr flushed else inl IntegrityError.

(** [Database.insert_ohlc]; [utcnow] is the clock read by the
    [created_at] default. *)
Definition insert_ohlc (utcnow : Z) (tbl : list OHLC) (d : ohlc_data)
  : exn + list OHLC :=
  match scalar_one_or_none (List.filter (same_key d) tbl) with
  | inl e => inl e
  | inr (Some existing) => commit d (update_table d existing tbl)
  | inr None => commit d (tbl ++ [new_row (next_id tbl) utcnow d])
  end.

(** A run of upserts, each with the clock reading of its commit; the
    first exception ends the run. *)
Fixpoint upserts (writes : list (Z * ohlc_data)) (tbl : list OHLC)
  : exn + list OHLC :=
  match writes with
  | [] => inr tbl
  | (utcnow, d) :: rest =>
      match insert_ohlc utcnow tbl d with
      | inl e => inl e
      | inr tbl' => upserts rest tbl'
      end
  end.

(** What the schema guarantees of every stored table: the primary key and
    [UniqueConstraint('symbol', 'timeframe', 'timestamp')]. *)
Definition wf_table (tbl : list OHLC) : Prop :=
  NoDup (map ohlc_id tbl) ∧ NoDup (map row_key tbl).

(** Two candles for the bucket 2026-11-03 11:59 of btcusdt at one minute,
    with different values. *)
Definition candle_first : ohlc_data :=
  mkData "btcusdt" "1m" 1793707140000000 100 101 99 100.5 12 (Some 3).

Definition candle_again : ohlc_data :=
  mkData "btcusdt" "1m" 1793707140000000 100 102 98 101 15 (Some 4).

(** The candle of a minute in which nothing traded, as pandas hands it
    over: open, high, low and close are NaN, the volume is the empty sum
    and the count is zero. *)
Definition candle_no_trade : ohlc_data :=
  mkData "btcusdt" "1m" 1793707140000000 nan nan nan nan 0 (Some 0).

End Database.


(** ** The canonical tick *)

Module Tick.

(** The dict [{'symbol', 'timestamp', 'price', 'size'}] that travels from
    the stream client to the cache, the storage and the analytics. *)
Record tick := mkTick {
  tick_symbol : string;
  tick_timestamp : Z;
  tick_price : float;
  tick_size : float
}.

End Tick.

Export Tick.

(** ** The low-latency cache *)

Module RedisCache.

(** A Redis list: its elements, head first, and the deadline set by
    EXPIRE (none for a key without time to live).  The cached elements are
    the tick dicts themselves, with the timestamp the ISO string stands
    for: [json.dumps] followed by [json.loads] gives back the dict that
    was pushed. *)
Record entry := mkEntry {
  items : list tick;
  deadline : option Z
}.

Abbreviation redis := (gmap string entry).

(** [RedisCache]: the [enabled] flag and the [client], here the server
    state behind the connection.  Commands on a connected client succeed. *)
Record cache := mkCache {
  enabled : bool;
  client : option redis
}.

(** One hour, in microseconds: [expire(key, 3600)]. *)
Definition ttl : Z := 3600 * 1000000.

Definition live (now : Z) (e : entry) : bool :=
  match deadline e with
  | Some t => now <? t
  | None => true
  end.

(** The list a key holds at time [now]; an expired or missing key is the
    empty list. *)
Definition cached (db : redis) (now : Z) (k : string) : list tick :=
  match db !! k with
  | Some e => if live now e then items e else []
  | None => []
  end.

(** The index range of LRANGE and LTRIM: negative indices count from the
    tail, the stop index is inclusive and clamped to the list. *)
Definition range (l : list tick) (start stop : Z) : list tick :=
  let n := Z.of_nat (length l) in
  let start := if start <? 0 then n + start else start in
  let stop := if stop <? 0 then n + stop else stop in
  let start := if start <? 0 then 0 else start in
  if (stop <? start) || (n <=? start) then []
  else
    let stop := if n <=? stop then n - 1 else stop in
    take (Z.to_nat (stop - start + 1)) (drop (Z.to_nat start) l).

Definition tick_key (symbol : string) : string := "ticks:" +:+ symbol.

(** [RedisCache.push_tick]: LPUSH, LTRIM 0 (max_size - 1), EXPIRE 3600.
    A list trimmed to nothing is a deleted key. *)
Definition push_tick (c : cache) (now : Z) (symbol : string) (t : tick)
    (max_size : Z) : cache :=
  if negb (enabled c) then c else
  match client c with
  | None => c
  | Some db =>
      let k := tick_key symbol in
      let pushed := t :: cached db now k in
      let trimmed := range pushed 0 (max_size - 1) in
      let db' := match trimmed with
                 | [] => delete k db
                 | _ :: _ => <[k := mkEntry trimmed (Some (now + ttl))]> db
                 end in
      mkCache (enabled c) (Some db')
  end.

(** [RedisCache.get_recent_ticks]: LRANGE 0 (count - 1), then
    [reversed]. *)
Definition get_recent_ticks (c : cache) (now : Z) (symbol : string)
    (count : Z) : list tick :=
  if negb (enabled c) then [] else
  match client c with
  | None => []
  | Some db => reverse (range (cached db now (tick_key symbol)) 0 (count - 1))
  end.

(** The ingestion manager pushes every tick with the default bound. *)
Definition max_size_default : Z := 1000.

(** Ticks pushed one after the other, each at its own clock reading. *)
Definition push_all (c : cache) (symbol : string) (evs : list (Z * tick)) : cache :=
  foldl (fun c ev => push_tick c ev.1 symbol ev.2 max_size_default) c evs.

(** Every push, and the final read at [now], falls before the deadline
    the previous push has set. *)
Fixpoint within_ttl (evs : list (Z * tick)) (now : Z) : Prop :=
  match evs with
  | [] => True
  | ev :: rest =>
      match rest with
      | [] => now < ev.1 + ttl
      | ev' :: _ => ev'.1 < ev.1 + ttl ∧ within_ttl rest now
      end
  end.

Definition connected_empty : cache := mkCache true (Some ∅).

(** Two ticks of btcusdt, the second pushed one second after the first,
    read one second later. *)
Definition tick_older : tick := mkTick "btcusdt" 1793707170000000 100 1.
Definition tick_newer : tick := mkTick "btcusdt" 1793707171000000 101 2.

Definition two_pushes : list (Z * tick) :=
  [(1793707170000000, tick_older); (1793707171000000, tick_newer)].

End RedisCache.


(** ** Python dates, durations and numerals *)

Module PyTime.

(** [int(s)] on a [str] of ASCII characters: optional blanks, an optional
    sign, decimal digits with single underscores between them, optional
    blanks.  [None] is [ValueError].  Non-ASCII digits and blanks lie
    outside the byte strings used here. *)
Definition is_space (a : ascii) : bool :=
  let n := N_of_ascii a in
  ((9 <=? n) && (n <=? 13) || (28 <=? n) && (n <=? 32) )%N.

Definition is_digit (a : ascii) : bool :=
  let n := N_of_ascii a in ((48 <=? n) && (n <=? 57))%N.

Definition digit_value (a : ascii) : Z := Z.of_N (N_of_ascii a) - 48.

Fixpoint lstrip (s : string) : string :=
  match s with
  | String a s' => if is_space a then lstrip s' else s
  | EmptyString => s
  end.

(** Digits after the first one: a digit, or an underscore followed by a
    digit; trailing blanks end the numeral. *)
Fixpoint digits_tail (acc : Z) (s : string) : option Z :=
  match s with
  | EmptyString => Some acc
  | String a s' =>
      if is_digit a then digits_tail (10 * acc + digit_value a) s'
      else if Ascii.eqb a "_" then
        match s' with
        | String b s'' =>
            if is_digit b then digits_tail (10 * acc + digit_value b) s'' else None
        | EmptyString => None
        end
      else if is_space a then
        match lstrip s' with EmptyString => Some acc | String _ _ => None end
      else None
  end.

Definition digits (s : string) : option Z :=
  match s with
  | String a s' => if is_digit a then digits_tail (digit_value a) s' else None
  | EmptyString => None
  end.

Definition int_of_str (s : string) : option Z :=
  match lstrip s with
  | String "-" s' => Z.opp <$> digits s'
  | String "+" s' => digits s'
  | s' => digits s'
  end.

(** A [timedelta] is its total number of microseconds; the constructor
    raises [OverflowError] when the day count leaves [-999999999,
    999999999]. *)
Definition us_per_second : Z := 1000000.
Definition us_per_day : Z := 86400 * us_per_second.

Definition timedelta_of_us (us : Z) : option Z :=
  let days := us / us_per_day in
  if (-999999999 <=? days) && (days <=? 999999999) then Some us else None.

(** [timedelta(seconds=n)], [timedelta(minutes=n)], [timedelta(hours=n)]
    on an [int]. *)
Definition timedelta_seconds (n : Z) : option Z := timedelta_of_us (n * us_per_second).
Definition timedelta_minutes (n : Z) : option Z := timedelta_of_us (n * 60 * us_per_second).
Definition timedelta_hours (n : Z) : option Z := timedelta_of_us (n * 3600 * us_per_second).

(** [timedelta.total_seconds()]: the microseconds divided by [10**6], an
    [int] true division. *)
Definition total_seconds (td : Z) : float := PyFloat.int_truediv td us_per_second.

(** The whole microseconds of a leftover fraction [r] in (-1, 1) added to
    the integer [x]: to nearest, a tie going to the even sum. *)
Definition round_leftover (x : Z) (r : float) : Z :=
  let a := PrimFloat.abs r in
  let sgn := if PrimFloat.ltb r 0 then -1 else 1 in
  if PrimFloat.ltb a 0.5 then 0
  else if PrimFloat.ltb 0.5 a then sgn
  else if Z.odd x then sgn else 0.

(** [timedelta(seconds=x)] on a [float]: the integral part is exact, the
    fraction is scaled to microseconds in binary64 and rounded half to
    even.  [None] on NaN, an infinity or a day count out of range. *)
Definition timedelta_float_seconds (x : float) : option Z :=
  intpart ← PyFloat.to_int x;
  let frac := PrimFloat.sub x (PyFloat.of_int intpart) in
  let sum := intpart * us_per_second in
  if PrimFloat.eqb frac 0 then timedelta_of_us sum
  else
    let d := PrimFloat.mul (PyFloat.of_int us_per_second) frac in
    intpart2 ← PyFloat.to_int d;
    let leftover := PrimFloat.sub d (PyFloat.of_int intpart2) in
    let y := sum + intpart2 in
    timedelta_of_us (y + (if PrimFloat.eqb leftover 0 then 0 else round_leftover y leftover)).

(** [datetime.min] and [datetime.max] as microseconds from the epoch; an
    addition that leaves the range raises [OverflowError]. *)
Definition datetime_min : Z := -62135596800 * us_per_second.
Definition datetime_max : Z := 253402300800 * us_per_second - 1.

Definition datetime_add (dt td : Z) : option Z :=
  let r := dt + td in
  if (datetime_min <=? r) && (r <=? datetime_max) then Some r else None.

(** [datetime(1970, 1, 1)] *)
Definition epoch : Z := 0.

End PyTime.


(** ** The resampling engine *)

Module Resampling.
Import Database PyTime.

(** [timeframe[:-1]] and [timeframe[-1]]; [None] is the [IndexError] of
    the empty string. *)
Fixpoint split_last (s : string) : option (string * ascii) :=
  match s with
  | EmptyString => None
  | String a s' =>
      match split_last s' with
      | None => Some (EmptyString, a)
      | Some (init, z) => Some (String a init, z)
      end
  end.

(** [ResamplingEngine._parse_timeframe]: the duration in microseconds;
    [None] where the source raises. *)
Definition _parse_timeframe (timeframe : string) : option Z :=
  '(digits, unit) ← split_last timeframe;
  value ← int_of_str digits;
  if Ascii.eqb unit "s" then timedelta_seconds value
  else if Ascii.eqb unit "m" then timedelta_minutes value
  else if Ascii.eqb unit "h" then timedelta_hours value
  else None.

(** [ResamplingEngine._get_candle_timestamp]: binary64 division, [int]
    truncation, binary64 multiplication, and the way back to a
    [datetime]. *)
Definition _get_candle_timestamp (timestamp : Z) (timeframe : string) : option Z :=
  delta ← _parse_timeframe timeframe;
  let seconds_since_epoch := total_seconds (timestamp - epoch) in
  let candle_seconds := total_seconds delta in
  quotient ← PyFloat.div seconds_since_epoch candle_seconds;
  whole ← PyFloat.to_int quotient;
  let floored_seconds := PrimFloat.mul (PyFloat.of_int whole) candle_seconds in
  td ← timedelta_float_seconds floored_seconds;
  datetime_add epoch td.

(** The flooring the comment in the source and the specification name:
    [floor(t / T) * T] from the epoch, in exact arithmetic. *)
Definition bucket_start_floor (t T : Z) : Z := t / T * T.

(** One line of the frame [resample(timeframe).ohlc()]. *)
Record ohlc_row := mkRow {
  row_open : float;
  row_high : float;
  row_low : float;
  row_close : float
}.

(** The three series pandas derives from the ticks, each indexed by the
    label of its bin. *)
Record resampled := mkResampled {
  ohlc : list (Z * ohlc_row);
  volume : list (Z * float);
  trade_count : list (Z * Z)
}.

Fixpoint loc {A : Type} (k : Z) (series : list (Z * A)) : option A :=
  match series with
  | [] => None
  | (k', v) :: rest => if k' =? k then Some v else loc k rest
  end.

(** What one pass of the loop reads from outside: the cache, the
    database fallback, the clock at the completeness test and the clock at
    the commit. *)
Record inputs := mkInputs {
  cache_ticks : list tick;
  db_ticks : list tick;
  now : Z;
  commit_time : Z
}.

(** What it changes: [self.current_candles] (a [defaultdict(dict)], the
    value being the ['timestamp'] entry of the inner dict, if any) and the
    [ohlc] table. *)
Record world := mkWorld {
  current_candles : gmap string (option Z);
  table : list OHLC
}.

Section Engine.

(** [pd.DataFrame(ticks)], [pd.to_datetime], [set_index] and the three
    [resample(timeframe)] aggregations; [None] when pandas raises. *)
Variable pd_resample : string → list tick → option resampled.

(** [complete_candles.iloc[-1]] of
    [ohlc[ohlc.index < self._get_candle_timestamp(now, timeframe)]] *)
Definition latest_complete (frame : list (Z * ohlc_row)) (bound : Z)
  : option (Z * ohlc_row) :=
  last (List.filter (fun row => row.1 <? bound) frame).

Definition candle_key (symbol timeframe : string) : string :=
  symbol +:+ "_" +:+ timeframe.

Definition make_ohlc_data (symbol timeframe : string) (rs : resampled)
    (candle_time : Z) (latest : ohlc_row) : ohlc_data :=
  {| d_symbol := symbol;
     d_timeframe := timeframe;
     d_timestamp := candle_time;
     d_open := row_open latest;
     d_high := row_high latest;
     d_low := row_low latest;
     d_close := row_close latest;
     d_volume := default 0%float (loc candle_time (volume rs));
     d_trade_count := Some (default 0 (loc candle_time (trade_count rs))) |}.

(** The body of [while self.running:] in [_resample_symbol_timeframe],
    up to the sleep.  The second component is the candle handed to
    [db.insert_ohlc] in this pass, if any.  An exception anywhere in the
    [try] ends the pass with what was changed so far. *)
Definition cycle (symbol timeframe : string) (i : inputs) (w : world)
  : world * option ohlc_data :=
  let ticks := match cache_ticks i with [] => db_ticks i | _ :: _ => cache_ticks i end in
  match ticks with
  | [] => (w, None)
  | _ :: _ =>
    match pd_resample timeframe ticks with
    | None => (w, None)
    | Some rs =>
      match _get_candle_timestamp (now i) timeframe with
      | None => (w, None)
      | Some bound =>
        match latest_complete (ohlc rs) bound with
        | None => (w, None)
        | Some (candle_time, latest) =>
          let key := candle_key symbol timeframe in
          let touched :=
            match current_candles w !! key with
            | Some _ => current_candles w
            | None => <[key := None]> (current_candles w)
            end in
          let last_candle_time := mjoin (touched !! key) in
          if bool_decide (last_candle_time = Some candle_time)
          then (mkWorld touched (table w), None)
          else
            let ohlc_data := make_ohlc_data symbol timeframe rs candle_time latest in
            match insert_ohlc (commit_time i) (table w) ohlc_data with
            | inl _ => (mkWorld touched (table w), Some ohlc_data)
            | inr tbl => (mkWorld (<[key := Some candle_time]> touched) tbl,
                          Some ohlc_data)
            end
        end
      end
    end
  end.

(** [_resample_symbol_timeframe]: the parse before the loop, then one
    pass per reading of [self.running] that is true. *)
Fixpoint loop (symbol timeframe : string) (passes : list (bool * inputs))
    (w : world) : world :=
  match passes with
  | [] => w
  | (running, i) :: rest =>
      if running then loop symbol timeframe rest (cycle symbol timeframe i w).1
      else w
  end.

Definition _resample_symbol_timeframe (symbol timeframe : string)
    (passes : list (bool * inputs)) (w : world) : world :=
  match _parse_timeframe timeframe with
  | None => w
  | Some _ => loop symbol timeframe passes w
  end.

End Engine.

(** A reference instance of the pandas reading for fixed-width frequencies
    and ticks in chronological order: bins floored from the epoch, from
    the bin of the first tick to the bin of the last; the first, largest,
    smallest and last price, the summed size and the count of each bin
    that holds a tick; NaN prices, the empty sum and the count zero for a
    bin that holds none. *)
Record bar := mkBar {
  bar_start : Z;
  bar_row : ohlc_row;
  bar_volume : float;
  bar_count : Z
}.

Definition fmax (a b : float) : float := if PrimFloat.ltb a b then b else a.
Definition fmin (a b : float) : float := if PrimFloat.ltb b a then b else a.

Definition bar_of_tick (start : Z) (t : tick) : bar :=
  mkBar start (mkRow (tick_price t) (tick_price t) (tick_price t) (tick_price t))
        (tick_size t) 1.

Definition bar_add (b : bar) (t : tick) : bar :=
  let r := bar_row b in
  mkBar (bar_start b)
        (mkRow (row_open r) (fmax (row_high r) (tick_price t))
               (fmin (row_low r) (tick_price t)) (tick_price t))
        (PrimFloat.add (bar_volume b) (tick_size t)) (bar_count b + 1).

Definition empty_bar (start : Z) : bar := mkBar start (mkRow nan nan nan nan) 0 0.

(** The bins strictly between two bin starts, the latest first. *)
Definition empty_bars (width from to : Z) : list bar :=
  reverse (map (fun k => empty_bar (from + k * width))
               (seqZ 1 ((to - from) / width - 1))).

(** Bars newest first while folding. *)
Definition bars_step (width : Z) (acc : list bar) (t : tick) : list bar :=
  let start := bucket_start_floor (tick_timestamp t) width in
  match acc with
  | b :: rest => if bar_start b =? start then bar_add b t :: rest
                 else bar_of_tick start t :: empty_bars width (bar_start b) start ++ acc
  | [] => [bar_of_tick start t]
  end.

Definition fixed_width_resample (timeframe : string) (ticks : list tick)
  : option resampled :=
  width ← _parse_timeframe timeframe;
  if width <=? 0 then None else
  let bs := reverse (foldl (bars_step width) [] ticks) in
  Some (mkResampled (map (fun b => (bar_start b, bar_row b)) bs)
                    (map (fun b => (bar_start b, bar_volume b)) bs)
                    (map (fun b => (bar_start b, bar_count b)) bs)).

(** At 12:00:30 on 2026-11-03 the cache holds a tick of 11:59:30 and a
    tick of 12:00:10; the timeframe is one minute. *)
Definition ticks_around_noon : list tick :=
  [mkTick "btcusdt" 1793707170000000 100 1; mkTick "btcusdt" 1793707210000000 101 2].

Definition pass_at_noon : inputs :=
  mkInputs ticks_around_noon [] 1793707230000000 1793707230000001.

Definition fresh_world : world := mkWorld ∅ [].

(** The same clock, the cache holding a tick of 11:58:30 and a tick of
    12:00:10: nothing traded in the minute of 11:59. *)
Definition ticks_with_quiet_minute : list tick :=
  [mkTick "btcusdt" 1793707110000000 100 1; mkTick "btcusdt" 1793707210000000 101 2].

Definition pass_after_quiet_minute : inputs :=
  mkInputs ticks_with_quiet_minute [] 1793707230000000 1793707230000001.

End Resampling.


(** ** The exchange stream client *)

Module BinanceWs.
Import PyTime.

(** What [json.loads] returns. *)
#[local] Unset Elimination Schemes.
Inductive json :=
| JNull
| JBool (b : bool)
| JInt (n : Z)
| JFloat (x : float)
| JStr (s : string)
| JList (l : list json)
| JDict (items : list (string * json)).
#[local] Set Elimination Schemes.

(** [dict.get(key)]; a parsed object holds each key once. *)
Fixpoint dict_get (key : string) (items : list (string * json)) : option json :=
  match items with
  | [] => None
  | (k, v) :: rest => if String.eqb k key then Some v else dict_get key rest
  end.

(** [str.lower()] on ASCII. *)
Definition lower_ascii (a : ascii) : ascii :=
  let n := N_of_ascii a in
  if ((65 <=? n) && (n <=? 90))%N then ascii_of_N (n + 32) else a.

Fixpoint lower (s : string) : string :=
  match s with
  | EmptyString => EmptyString
  | String a s' => String (lower_ascii a) (lower s')
  end.

(** The nearest integer to a binary64, a tie going to the even one. *)
Definition round_half_even (x : float) : option Z :=
  t ← PyFloat.to_int x;
  let fr := PrimFloat.abs (PrimFloat.sub x (PyFloat.of_int t)) in
  let away := if PrimFloat.ltb x 0 then t - 1 else t + 1 in
  Some (if PrimFloat.ltb fr 0.5 then t
        else if PrimFloat.ltb 0.5 fr then away
        else if Z.even t then t else away).

(** The shared state of [BinanceWebSocketClient]: the tracked symbols, the
    [running] flag and the keys of [connections]. *)
Record client := mkClient {
  symbols : list string;
  running : bool;
  connections : gset string
}.

(** Where the coroutine [_connect_symbol] of one symbol stands: at the
    test of [while self.running:], inside [async for message in ws], in
    [asyncio.sleep(reconnect_delay)], or returned. *)
Inductive pc :=
| AtWhile (reconnect_delay : Z)
| Receiving (reconnect_delay : Z)
| Sleeping (reconnect_delay : Z)
| Returned.

(** What resumes it: the connection attempt succeeds or raises, a message
    arrives (its [json.loads] result, [None] for [JSONDecodeError]), the
    stream ends or raises, the sleep is over. *)
Inductive event :=
| Connected
| ConnectFailed
| Message (data : option json)
| StreamEnded
| Woken.

(** What became of one message. *)
Inductive handled :=
| Callback (t : tick)
| Ignored
| Logged.

Definition max_reconnect_delay : Z := 60.

Section Client.

(** [float(s)] on a [str]; [None] is [ValueError]. *)
Variable float_of_str : string → option float.

(** The offset of the host's local time from UTC, in seconds, at a POSIX
    time in seconds: [datetime.fromtimestamp] without [tz] gives local
    time. *)
Variable utcoffset : Z → Z.

(** [datetime.fromtimestamp(x)]: [x] split into seconds and microseconds
    rounded half to even, shifted to local time.  The call also converts
    the instant one day earlier, to detect a repeated local hour, and
    raises when that one has no valid date. *)
Definition fromtimestamp (x : float) : option Z :=
  intpart ← PyFloat.to_int x;
  let frac := PrimFloat.sub x (PyFloat.of_int intpart) in
  us ← round_half_even (PrimFloat.mul frac 1000000);
  let '(sec, us) :=
    if 1000000 <=? us then (intpart + 1, us - 1000000)
    else if us <? 0 then (intpart - 1, us + 1000000)
    else (intpart, us) in
  let probe := sec - 86400 in
  _ ← datetime_add epoch ((probe + utcoffset probe) * us_per_second);
  datetime_add epoch ((sec + utcoffset sec) * us_per_second + us).

(** [v / 1000] on what the message holds under ["T"] or ["E"]. *)
Definition div_1000 (v : json) : option float :=
  match v with
  | JInt n => Some (PyFloat.int_truediv n 1000)
  | JBool b => Some (PyFloat.int_truediv (if b then 1 else 0) 1000)
  | JFloat x => Some (PrimFloat.div x 1000)
  | JNull | JStr _ | JList _ | JDict _ => None
  end.

(** [float(v)] *)
Definition py_float (v : json) : option float :=
  match v with
  | JStr s => float_of_str s
  | JInt n =>
      let x := PyFloat.of_int n in
      if PrimFloat.eqb (PrimFloat.abs x) infinity then None else Some x
  | JBool b => Some (if b then 1%float else 0%float)
  | JFloat x => Some x
  | JNull | JList _ | JDict _ => None
  end.

Definition py_lower (v : json) : option string :=
  match v with
  | JStr s => Some (lower s)
  | _ => None
  end.

(** [BinanceWebSocketClient._normalize_tick]; [None] where it raises. *)
Definition _normalize_tick (raw_data : list (string * json)) : option tick :=
  let t := match dict_get "T" raw_data with
           | Some v => v
           | None => default JNull (dict_get "E" raw_data)
           end in
  seconds ← div_1000 t;
  timestamp ← fromtimestamp seconds;
  symbol ← dict_get "s" raw_data ≫= py_lower;
  price ← dict_get "p" raw_data ≫= py_float;
  size ← dict_get "q" raw_data ≫= py_float;
  Some (mkTick symbol timestamp price size).

Definition is_trade (items : list (string * json)) : bool :=
  match dict_get "e" items with
  | Some (JStr s) => String.eqb s "trade"
  | _ => false
  end.

(** The [try] inside [async for message in ws]. *)
Definition handle_message (data : option json) : handled :=
  match data with
  | None => Logged
  | Some (JDict items) =>
      if is_trade items then
        match _normalize_tick items with
        | Some t => Callback t
        | None => Logged
        end
      else Ignored
  | Some _ => Logged
  end.

Definition delivered (h : handled) : option tick :=
  match h with
  | Callback t => Some t
  | Ignored | Logged => None
  end.

(** The code after the [try] of the outer loop: drop the connection,
    then sleep if still running, else fall to the [while] test, which
    fails. *)
Definition cleanup (c : client) (symbol : string) (reconnect_delay : Z)
  : client * pc :=
  let c' := mkClient (symbols c) (running c) (connections c ∖ {[symbol]}) in
  (c', if running c then Sleeping reconnect_delay else Returned).

(** One resumption of [_connect_symbol(symbol)]: the new shared state,
    the new position and the tick given to [on_tick], if any. *)
Definition step (c : client) (symbol : string) (p : pc) (ev : event)
  : client * pc * option tick :=
  match p with
  | AtWhile d =>
      if running c then
        match ev with
        | Connected =>
            (mkClient (symbols c) (running c) ({[symbol]} ∪ connections c),
             Receiving 1, None)
        | _ => (cleanup c symbol d, None)
        end
      else (c, Returned, None)
  | Receiving d =>
      match ev with
      | Message data =>
          if running c then (c, Receiving d, delivered (handle_message data))
          else (cleanup c symbol d, None)
      | _ => (cleanup c symbol d, None)
      end
  | Sleeping d =>
      (c, AtWhile (Z.min (d * 2) max_reconnect_delay), None)
  | Returned => (c, Returned, None)
  end.

End Client.

(** [list.remove(x)]: the first occurrence. *)
Fixpoint list_remove (x : string) (l : list string) : list string :=
  match l with
  | [] => []
  | y :: rest => if String.eqb y x then rest else y :: list_remove x rest
  end.

(** [BinanceWebSocketClient.remove_symbol] *)
Definition remove_symbol (symbol : string) (c : client) : client :=
  let symbol := lower symbol in
  if bool_decide (symbol ∈ symbols c)
  then mkClient (list_remove symbol (symbols c)) (running c) (connections c)
  else c.

(** [BinanceWebSocketClient.add_symbol]: the new state and the coroutine
    it creates, if any. *)
Definition add_symbol (symbol : string) (c : client) : client * option (string * pc) :=
  let symbol := lower symbol in
  if bool_decide (symbol ∈ symbols c) then (c, None)
  else (mkClient (symbols c ++ [symbol]) (running c) (connections c),
        if running c then Some (symbol, AtWhile 1) else None).

(** An instance of [float(s)] for the examples: it agrees with Python on
    decimal integer numerals. *)
Definition float_of_integer_numeral (s : string) : option float :=
  PyFloat.of_int <$> int_of_str s.

(** A trade of BTCUSDT at 2023-11-14T22:13:20Z, as the vendor sends it. *)
Definition trade_items : list (string * json) :=
  [("e", JStr "trade"); ("E", JInt 1700000000005); ("T", JInt 1700000000000);
   ("s", JStr "BTCUSDT"); ("p", JStr "50000"); ("q", JStr "2")].

Definition trade_btc : json := JDict trade_items.

(** Two hosts: one whose local time is UTC, one whose local time is one
    hour ahead of it. *)
Definition utc_host (_ : Z) : Z := 0.
Definition utc_plus_one_host (_ : Z) : Z := 3600.

(** What the specification asks of the timestamp of a tick: the vendor's
    milliseconds since the epoch as a UTC [datetime]. *)
Definition utc_of_millis (ms : Z) : Z := ms * 1000.

Definition running_client : client :=
  mkClient ["btcusdt"] true {["btcusdt"]}.

End BinanceWs.


(** ** The alert engine *)

Module AlertEngine.

(** [AlertEngine._evaluate_condition] on binary64 values. *)
Definition _evaluate_condition (value : float) (condition : string)
    (threshold : float) : bool :=
  if String.eqb condition ">" then PrimFloat.ltb threshold value
  else if String.eqb condition "<" then PrimFloat.ltb value threshold
  else if String.eqb condition ">=" then PrimFloat.leb threshold value
  else if String.eqb condition "<=" then PrimFloat.leb value threshold
  else if String.eqb condition "==" then
    PrimFloat.ltb (PrimFloat.abs (PrimFloat.sub value threshold)) 0.0001
  else false.

End AlertEngine.


(** ** Volatility *)

Module BasicStats.
Import Database.

Inductive result :=
| Error (message : string)
| Volatility (symbol timeframe : string)
             (historical_volatility rolling_volatility : float) (window : Z).

(** [str.endswith] *)
Fixpoint endswith (s suffix : string) : bool :=
  String.eqb s suffix
  || match s with
     | EmptyString => false
     | String _ s' => endswith s' suffix
     end.

(** [365 * 24 * (60 if timeframe.endswith('m') else 1)] *)
Definition periods_per_year (timeframe : string) : Z :=
  365 * 24 * (if endswith timeframe "m" then 60 else 1).

(** [Series.pct_change()] on a series without missing values: the first
    entry is NaN, the others are [x / previous - 1]. *)
Fixpoint pct_change_from (previous : float) (xs : list float) : list float :=
  match xs with
  | [] => []
  | x :: rest =>
      PrimFloat.sub (PrimFloat.div x previous) 1 :: pct_change_from x rest
  end.

Definition pct_change (xs : list float) : list float :=
  match xs with
  | [] => []
  | x :: rest => nan :: pct_change_from x rest
  end.

(** [... * np.sqrt(periods_per_year) * 100] *)
Definition annualize (std : float) (periods : Z) : float :=
  PrimFloat.mul (PrimFloat.mul std (PrimFloat.sqrt (PyFloat.of_int periods))) 100.

Section Volatility.

(** [Series.std()] *)
Variable series_std : list float → float.

(** [Series.rolling(window=window).std().iloc[-1]]; the left summand is
    the message of the exception pandas raises. *)
Variable rolling_std_last : Z → list float → string + float.

(** [compute_volatility], given the rows [db.get_ohlc] returned. *)
Definition compute_volatility (symbol timeframe : string) (window : Z)
    (ohlc_data : list OHLC) : result :=
  match ohlc_data with
  | [] => Error "Insufficient data"
  | _ :: _ =>
    if Z.of_nat (length ohlc_data) <? window then Error "Insufficient data"
    else
      let returns := pct_change (map ohlc_close ohlc_data) in
      let periods := periods_per_year timeframe in
      let historical_vol := annualize (series_std returns) periods in
      match rolling_std_last window returns with
      | inl message => Error message
      | inr std => Volatility symbol timeframe historical_vol
                              (annualize std periods) window
      end
  end.

End Volatility.

(** Instances for the examples: the sample standard deviation of the
    values that are not NaN, and of the last [window] of them. *)
Definition not_nan (x : float) : bool := PrimFloat.eqb x x.

Definition sample_std (xs : list float) : float :=
  let v := List.filter not_nan xs in
  let n := PyFloat.of_int (Z.of_nat (length v)) in
  let m := PrimFloat.div (foldl PrimFloat.add 0%float v) n in
  PrimFloat.sqrt
    (PrimFloat.div
       (foldl PrimFloat.add 0%float
              (map (fun x => PrimFloat.mul (PrimFloat.sub x m) (PrimFloat.sub x m)) v))
       (PrimFloat.sub n 1)).

Definition sample_std_last (window : Z) (xs : list float) : string + float :=
  inr (sample_std (drop (length xs - Z.to_nat window) xs)).

Definition three_candles : list OHLC :=
  [mkOHLC 1 "btcusdt" "1s" 1793707200000000 100 100 100 100 1 1 0;
   mkOHLC 2 "btcusdt" "1s" 1793707201000000 100 110 100 110 1 1 0;
   mkOHLC 3 "btcusdt" "1s" 1793707202000000 110 121 110 121 1 1 0].

End BasicStats.


(** ** Hedge ratio from candles *)

Module PairsTrading.
Import Database.

Inductive result :=
| Error (message : string)
| HedgeRatio (symbol1 symbol2 : string)
             (hedge_ratio intercept r_squared : float)
             (method : string) (data_points : Z) (timeframe : string).

(** [pd.merge(df1[['timestamp', 'close']], df2[['timestamp', 'close']],
    on='timestamp')]: the inner join, in the order of the left frame. *)
Definition merge (df1 df2 : list OHLC) : list (Z * float * float) :=
  r1 ← df1;
  r2 ← List.filter (fun r2 => ohlc_timestamp r2 =? ohlc_timestamp r1) df2;
  [(ohlc_timestamp r1, ohlc_close r1, ohlc_close r2)].

Definition square (x : float) : float := PrimFloat.mul x x.

Section HedgeRatio.

(** [model.fit(X, y)] of [HuberRegressor] or [LinearRegression], chosen by
    [method]: the coefficient and the intercept, or the message of the
    exception raised. *)
Variable fit : string → list float → list float → string + (float * float).

(** [np.sum] and [ndarray.mean] *)
Variable np_sum : list float → float.
Variable np_mean : list float → float.

(** [1 - np.sum((y - y_pred) ** 2) / np.sum((y - y.mean()) ** 2)] *)
Definition r_squared_of (y y_pred : list float) : float :=
  let m := np_mean y in
  PrimFloat.sub 1
    (PrimFloat.div
       (np_sum (zip_with (fun a b => square (PrimFloat.sub a b)) y y_pred))
       (np_sum (map (fun a => square (PrimFloat.sub a m)) y))).

(** [compute_hedge_ratio], given the rows the two [db.get_ohlc] calls
    returned. *)
Definition compute_hedge_ratio (symbol1 symbol2 timeframe method : string)
    (data1 data2 : list OHLC) : result :=
  match data1, data2 with
  | [], _ | _, [] => Error "Insufficient data"
  | _ :: _, _ :: _ =>
    if (Z.of_nat (length data1) <? 10) || (Z.of_nat (length data2) <? 10)
    then Error "Insufficient data"
    else
      let merged := merge data1 data2 in
      if Z.of_nat (length merged) <? 10 then Error "Insufficient aligned data"
      else
        let X := map (fun row => row.2) merged in
        let y := map (fun row => row.1.2) merged in
        match fit method X y with
        | inl message => Error message
        | inr (hedge_ratio, intercept) =>
            let y_pred :=
              map (fun x => PrimFloat.add (PrimFloat.mul x hedge_ratio) intercept) X in
            HedgeRatio symbol1 symbol2 hedge_ratio intercept
                       (r_squared_of y y_pred) method
                       (Z.of_nat (length merged)) timeframe
        end
  end.

End HedgeRatio.

(** The series of the regression example, as one-minute candles from
    2026-11-03 12:00:00 on. *)
Definition candle (symbol : string) (k : Z) (close : float) : OHLC :=
  mkOHLC (k + 1) symbol "1m" (1793707200000000 + k * 60000000)
         close close close close 1 1 0.

Definition series_A : list OHLC :=
  [candle "a" 0 10; candle "a" 1 12; candle "a" 2 14; candle "a" 3 16].

Definition series_B : list OHLC :=
  [candle "b" 0 20; candle "b" 1 22; candle "b" 2 24; candle "b" 3 26].

(** Instances for the examples: sums and means folded from the left, and
    the closed form of the least-squares line. *)
Definition sum_left (xs : list float) : float := foldl PrimFloat.add 0%float xs.

Definition mean_left (xs : list float) : float :=
  PrimFloat.div (sum_left xs) (PyFloat.of_int (Z.of_nat (length xs))).

Definition least_squares (_ : string) (X y : list float) : string + (float * float) :=
  let mx := mean_left X in
  let my := mean_left y in
  let sxy := sum_left (zip_with (fun a b => PrimFloat.mul (PrimFloat.sub a mx)
                                                          (PrimFloat.sub b my)) X y) in
  let sxx := sum_left (map (fun a => square (PrimFloat.sub a mx)) X) in
  let slope := PrimFloat.div sxy sxx in
  inr (slope, PrimFloat.sub my (PrimFloat.mul slope mx)).

End PairsTrading.


(** ** Spread and z-score from ticks *)

Module TickPairsTrading.

(** The record [compute_spread_from_ticks] returns. *)
Record spread := mkSpread {
  symbol1 : string;
  symbol2 : string;
  hedge_ratio : float;
  intercept : float;
  current_spread : float;
  spread_mean : float;
  spread_std : float;
  current_zscore : float;
  price1 : float;
  price2 : float;
  timestamp : Z;
  window : Z;
  data_points : Z;
  method : string;
  timeframe : string
}.

Inductive result :=
| Error (message : string)
| Spread (s : spread).

(** [(current_spread - spread_mean) / spread_std] behind the test
    [spread_std > 0]; [None] is [ZeroDivisionError]. *)
Definition zscore (current_spread spread_mean spread_std : float) : option float :=
  if PrimFloat.ltb 0 spread_std
  then PyFloat.div (PrimFloat.sub current_spread spread_mean) spread_std
  else Some 0%float.

Section Spread.

(** The two frames sorted by time, [pd.merge_asof] to the nearest tick
    within five seconds, and [dropna]: rows of timestamp, price of the
    first symbol and price of the second. *)
Variable merge_asof : list tick → list tick → list (Z * float * float).

(** [LinearRegression().fit(X, y)]: the coefficient and the intercept, or
    the message of the exception raised. *)
Variable fit : list float → list float → string + (float * float).

(** [Series.rolling(window=window).mean().iloc[-1]] and the same for
    [std]. *)
Variable rolling_mean_last : Z → list float → string + float.
Variable rolling_std_last : Z → list float → string + float.

(** [compute_spread_from_ticks], given the ticks the two [db.get_ticks]
    calls returned. *)
Definition compute_spread_from_ticks (symbol1 symbol2 : string) (window : Z)
    (ticks1 ticks2 : list tick) : result :=
  match ticks1, ticks2 with
  | [], _ | _, [] => Error "Insufficient tick data"
  | _ :: _, _ :: _ =>
    if (Z.of_nat (length ticks1) <? window) || (Z.of_nat (length ticks2) <? window)
    then Error ("Need at least " +:+ pretty window +:+ " ticks for each symbol")
    else
      let merged := merge_asof ticks1 ticks2 in
      if Z.of_nat (length merged) <? window
      then Error ("Only " +:+ pretty (length merged)
                  +:+ " aligned data points, need at least " +:+ pretty window)
      else
        let prices1 := map (fun row => row.1.2) merged in
        let prices2 := map (fun row => row.2) merged in
        match fit prices2 prices1 with
        | inl message => Error message
        | inr (hedge_ratio, intercept) =>
          let spread :=
            map (fun row => PrimFloat.sub row.1.2 (PrimFloat.mul hedge_ratio row.2))
                merged in
          match rolling_mean_last window spread, rolling_std_last window spread with
          | inl message, _ => Error message
          | _, inl message => Error message
          | inr spread_mean, inr spread_std =>
            match last spread, last merged with
            | Some current_spread, Some (ts, current_price1, current_price2) =>
              match zscore current_spread spread_mean spread_std with
              | None => Error "float division by zero"
              | Some current_zscore =>
                  Spread (mkSpread symbol1 symbol2 hedge_ratio intercept
                                   current_spread spread_mean spread_std
                                   current_zscore current_price1 current_price2
                                   ts window (Z.of_nat (length merged))
                                   "tick_based" "tick")
              end
            | _, _ => Error "index -1 is out of bounds for axis 0 with size 0"
            end
          end
        end
  end.

End Spread.

(** Instances for the examples: ticks paired by position, and the mean and
    the sample standard deviation of the last [window] values, summed
    from the left. *)
Definition zip_ticks (ticks1 ticks2 : list tick) : list (Z * float * float) :=
  zip_with (fun t1 t2 => (tick_timestamp t1, tick_price t1, tick_price t2))
           ticks1 ticks2.

Definition tail_window (window : Z) (xs : list float) : list float :=
  drop (length xs - Z.to_nat window) xs.

Definition mean_of_window (window : Z) (xs : list float) : string + float :=
  inr (PairsTrading.mean_left (tail_window window xs)).

Definition std_of_window (window : Z) (xs : list float) : string + float :=
  let w := tail_window window xs in
  let m := PairsTrading.mean_left w in
  inr (PrimFloat.sqrt
         (PrimFloat.div
            (PairsTrading.sum_left
               (map (fun x => PairsTrading.square (PrimFloat.sub x m)) w))
            (PyFloat.of_int (Z.of_nat (length w) - 1)))).

(** Three ticks of each symbol, the first at twice the price of the
    second: the spread is zero throughout, and so is its deviation. *)
Definition ticks_double : list tick :=
  [mkTick "a" 1793707170000000 2 1; mkTick "a" 1793707171000000 4 1;
   mkTick "a" 1793707172000000 6 1].

Definition ticks_single : list tick :=
  [mkTick "b" 1793707170000000 1 1; mkTick "b" 1793707171000000 2 1;
   mkTick "b" 1793707172000000 3 1].

End TickPairsTrading.

(** ** Storage: ticks, candle reads and alerts *)

Module Storage.
Import Database.

(** A row of [class Tick(Base)]. *)
Record TickRow := mkTickRow {
  tr_id : Z;
  tr_symbol : string;
  tr_timestamp : Z;
  tr_price : float;
  tr_size : float;
  tr_created_at : Z
}.

(** The dict [get_ticks] builds from a row. *)
Definition tick_of_row (r : TickRow) : tick :=
  mkTick (tr_symbol r) (tr_timestamp r) (tr_price r) (tr_size r).

Definition next_tick_id (tbl : list TickRow) : Z :=
  1 + fold_right Z.max 0 (map tr_id tbl).

(** [session.add_all(tick_objects)], flushed: one row per tick, in the
    order given, with consecutive primary keys; [utcnow k] is the clock
    read by the [created_at] default of the [k]-th row. *)
Definition add_all (utcnow : nat → Z) (tbl : list TickRow)
    (ticks : list tick) : list TickRow :=
  tbl ++ imap (fun k t => mkTickRow (next_tick_id tbl + Z.of_nat k)
                                    (tick_symbol t) (tick_timestamp t)
                                    (tick_price t) (tick_size t) (utcnow k))
              ticks.

(** [price] and [size] are [Column(Float, nullable=False)], and a NaN is
    bound as NULL. *)
Definition tick_storable (t : tick) : bool :=
  not_null (tick_price t) && not_null (tick_size t).

(** [Database.insert_ticks]: the rows are added and committed in one
    transaction; a tick that violates a constraint raises
    [IntegrityError] at the commit and none of the batch is stored. *)
Definition insert_ticks (utcnow : nat → Z) (tbl : list TickRow)
    (ticks : list tick) : exn + list TickRow :=
  if forallb tick_storable ticks then inr (add_all utcnow tbl ticks)
  else inl IntegrityError.

(** [WHERE symbol == .. AND timestamp >= start_time AND timestamp <=
    end_time], a bound that is [None] being left out. *)
Definition in_window (start_time end_time : option Z) (t : Z) : bool :=
  match start_time with Some s => s <=? t | None => true end
  && match end_time with Some e => t <=? e | None => true end.

Definition tick_matches (symbol : string) (start_time end_time : option Z)
    (r : TickRow) : bool :=
  String.eqb (tr_symbol r) symbol && in_window start_time end_time (tr_timestamp r).

Definition ohlc_matches (symbol timeframe : string) (start_time end_time : option Z)
    (r : OHLC) : bool :=
  String.eqb (ohlc_symbol r) symbol && String.eqb (ohlc_timeframe r) timeframe
  && in_window start_time end_time (ohlc_timestamp r).

(** [LIMIT n] in SQLite: a negative bound is no bound. *)
Definition sql_limit {A : Type} (limit : Z) (rows : list A) : list A :=
  if limit <? 0 then rows else take (Z.to_nat limit) rows.

(** What SQL promises of [ORDER BY timestamp DESC]: the same rows, none
    before a row with a later timestamp. *)
Definition orders_desc {A : Type} (timestamp : A → Z) (order : list A → list A) : Prop :=
  ∀ rows, order rows ≡ₚ rows
          ∧ StronglySorted (fun a b => timestamp b ≤ timestamp a) (order rows).

Section Queries.

(** [ORDER BY ticks.timestamp DESC] and [ORDER BY ohlc.timestamp DESC];
    the order among equal timestamps is the engine's. *)
Variable order_ticks_desc : list TickRow → list TickRow.
Variable order_ohlc_desc : list OHLC → list OHLC.

(** [Database.get_ticks] *)
Definition get_ticks (symbol : string) (start_time end_time : option Z)
    (limit : Z) (tbl : list TickRow) : list tick :=
  map tick_of_row
      (reverse (sql_limit limit
                  (order_ticks_desc
                     (List.filter (tick_matches symbol start_time end_time) tbl)))).

(** [Database.get_ohlc]; of a row the callers read the nine fields the
    dict carries. *)
Definition get_ohlc (symbol timeframe : string) (start_time end_time : option Z)
    (limit : Z) (tbl : list OHLC) : list OHLC :=
  reverse (sql_limit limit
             (order_ohlc_desc
                (List.filter (ohlc_matches symbol timeframe start_time end_time) tbl))).

End Queries.

(** [Database.get_tick_count]: all rows when the symbol is [None] or
    empty. *)
Definition get_tick_count (symbol : option string) (tbl : list TickRow) : Z :=
  match symbol with
  | None | Some EmptyString => Z.of_nat (length tbl)
  | Some s => Z.of_nat (length (List.filter (fun r => String.eqb (tr_symbol r) s) tbl))
  end.

(** A row of [class Alert(Base)]. *)
Record Alert := mkAlert {
  alert_id : Z;
  alert_name : string;
  alert_symbol : string;
  alert_metric : string;
  alert_condition : string;
  alert_threshold : float;
  alert_is_active : Z;
  alert_created_at : Z;
  alert_last_triggered : option Z
}.

(** The dict handed to [create_alert]; ['is_active'] may be absent. *)
Record alert_data := mkAlertData {
  a_name : string;
  a_symbol : string;
  a_metric : string;
  a_condition : string;
  a_threshold : float;
  a_is_active : option Z
}.

Definition next_alert_id (tbl : list Alert) : Z :=
  1 + fold_right Z.max 0 (map alert_id tbl).

(** [Database.create_alert]: the new table and the primary key of the new
    row.  [threshold] is [Column(Float, nullable=False)]: a NaN, bound as
    NULL, raises [IntegrityError] at the commit and no row is stored. *)
Definition create_alert (utcnow : Z) (tbl : list Alert) (d : alert_data)
  : exn + list Alert * Z :=
  let i := next_alert_id tbl in
  if not_null (a_threshold d)
  then inr (tbl ++ [mkAlert i (a_name d) (a_symbol d) (a_metric d) (a_condition d)
                            (a_threshold d) (default 1 (a_is_active d)) utcnow None],
            i)
  else inl IntegrityError.

(** [Database.get_alerts]; the rows stand for the dicts, whose
    ['is_active'] is [bool(alert.is_active)], and come in the order of
    the table, as SQLite gives them without ORDER BY. *)
Definition get_alerts (active_only : bool) (tbl : list Alert) : list Alert :=
  if active_only then List.filter (fun a => alert_is_active a =? 1) tbl else tbl.

Definition one_alert_or_none (rows : list Alert) : exn + option Alert :=
  match rows with
  | [] => inr None
  | [a] => inr (Some a)
  | _ :: _ :: _ => inl MultipleResultsFound
  end.

(** [Database.update_alert_trigger] *)
Definition update_alert_trigger (utcnow : Z) (id : Z) (tbl : list Alert)
  : exn + list Alert :=
  match one_alert_or_none (List.filter (fun a => alert_id a =? id) tbl) with
  | inl e => inl e
  | inr None => inr tbl
  | inr (Some alert) =>
      inr (map (fun a =>
                  if alert_id a =? alert_id alert
                  then mkAlert (alert_id a) (alert_name a) (alert_symbol a)
                               (alert_metric a) (alert_condition a)
                               (alert_threshold a) (alert_is_active a)
                               (alert_created_at a) (Some utcnow)
                  else a) tbl)
  end.

(** [Database.delete_alert] *)
Definition delete_alert (id : Z) (tbl : list Alert) : exn + list Alert :=
  match one_alert_or_none (List.filter (fun a => alert_id a =? id) tbl) with
  | inl e => inl e
  | inr None => inr tbl
  | inr (Some alert) =>
      inr (List.filter (fun a => negb (alert_id a =? alert_id alert)) tbl)
  end.

(** The primary key of the [alerts] table. *)
Definition wf_alerts (tbl : list Alert) : Prop := NoDup (map alert_id tbl).

(** An instance of the two orderings, by merge sort. *)
Definition later_tick (a b : TickRow) : Prop := tr_timestamp b ≤ tr_timestamp a.
Definition later_candle (a b : OHLC) : Prop := ohlc_timestamp b ≤ ohlc_timestamp a.

#[global] Instance later_tick_dec (a b : TickRow) : Decision (later_tick a b) :=
  decide (tr_timestamp b ≤ tr_timestamp a).

#[global] Instance later_candle_dec (a b : OHLC) : Decision (later_candle a b) :=
  decide (ohlc_timestamp b ≤ ohlc_timestamp a).

Definition sort_ticks_desc : list TickRow → list TickRow := merge_sort later_tick.
Definition sort_ohlc_desc : list OHLC → list OHLC := merge_sort later_candle.

(** Four stored ticks of two symbols, for the examples. *)
Definition stored_ticks : list TickRow :=
  [mkTickRow 1 "btcusdt" 1793707170000000 100 1 0;
   mkTickRow 2 "ethusdt" 1793707171000000 50 3 0;
   mkTickRow 3 "btcusdt" 1793707172000000 102 1 0;
   mkTickRow 4 "btcusdt" 1793707171000000 101 2 0].

Definition stored_alerts : list Alert :=
  [mkAlert 1 "high" "btcusdt" "price" ">" 100 1 0 None;
   mkAlert 2 "quiet" "ethusdt" "volume" "<" 5 0 0 None].

Definition new_alert : alert_data :=
  mkAlertData "spread" "btcusdt_ethusdt" "z_score" ">" 2 None.

End Storage.

(** ** The stream client: start, stop and runs of a connection loop *)

Module StreamControl.
Import BinanceWs.

(** [BinanceWebSocketClient.__init__] *)
Definition init (symbols : list string) : client :=
  mkClient (map lower symbols) false ∅.

(** [BinanceWebSocketClient.start]: the new state and the coroutines it
    creates, one per symbol, each at the head of its loop with a delay
    of 1. *)
Definition start (c : client) : client * list (string * pc) :=
  if running c then (c, [])
  else (mkClient (symbols c) true (connections c),
        map (fun symbol => (symbol, AtWhile 1)) (symbols c)).

(** [BinanceWebSocketClient.stop], as far as the shared state goes: the
    flag is cleared and the connections are closed and forgotten. *)
Definition stop (c : client) : client :=
  if running c then mkClient (symbols c) false ∅ else c.

(** [BinanceWebSocketClient.get_connected_symbols], as a set. *)
Definition get_connected_symbols (c : client) : gset string := connections c.

Section Run.

Variable float_of_str : string → option float.
Variable utcoffset : Z → Z.

(** A coroutine resumed by one event after the other, no other coroutine
    touching the shared state in between: the final state and position,
    and the ticks given to the callback, in order. *)
Fixpoint run (c : client) (symbol : string) (p : pc) (evs : list event)
  : client * pc * list tick :=
  match evs with
  | [] => (c, p, [])
  | ev :: rest =>
      let '(c1, p1, out) := step float_of_str utcoffset c symbol p ev in
      let '(c2, p2, outs) := run c1 symbol p1 rest in
      (c2, p2, from_option (fun t => [t]) [] out ++ outs)
  end.

End Run.

(** [n] connection attempts that fail, each followed by its sleep. *)
Fixpoint failures (n : nat) : list event :=
  match n with
  | O => []
  | S n' => ConnectFailed :: Woken :: failures n'
  end.

End StreamControl.

(** ** The ingestion manager *)

Module Manager.
Import RedisCache Storage.

(** [tick_buffer], a [defaultdict(list)]: the symbols in the order of
    their first tick, each with its ticks in the order of arrival. *)
Abbreviation buffer := (list (string * list tick)).

(** [self.tick_buffer[symbol].append(tick)] *)
Fixpoint buffer_append (b : buffer) (symbol : string) (t : tick) : buffer :=
  match b with
  | [] => [(symbol, [t])]
  | (s, ts) :: rest =>
      if String.eqb s symbol then (s, ts ++ [t]) :: rest
      else (s, ts) :: buffer_append rest symbol t
  end.

(** [for symbol, ticks in self.tick_buffer.items(): all_ticks.extend(ticks)] *)
Definition collect (b : buffer) : list tick := concat (map snd b).

(** The manager with the stream client it owns, and the cache and the
    tick table it writes. *)
Record world := mkWorld {
  symbols : list string;
  tick_buffer : buffer;
  running : bool;
  ws_client : BinanceWs.client;
  cache : RedisCache.cache;
  ticks : list TickRow
}.

(** [IngestionManager.__init__] *)
Definition init (symbols : list string) (c : RedisCache.cache) (tbl : list TickRow)
  : world :=
  mkWorld symbols [] false (StreamControl.init symbols) c tbl.

(** [IngestionManager._handle_tick] at the clock reading [now]. *)
Definition _handle_tick (now : Z) (t : tick) (w : world) : world :=
  let symbol := tick_symbol t in
  mkWorld (symbols w) (buffer_append (tick_buffer w) symbol t) (running w)
          (ws_client w)
          (push_tick (cache w) now symbol t max_size_default) (ticks w).

Definition handle_all (arrivals : list (Z * tick)) (w : world) : world :=
  foldl (fun w a => _handle_tick a.1 a.2 w) w arrivals.

(** One pass of [_batch_insert_loop] after its sleep.  The ticks are
    collected, [db.insert_ticks] is awaited, and the buffer is cleared
    when the insert has returned; [arrived] are the ticks handled while
    the insert was awaited, [inserted] tells whether it returned, with
    the rows of [Storage.add_all] stored, or raised. *)
Definition flush_pass (inserted : bool) (utcnow : nat → Z)
    (arrived : list (Z * tick)) (w : world) : world :=
  match tick_buffer w with
  | [] => w
  | _ :: _ =>
      match collect (tick_buffer w) with
      | [] => w
      | all_ticks =>
          let w' := handle_all arrived w in
          if inserted
          then mkWorld (symbols w') [] (running w') (ws_client w') (cache w')
                       (add_all utcnow (ticks w') all_ticks)
          else w'
      end
  end.

(** [IngestionManager.stop], the periodic task being cancelled in its
    sleep: the new state, and whether the call returned ([true]) or the
    final insert raised ([false]). *)
Definition stop (inserted : bool) (utcnow : nat → Z) (w : world) : world * bool :=
  if negb (running w) then (w, true)
  else
    let ws := StreamControl.stop (ws_client w) in
    match collect (tick_buffer w) with
    | [] => (mkWorld (symbols w) [] false ws (cache w) (ticks w), true)
    | all_ticks =>
        if inserted
        then (mkWorld (symbols w) [] false ws (cache w)
                      (add_all utcnow (ticks w) all_ticks), true)
        else (mkWorld (symbols w) (tick_buffer w) false ws (cache w) (ticks w), false)
    end.

(** [IngestionManager.start], as far as the state goes. *)
Definition start (w : world) : world :=
  if running w then w
  else mkWorld (symbols w) (tick_buffer w) true
               (StreamControl.start (ws_client w)).1 (cache w) (ticks w).

(** [IngestionManager.add_symbol] and [remove_symbol] *)
Definition add_symbol (symbol : string) (w : world) : world :=
  if bool_decide (symbol ∈ symbols w) then w
  else mkWorld (symbols w ++ [symbol]) (tick_buffer w) (running w)
               (BinanceWs.add_symbol symbol (ws_client w)).1 (cache w) (ticks w).

Definition remove_symbol (symbol : string) (w : world) : world :=
  if bool_decide (symbol ∈ symbols w)
  then mkWorld (BinanceWs.list_remove symbol (symbols w)) (tick_buffer w) (running w)
               (BinanceWs.remove_symbol symbol (ws_client w)) (cache w) (ticks w)
  else w.

(** [IngestionManager.get_status] *)
Record status := mkStatus {
  status_running : bool;
  status_symbols : list string;
  status_connected_symbols : gset string;
  status_buffered_ticks : Z
}.

Definition get_status (w : world) : status :=
  mkStatus (running w) (symbols w)
           (StreamControl.get_connected_symbols (ws_client w))
           (fold_right Z.add 0 (map (fun kv => Z.of_nat (length kv.2)) (tick_buffer w))).

(** What the life of a manager is made of, between [start] and [stop]: a
    tick arrives, or the periodic task makes a pass during which nothing
    arrives. *)
Inductive action :=
| Arrive (now : Z) (t : tick)
| Flush (inserted : bool) (utcnow : nat → Z).

Definition act (w : world) (a : action) : world :=
  match a with
  | Arrive now t => _handle_tick now t w
  | Flush inserted utcnow => flush_pass inserted utcnow [] w
  end.

Definition arrivals_of (actions : list action) : list tick :=
  actions ≫= fun a => match a with Arrive _ t => [t] | Flush _ _ => [] end.

(** Every key holds ticks of its own symbol, at least one, and no key
    occurs twice. *)
Definition wf_buffer (b : buffer) : Prop :=
  NoDup (map fst b)
  ∧ ∀ s ts, (s, ts) ∈ b → ts ≠ [] ∧ ∀ t, t ∈ ts → tick_symbol t = s.

(** The manager and its stream client track the same symbols. *)
Definition agree (w : world) : Prop :=
  symbols w = BinanceWs.symbols (ws_client w).

(** The ticks of one symbol, in the order the list has them. *)
Definition of_symbol (symbol : string) (l : list tick) : list tick :=
  filter (fun t => tick_symbol t = symbol) l.

(** The ticks the table holds, in the order of their insertion. *)
Definition stored (w : world) : list tick := map tick_of_row (ticks w).

(** A manager that has been started and has one tick of btcusdt in its
    buffer, and what happens to it next. *)
Definition started : world :=
  _handle_tick 1793707170000000 tick_older
    (start (init ["btcusdt"; "ethusdt"] connected_empty [])).

Definition tick_eth : tick := mkTick "ethusdt" 1793707171500000 7 3.

Definition busy_minute : list action :=
  [Arrive 1793707171000000 tick_newer;
   Flush false (fun _ => 1793707172000000);
   Arrive 1793707171500000 tick_eth;
   Flush true (fun _ => 1793707173000000);
   Arrive 1793707174000000 tick_older].

End Manager.

(** ** The alert engine: one alert, one pass of the loop, the recent triggers *)

Module AlertEvaluation.
Import Database RedisCache Storage AlertEngine.

(** The dict [_evaluate_alert] returns for an alert that fires; the
    timestamp is the instant its ISO string stands for. *)
Record trigger := mkTrigger {
  trigger_alert_id : Z;
  trigger_alert_name : string;
  trigger_symbol : string;
  trigger_metric : string;
  trigger_value : float;
  trigger_condition : string;
  trigger_threshold : float;
  trigger_timestamp : Z
}.

(** [symbol.split('_', 1)] under ['_' in symbol]: the parts before and
    after the first underscore, [None] without one. *)
Fixpoint split_underscore (s : string) : option (string * string) :=
  match s with
  | EmptyString => None
  | String a rest =>
      if Ascii.eqb a "_" then Some (EmptyString, rest)
      else match split_underscore rest with
           | Some (before, after) => Some (String a before, after)
           | None => None
           end
  end.

Section Evaluate.

(** What the analytics give for the one-minute timeframe: the value under
    ['current_zscore'], ['current_volume'] and ['rolling_volatility'] of
    their results; [None] when the key is missing, holds [None], or the
    call raises, all of which end in [return None]. *)
Variable current_zscore : string → string → option float.
Variable current_volume : string → option float.
Variable rolling_volatility : string → option float.

(** The [if metric == ...] chain. *)
Definition metric_value (c : cache) (now : Z) (symbol metric : string)
  : option float :=
  if String.eqb metric "price" then
    tick_price <$> last (get_recent_ticks c now symbol 1)
  else if String.eqb metric "z_score" then
    match split_underscore symbol with
    | Some (symbol1, symbol2) => current_zscore symbol1 symbol2
    | None => None
    end
  else if String.eqb metric "volume" then current_volume symbol
  else if String.eqb metric "volatility" then rolling_volatility symbol
  else None.

(** [AlertEngine._evaluate_alert] on a row of [get_alerts], the cache
    read at [now] and the trigger stamped at [utcnow]. *)
Definition _evaluate_alert (c : cache) (now utcnow : Z) (a : Alert)
  : option trigger :=
  match metric_value c now (alert_symbol a) (alert_metric a) with
  | Some value =>
      if _evaluate_condition value (alert_condition a) (alert_threshold a)
      then Some (mkTrigger (alert_id a) (alert_name a) (alert_symbol a)
                           (alert_metric a) value (alert_condition a)
                           (alert_threshold a) utcnow)
      else None
  | None => None
  end.

End Evaluate.

(** [alert.last_triggered = datetime.utcnow()] *)
Definition triggered_at (utcnow : Z) (a : Alert) : Alert :=
  mkAlert (alert_id a) (alert_name a) (alert_symbol a) (alert_metric a)
          (alert_condition a) (alert_threshold a) (alert_is_active a)
          (alert_created_at a) (Some utcnow).

(** [l[i:]] *)
Definition slice_from (i : Z) (l : list trigger) : list trigger :=
  let n := Z.of_nat (length l) in
  let i := if i <? 0 then Z.max (n + i) 0 else Z.min i n in
  drop (Z.to_nat i) l.

(** [triggered_alerts.append(trigger)], then the cut to the last 100. *)
Definition append_trigger (tr : trigger) (triggered : list trigger) : list trigger :=
  let l := triggered ++ [tr] in
  if 100 <? Z.of_nat (length l) then slice_from (-100) l else l.

(** [AlertEngine.get_recent_triggers] *)
Definition get_recent_triggers (limit : Z) (triggered : list trigger) : list trigger :=
  slice_from (- limit) triggered.

Section Loop.

(** What [_evaluate_alert] returns for an alert when the loop reaches it,
    and the clock reading of the update that follows.  A pass reaches
    each alert once, so a function of the alert tells all of it. *)
Variable evaluate : Alert → option trigger.
Variable utcnow : Alert → Z.

(** [for alert in alerts:] over the rows read at the start of the pass.
    The first component is the exception that ended the pass, if any. *)
Fixpoint evaluate_each (alerts : list Alert) (tbl : list Alert)
    (triggered : list trigger) : option exn * list Alert * list trigger :=
  match alerts with
  | [] => (None, tbl, triggered)
  | alert :: rest =>
      match evaluate alert with
      | None => evaluate_each rest tbl triggered
      | Some tr =>
          match update_alert_trigger (utcnow alert) (alert_id alert) tbl with
          | inl e => (Some e, tbl, triggered)
          | inr tbl' => evaluate_each rest tbl' (append_trigger tr triggered)
          end
      end
  end.

(** The body of [while self.running:] in [_evaluation_loop], up to the
    sleep. *)
Definition evaluation_pass (tbl : list Alert) (triggered : list trigger)
  : option exn * list Alert * list trigger :=
  evaluate_each (get_alerts true tbl) tbl triggered.

(** The alerts a pass stamps. *)
Definition fires (a : Alert) : bool :=
  (alert_is_active a =? 1) && bool_decide (is_Some (evaluate a)).

(** A row of the table once the loop has gone through [done]. *)
Definition stamped (done : list Alert) (a : Alert) : Alert :=
  if bool_decide (alert_id a ∈ map alert_id done)
     && bool_decide (is_Some (evaluate a))
  then triggered_at (utcnow a) a else a.

End Loop.

(** The last [n] elements. *)
Definition last_n (n : nat) (l : list trigger) : list trigger :=
  drop (length l - n) l.

(** Analytics that have nothing to say, and a cache that holds one tick
    of btcusdt at 101, for the examples. *)
Definition no_pair (_ _ : string) : option float := None.
Definition no_value (_ : string) : option float := None.

Definition cache_at_101 : cache :=
  push_tick connected_empty 1793707171000000 "btcusdt" tick_newer max_size_default.

Definition evaluate_at_101 : Alert → option trigger :=
  _evaluate_alert no_pair no_value no_value cache_at_101
                  1793707172000000 1793707172000000.

Definition spread_alert : Alert :=
  mkAlert 3 "wide" "btcusdt" "spread" ">" 2 1 0 None.

End AlertEvaluation.

(** ** The configured symbols *)

Module Config.
Import PyTime.

(** [str.split(',')]: the pieces between the commas, at least one. *)
Fixpoint split_comma (s : string) : list string :=
  match s with
  | EmptyString => [EmptyString]
  | String a s' =>
      if Ascii.eqb a "," then EmptyString :: split_comma s'
      else match split_comma s' with
           | piece :: pieces => String a piece :: pieces
           | [] => [String a EmptyString]
           end
  end.

(** [str.strip()] on ASCII, with [lstrip] as [int] has it. *)
Fixpoint rstrip (s : string) : string :=
  match s with
  | EmptyString => EmptyString
  | String a s' =>
      match rstrip s' with
      | EmptyString => if is_space a then EmptyString else String a EmptyString
      | String b r => String a (String b r)
      end
  end.

Definition strip (s : string) : string := rstrip (lstrip s).

(** [Settings.symbols_list] on a [DEFAULT_SYMBOLS] that is a [str], as
    its declaration makes it:
    [[s.strip().lower() for s in DEFAULT_SYMBOLS.split(',') if s.strip()]] *)
Definition symbols_list (DEFAULT_SYMBOLS : string) : list string :=
  map (fun s => BinanceWs.lower (strip s))
      (List.filter (fun s => negb (String.eqb (strip s) EmptyString))
                   (split_comma DEFAULT_SYMBOLS)).

Fixpoint all_chars (p : ascii → bool) (s : string) : bool :=
  match s with
  | EmptyString => true
  | String a s' => p a && all_chars p s'
  end.

Definition not_comma (a : ascii) : bool := negb (Ascii.eqb a ",").

End Config.

(** * Properties *)

(** ** Binary64 arithmetic

    The bucket start is computed in binary64: a division, a truncation
    and a multiplication.  The lemmas below follow the rounding of
    [SpecFloat] far enough to show that a rounded value never crosses a
    binary64 number, and that small integers are computed exactly. *)

Module Binary64Facts.
Import PyFloat Binary64.

(** *** Powers of two *)

Lemma pw_pos (e : Z) : -1100 ≤ e → 0 < pw e.
Proof. intros H. unfold pw. apply Z.pow_pos_nonneg; lia. Qed.

Lemma pw_add (e n : Z) : -1100 ≤ e → 0 ≤ n → pw (e + n) = 2 ^ n * pw e.
Proof.
  intros He Hn. unfold pw.
  replace (e + n + 1100) with (n + (e + 1100)) by lia.
  apply Z.pow_add_r; lia.
Qed.

Lemma pw_le (e1 e2 : Z) : e1 ≤ e2 → pw e1 ≤ pw e2.
Proof. intros H. unfold pw. apply Z.pow_le_mono_r; lia. Qed.

Lemma pow2_pos (n : Z) : 0 ≤ n → 0 < 2 ^ n.
Proof. intros H. apply Z.pow_pos_nonneg; lia. Qed.

Lemma pow2_ge_2 (n : Z) : 1 ≤ n → 2 ≤ 2 ^ n.
Proof.
  intros H. change 2 with (2 ^ 1) at 1. apply Z.pow_le_mono_r; lia.
Qed.

Lemma pow2_split (a b : Z) : 0 ≤ a → 0 ≤ b → 2 ^ (a + b) = 2 ^ a * 2 ^ b.
Proof. intros. apply Z.pow_add_r; lia. Qed.

(** *** The number of binary digits *)

Lemma digits2_pos_log2 (p : positive) :
  Z.pos (digits2_pos p) = Z.log2 (Z.pos p) + 1.
Proof.
  assert (H : digits2_pos p = Pos.size p)
    by (induction p as [p IH|p IH|]; simpl; congruence).
  rewrite H. destruct p; simpl; lia.
Qed.

Lemma Zdigits2_bounds (m : Z) :
  0 < m → 2 ^ (Zdigits2 m - 1) ≤ m < 2 ^ Zdigits2 m.
Proof.
  intros Hm. destruct m as [|p|p]; try lia. unfold Zdigits2.
  rewrite digits2_pos_log2.
  replace (Z.log2 (Z.pos p) + 1 - 1) with (Z.log2 (Z.pos p)) by lia.
  apply (Z.log2_spec (Z.pos p)). lia.
Qed.

Lemma Zdigits2_unique (m d : Z) : 2 ^ (d - 1) ≤ m < 2 ^ d → 0 < m → Zdigits2 m = d.
Proof.
  intros H Hm. destruct m as [|p|p]; try lia. unfold Zdigits2.
  rewrite digits2_pos_log2.
  assert (Hd : 0 < d).
  { destruct (Z.lt_trichotomy d 0) as [Hn | [-> | Hp]]; [|simpl in H; lia|exact Hp].
    rewrite (Z.pow_neg_r 2 d) in H by lia. lia. }
  rewrite (Z.log2_unique (Z.pos p) (d - 1)); [lia | lia |].
  now replace (Z.succ (d - 1)) with d by lia.
Qed.

(** *** Shifting a mantissa right *)

Lemma mod_mul_split (a b c : Z) :
  0 < b → 0 < c → a mod (b * c) = 0 → a mod b = 0 ∧ (a / b) mod c = 0.
Proof.
  intros Hb Hc H. apply Z.mod_divide in H as [k Hk]; [|lia]. subst a.
  replace (k * (b * c)) with (k * c * b) by ring.
  rewrite Z.div_mul by lia. rewrite !Z.mod_mul by lia. now split.
Qed.

Lemma shr_1_spec (r : shr_record) :
  0 ≤ shr_m r →
  shr_m (shr_1 r) = shr_m r / 2
  ∧ (clean r → shr_m r mod 2 = 0 → clean (shr_1 r)).
Proof.
  destruct r as [m r s]. unfold clean. simpl. intros Hm.
  destruct m as [|[p|p|]|p]; simpl; try lia.
  - split; [reflexivity|]. now intros [-> ->].
  - split.
    + apply (Z.div_unique_pos _ 2 _ 1); lia.
    + intros _ H.
      assert (E : 1 = Z.pos p~1 mod 2)
        by (apply (Z.mod_unique_pos _ 2 (Z.pos p)); lia).
      lia.
  - split.
    + apply (Z.div_unique_pos _ 2 _ 0); lia.
    + now intros [-> ->].
  - split; [reflexivity|]. intros _ H. discriminate H.
Qed.

Lemma iter_shr_1_spec (p : positive) (r : shr_record) :
  0 ≤ shr_m r →
  shr_m (SpecFloat.iter_pos shr_1 p r) = shr_m r / 2 ^ Z.pos p
  ∧ (clean r → shr_m r mod 2 ^ Z.pos p = 0 → clean (SpecFloat.iter_pos shr_1 p r)).
Proof.
  revert r. induction p as [p IH|p IH|]; intros r Hm.
  - simpl SpecFloat.iter_pos.
    destruct (shr_1_spec r Hm) as [E1 Hc1].
    assert (H1 : 0 ≤ shr_m (shr_1 r)) by (rewrite E1; apply Z.div_pos; lia).
    destruct (IH (shr_1 r) H1) as [E2 Hc2].
    assert (H2 : 0 ≤ shr_m (SpecFloat.iter_pos shr_1 p (shr_1 r)))
      by (rewrite E2; apply Z.div_pos; [lia | apply pow2_pos; lia]).
    destruct (IH _ H2) as [E3 Hc3].
    assert (Hp : 0 < 2 ^ Z.pos p) by (apply pow2_pos; lia).
    assert (Epow : 2 ^ Z.pos p~1 = 2 * (2 ^ Z.pos p * 2 ^ Z.pos p)).
    { rewrite Pos2Z.inj_xI, <- pow2_split by lia.
      replace (2 * Z.pos p + 1) with (1 + (Z.pos p + Z.pos p)) by lia.
      rewrite pow2_split by lia. reflexivity. }
    split.
    + rewrite E3, E2, E1, Epow, !Z.div_div by lia. reflexivity.
    + intros Hc Hmod. rewrite Epow in Hmod.
      apply mod_mul_split in Hmod as [Ha Hb]; [|lia|lia].
      apply mod_mul_split in Hb as [Hb Hd]; [|lia|lia].
      apply Hc3; [apply Hc2; [apply Hc1; assumption | now rewrite E1] |].
      now rewrite E2, E1.
  - simpl SpecFloat.iter_pos.
    destruct (IH r Hm) as [E2 Hc2].
    assert (H2 : 0 ≤ shr_m (SpecFloat.iter_pos shr_1 p r))
      by (rewrite E2; apply Z.div_pos; [lia | apply pow2_pos; lia]).
    destruct (IH _ H2) as [E3 Hc3].
    assert (Hp : 0 < 2 ^ Z.pos p) by (apply pow2_pos; lia).
    assert (Epow : 2 ^ Z.pos p~0 = 2 ^ Z.pos p * 2 ^ Z.pos p).
    { rewrite Pos2Z.inj_xO, <- pow2_split by lia. f_equal. lia. }
    split.
    + rewrite E3, E2, Epow, !Z.div_div by lia. reflexivity.
    + intros Hc Hmod. rewrite Epow in Hmod.
      apply mod_mul_split in Hmod as [Ha Hb]; [|lia|lia].
      apply Hc3; [now apply Hc2 | now rewrite E2].
  - simpl SpecFloat.iter_pos. change (2 ^ 1) with 2. now apply shr_1_spec.
Qed.

Lemma shr_spec (r : shr_record) (e n : Z) :
  0 ≤ n → 0 ≤ shr_m r →
  ∃ r', shr r e n = (r', e + n)
        ∧ shr_m r' = shr_m r / 2 ^ n
        ∧ (clean r → shr_m r mod 2 ^ n = 0 → clean r').
Proof.
  intros Hn Hm. destruct n as [|p|p]; [| |lia].
  - exists r. simpl. rewrite Z.add_0_r, Z.div_1_r.
    split; [reflexivity|]. split; [reflexivity|]. intros Hc _. exact Hc.
  - exists (SpecFloat.iter_pos shr_1 p r). split; [reflexivity|].
    now apply iter_shr_1_spec.
Qed.

(** *** Rounding a mantissa of at least 53 bits in the normal range *)

Lemma fexp_normal (x : Z) : -1074 ≤ x - 53 → fexp prec emax x = x - 53.
Proof. unfold fexp, SpecFloat.emin, prec, emax. lia. Qed.

Lemma div_pow2_bounds (m d : Z) :
  53 ≤ d → 2 ^ (d - 1) ≤ m < 2 ^ d → 2 ^ 52 ≤ m / 2 ^ (d - 53) < 2 ^ 53.
Proof.
  intros Hd Hm.
  assert (E1 : 2 ^ (d - 1) = 2 ^ 52 * 2 ^ (d - 53))
    by (rewrite <- pow2_split by lia; f_equal; lia).
  assert (E2 : 2 ^ d = 2 ^ 53 * 2 ^ (d - 53))
    by (rewrite <- pow2_split by lia; f_equal; lia).
  assert (Hp : 0 < 2 ^ (d - 53)) by (apply pow2_pos; lia).
  split.
  - apply Z.div_le_lower_bound; lia.
  - apply Z.div_lt_upper_bound; lia.
Qed.

Lemma shr_record_of_loc_m (m : Z) (l : location) : shr_m (shr_record_of_loc m l) = m.
Proof. now destruct l as [|[]]. Qed.

Lemma canonical_valid (m : positive) (e : Z) :
  canonical (Z.pos m) e → valid_binary (S754_finite false m e) = true.
Proof.
  intros [Hm He]. unfold SpecFloat.valid_binary, bounded, canonical_mantissa.
  assert (Hd : Z.pos (digits2_pos m) = 53)
    by (apply (Zdigits2_unique (Z.pos m) 53); [exact Hm | lia]).
  rewrite Hd. unfold fexp, SpecFloat.emin, prec, emax.
  apply andb_true_intro. split; [apply Z.eqb_eq | apply Z.leb_le]; lia.
Qed.

Lemma binary_round_aux_shape (m e : Z) (l : location) :
  0 < m → 53 ≤ Zdigits2 m → -1074 ≤ e + (Zdigits2 m - 53) ≤ 970 →
  ∃ m' e',
    binary_round_aux prec emax false m e l = S754_finite false m' e'
    ∧ canonical (Z.pos m') e'
    ∧ let n := Zdigits2 m - 53 in
      let g := e + n in
      let mq := m / 2 ^ n in
      (Z.pos m' = mq ∧ e' = g)
      ∨ ((l ≠ loc_Exact ∨ m mod 2 ^ n ≠ 0)
         ∧ ((Z.pos m' = mq + 1 ∧ e' = g)
            ∨ (Z.pos m' = 2 ^ 52 ∧ e' = g + 1 ∧ mq + 1 = 2 ^ 53))).
Proof.
  intros Hm Hd Hg. cbv zeta.
  set (d := Zdigits2 m) in *. set (n := d - 53) in *.
  set (g := e + n) in *. set (mq := m / 2 ^ n).
  pose proof (Zdigits2_bounds m Hm) as Hb. fold d in Hb.
  assert (Hmq : 2 ^ 52 ≤ mq < 2 ^ 53) by (now apply div_pow2_bounds).
  unfold binary_round_aux. unfold shr_fexp at 1. fold d.
  rewrite (fexp_normal (d + e)) by lia.
  replace (d + e - 53 - e) with n by lia.
  destruct (shr_spec (shr_record_of_loc m l) e n) as (r1 & E1 & Em1 & Hc1);
    [lia | rewrite shr_record_of_loc_m; lia |].
  rewrite shr_record_of_loc_m in Em1, Hc1. fold mq in Em1. fold g in E1.
  rewrite E1.
  assert (Hinex : ¬ clean r1 → l ≠ loc_Exact ∨ m mod 2 ^ n ≠ 0).
  { intros Hn. destruct l as [|c]; [|left; discriminate].
    destruct (Z.eq_dec (m mod 2 ^ n) 0) as [E0|E0]; [|right; exact E0].
    exfalso. apply Hn. apply Hc1; [split; reflexivity | exact E0]. }
  set (m1 := round_nearest_even (shr_m r1) (loc_of_shr_record r1)).
  assert (Hm1 : m1 = mq ∨ ((l ≠ loc_Exact ∨ m mod 2 ^ n ≠ 0) ∧ m1 = mq + 1)).
  { unfold m1. rewrite Em1. destruct r1 as [x [|] [|]]; simpl.
    - right. split; [apply Hinex; intros [H _]; discriminate H | reflexivity].
    - destruct (Z.even mq); [now left|].
      right. split; [apply Hinex; intros [H _]; discriminate H | reflexivity].
    - now left.
    - now left. }
  clearbody m1.
  assert (Hfin : ∀ p : positive, m1 = Z.pos p → m1 < 2 ^ 53 →
            (let '(mrs'', e'') := shr_fexp prec emax m1 g loc_Exact in
             match shr_m mrs'' with
             | 0 => S754_zero false
             | Z.pos m0 => if e'' <=? emax - prec then S754_finite false m0 e''
                           else S754_infinity false
             | Z.neg _ => S754_nan
             end) = S754_finite false p g).
  { intros p Ep Hlt. unfold shr_fexp.
    rewrite (Zdigits2_unique m1 53) by lia.
    rewrite (fexp_normal (53 + g)) by lia.
    replace (53 + g - 53 - g) with 0 by lia. simpl. rewrite Ep.
    replace (g <=? emax - prec) with true; [reflexivity|].
    symmetry. apply Z.leb_le. unfold emax, prec. lia. }
  destruct Hm1 as [E | [Hi E]].
  - assert (Hp : ∃ p, m1 = Z.pos p)
      by (destruct m1 as [|p|p]; try lia; now exists p).
    destruct Hp as [p Ep]. exists p, g.
    split; [apply Hfin; [exact Ep | lia]|].
    split; [split; lia|]. left. split; [lia | reflexivity].
  - destruct (Z.eq_dec (mq + 1) (2 ^ 53)) as [Ecarry | Hno].
    + exists (4503599627370496)%positive, (g + 1).
      split.
      { rewrite E, Ecarry. unfold shr_fexp.
        rewrite (Zdigits2_unique (2 ^ 53) 54) by (simpl; lia).
        rewrite (fexp_normal (54 + g)) by lia.
        replace (54 + g - 53 - g) with 1 by lia. simpl.
        replace (g + 1 <=? emax - prec) with true; [reflexivity|].
        symmetry. apply Z.leb_le. unfold emax, prec. lia. }
      split; [split; simpl; lia|].
      right. split; [exact Hi|]. right.
      split; [reflexivity|]. split; [reflexivity | exact Ecarry].
    + assert (Hp : ∃ p, m1 = Z.pos p)
        by (destruct m1 as [|p|p]; try lia; now exists p).
      destruct Hp as [p Ep]. exists p, g.
      split; [apply Hfin; [exact Ep | lia]|].
      split; [split; lia|]. right. split; [exact Hi|]. left. split; [lia | reflexivity].
Qed.

Lemma round_faithful (N D m e : Z) (l : location) :
  0 < D → 0 < m → 53 ≤ Zdigits2 m → -1074 ≤ e + (Zdigits2 m - 53) ≤ 970 →
  let n := Zdigits2 m - 53 in
  let g := e + n in
  let mq := m / 2 ^ n in
  mq * pw g * D ≤ N * pw 0 < (mq + 1) * pw g * D →
  (l ≠ loc_Exact ∨ m mod 2 ^ n ≠ 0 → mq * pw g * D < N * pw 0) →
  ∃ m' e', binary_round_aux prec emax false m e l = S754_finite false m' e'
           ∧ canonical (Z.pos m') e' ∧ faithful N D (Z.pos m') e'.
Proof.
  intros HD Hm Hd Hg n g mq Hbr Hstrict.
  destruct (binary_round_aux_shape m e l Hm Hd Hg) as (m' & e' & E & Hcan & Hshape).
  exists m', e'. split; [exact E|]. split; [exact Hcan|].
  cbv zeta in Hshape. fold n g mq in Hshape.
  exists mq, g.
  split; [apply div_pow2_bounds; [exact Hd | now apply Zdigits2_bounds]|].
  split; [exact Hg|]. split; [exact Hbr|].
  destruct Hshape as [[Em Ee] | [Hi [[Em Ee] | (Em & Ee & Ec)]]].
  - left. now rewrite Em, Ee.
  - right. split; [auto|]. now rewrite Em, Ee.
  - right. split; [auto|]. rewrite Em, Ee, Ec, pw_add by lia.
    change (2 ^ 1) with 2. lia.
Qed.

(** *** A faithful rounding does not cross a binary64 number *)

Lemma faithful_ge (N D m e r er : Z) :
  faithful N D m e → 0 < D → 0 ≤ r < 2 ^ 53 → -1100 ≤ er ≤ 1000 →
  r * pw er * D ≤ N * pw 0 → r * pw er ≤ m * pw e.
Proof.
  intros (mq & g & Hmq & Hg & [Hlo Hhi] & Hval) HD Hr Her Hle.
  assert (Hpg : 0 < pw g) by (apply pw_pos; lia).
  assert (Hper : 0 < pw er) by (apply pw_pos; lia).
  assert (Hge : mq * pw g ≤ m * pw e) by (destruct Hval as [-> | [_ ->]]; lia).
  enough (r * pw er ≤ mq * pw g) by lia.
  destruct (Z_le_gt_dec g er) as [Hc | Hc].
  - assert (Epw : pw er = 2 ^ (er - g) * pw g)
      by (rewrite <- pw_add by lia; f_equal; lia).
    assert (Hp2 : 0 < 2 ^ (er - g)) by (apply pow2_pos; lia).
    rewrite Epw in *.
    assert (Hlt : r * 2 ^ (er - g) < mq + 1).
    { apply (Z.mul_lt_mono_pos_r (pw g * D)); [nia|].
      replace (r * 2 ^ (er - g) * (pw g * D)) with (r * (2 ^ (er - g) * pw g) * D)
        by ring.
      replace ((mq + 1) * (pw g * D)) with ((mq + 1) * pw g * D) by ring. lia. }
    replace (r * (2 ^ (er - g) * pw g)) with (r * 2 ^ (er - g) * pw g) by ring.
    apply Z.mul_le_mono_nonneg_r; lia.
  - assert (Epw : pw g = 2 ^ (g - er) * pw er)
      by (rewrite <- pw_add by lia; f_equal; lia).
    assert (Hp2 : 2 ≤ 2 ^ (g - er)) by (apply pow2_ge_2; lia).
    rewrite Epw.
    replace (mq * (2 ^ (g - er) * pw er)) with (mq * 2 ^ (g - er) * pw er) by ring.
    apply Z.mul_le_mono_nonneg_r; [lia | nia].
Qed.

Lemma faithful_le (N D m e r er : Z) :
  faithful N D m e → 0 < D → 0 ≤ r < 2 ^ 53 → -1100 ≤ er ≤ 1000 →
  N * pw 0 ≤ r * pw er * D → m * pw e ≤ r * pw er.
Proof.
  intros (mq & g & Hmq & Hg & [Hlo Hhi] & Hval) HD Hr Her Hle.
  assert (Hpg : 0 < pw g) by (apply pw_pos; lia).
  assert (Hper : 0 < pw er) by (apply pw_pos; lia).
  destruct (Z_le_gt_dec g er) as [Hc | Hc].
  - assert (Epw : pw er = 2 ^ (er - g) * pw g)
      by (rewrite <- pw_add by lia; f_equal; lia).
    assert (Hp2 : 0 < 2 ^ (er - g)) by (apply pow2_pos; lia).
    rewrite Epw in *.
    replace (r * (2 ^ (er - g) * pw g)) with (r * 2 ^ (er - g) * pw g) in * by ring.
    assert (HPD : 0 < pw g * D) by nia.
    destruct Hval as [-> | [Hs ->]]; apply Z.mul_le_mono_nonneg_r; try lia.
    + apply (Z.mul_le_mono_pos_r _ _ (pw g * D)); [exact HPD|].
      replace (mq * (pw g * D)) with (mq * pw g * D) by ring.
      replace (r * 2 ^ (er - g) * (pw g * D)) with (r * 2 ^ (er - g) * pw g * D)
        by ring.
      lia.
    + enough (mq < r * 2 ^ (er - g)) by lia.
      apply (Z.mul_lt_mono_pos_r (pw g * D)); [exact HPD|].
      replace (mq * (pw g * D)) with (mq * pw g * D) by ring.
      replace (r * 2 ^ (er - g) * (pw g * D)) with (r * 2 ^ (er - g) * pw g * D)
        by ring.
      lia.
  - exfalso.
    assert (Epw : pw g = 2 ^ (g - er) * pw er)
      by (rewrite <- pw_add by lia; f_equal; lia).
    assert (Hp2 : 2 ≤ 2 ^ (g - er)) by (apply pow2_ge_2; lia).
    assert (Hlt : r * pw er < mq * pw g).
    { rewrite Epw.
      replace (mq * (2 ^ (g - er) * pw er)) with (mq * 2 ^ (g - er) * pw er) by ring.
      apply Z.mul_lt_mono_pos_r; [lia | nia]. }
    assert (H1 : r * pw er * D < mq * pw g * D)
      by (apply Z.mul_lt_mono_pos_r; lia).
    lia.
Qed.

(** A faithful rounding of an integer below [2 ^ 53] is that integer. *)
Lemma faithful_exact (N D m e r : Z) :
  faithful N D m e → 0 < D → 0 ≤ r < 2 ^ 53 → N = r * D → m * pw e = r * pw 0.
Proof.
  intros Hf HD Hr ->.
  apply Z.le_antisymm.
  - apply (faithful_le (r * D) D); [exact Hf | lia | lia | lia |]. lia.
  - apply (faithful_ge (r * D) D); [exact Hf | lia | lia | lia |]. lia.
Qed.

(** *** Normal numbers and their values *)

Lemma canonical_unique (m1 e1 m2 e2 : Z) :
  canonical m1 e1 → canonical m2 e2 → m1 * pw e1 = m2 * pw e2 →
  m1 = m2 ∧ e1 = e2.
Proof.
  assert (H : ∀ m1 e1 m2 e2, canonical m1 e1 → canonical m2 e2 →
                m1 * pw e1 = m2 * pw e2 → e1 ≤ e2 → m1 = m2 ∧ e1 = e2).
  { clear. intros m1 e1 m2 e2 [Hm1 He1] [Hm2 He2] E Hle.
    assert (Hp : 0 < pw e1) by (apply pw_pos; lia).
    assert (Epw : pw e2 = 2 ^ (e2 - e1) * pw e1)
      by (rewrite <- pw_add by lia; f_equal; lia).
    rewrite Epw in E.
    assert (Em : m1 = m2 * 2 ^ (e2 - e1)).
    { apply (Z.mul_cancel_r _ _ (pw e1)); [lia|]. rewrite E. ring. }
    destruct (Z.eq_dec e1 e2) as [-> | Hne].
    - rewrite Z.sub_diag in Em. simpl in Em. lia.
    - exfalso. assert (2 ≤ 2 ^ (e2 - e1)) by (apply pow2_ge_2; lia). nia. }
  intros Hc1 Hc2 E. destruct (Z_le_gt_dec e1 e2) as [Hle | Hgt].
  - now apply H.
  - destruct (H m2 e2 m1 e1 Hc2 Hc1) as [-> ->]; [now symmetry | lia | now split].
Qed.

Lemma canonical_exponent (m e a b : Z) :
  canonical m e → -1100 ≤ a → -1100 ≤ b →
  2 ^ 53 * pw a ≤ m * pw e → m * pw e ≤ 2 ^ 52 * pw b → a < e ≤ b.
Proof.
  intros [Hm He] Ha Hb Hlo Hhi.
  split.
  - destruct (Z_lt_ge_dec a e) as [H|H]; [exact H|exfalso].
    assert (pw e ≤ pw a) by (apply pw_le; lia).
    assert (0 < pw e) by (apply pw_pos; lia).
    assert (m * pw e < 2 ^ 53 * pw e) by (apply Z.mul_lt_mono_pos_r; lia).
    lia.
  - destruct (Z_le_gt_dec e b) as [H|H]; [exact H|exfalso].
    assert (Epw : pw e = 2 ^ (e - b) * pw b)
      by (rewrite <- pw_add by lia; f_equal; lia).
    assert (H2 : 2 ≤ 2 ^ (e - b)) by (apply pow2_ge_2; lia).
    assert (0 < pw b) by (apply pw_pos; lia).
    rewrite Epw in Hhi.
    assert (H3 : 2 ^ 52 * 2 ≤ m * 2 ^ (e - b))
      by (apply Z.mul_le_mono_nonneg; lia).
    assert (H4 : 2 ^ 52 * 2 * pw b ≤ m * 2 ^ (e - b) * pw b)
      by (apply Z.mul_le_mono_nonneg_r; lia).
    replace (m * (2 ^ (e - b) * pw b)) with (m * 2 ^ (e - b) * pw b) in Hhi by ring.
    lia.
Qed.

Lemma Prim2SF_canonical (m : positive) (e : Z) :
  canonical (Z.pos m) e →
  Prim2SF (SF2Prim (S754_finite false m e)) = S754_finite false m e.
Proof. intros H. apply Prim2SF_SF2Prim. now apply canonical_valid. Qed.

Lemma represents_unique (x y : float) (N : Z) :
  represents x N → represents y N → x = y.
Proof.
  intros (m1 & e1 & E1 & Hc1 & V1) (m2 & e2 & E2 & Hc2 & V2).
  apply Prim2SF_inj. rewrite E1, E2.
  destruct (canonical_unique _ _ _ _ Hc1 Hc2) as [Em ->]; [congruence|].
  now injection Em as ->.
Qed.

(** [int] of a positive normal number is the floor of its value. *)
Lemma to_int_floor (x : float) (m : positive) (e k : Z) :
  Prim2SF x = S754_finite false m e → canonical (Z.pos m) e →
  k * pw 0 ≤ Z.pos m * pw e < (k + 1) * pw 0 → to_int x = Some k.
Proof.
  intros E [Hm He] [Hlo Hhi]. unfold to_int. rewrite E. f_equal.
  destruct (Z.leb_spec 0 e) as [H|H].
  - rewrite Z.shiftl_mul_pow2 by lia.
    assert (Epw : pw e = 2 ^ e * pw 0)
      by (rewrite <- pw_add by lia; f_equal; lia).
    assert (Hp : 0 < pw 0) by (apply pw_pos; lia).
    rewrite Epw in Hlo, Hhi. nia.
  - rewrite Z.shiftr_div_pow2 by lia.
    assert (Epw : pw 0 = 2 ^ (- e) * pw e)
      by (rewrite <- pw_add by lia; f_equal; lia).
    assert (Hp : 0 < pw e) by (apply pw_pos; lia).
    assert (Hp2 : 0 < 2 ^ (- e)) by (apply pow2_pos; lia).
    rewrite Epw in Hlo, Hhi.
    apply Z.le_antisymm.
    + enough (Z.pos m / 2 ^ (- e) < k + 1) by lia.
      apply Z.div_lt_upper_bound; [lia | nia].
    + apply Z.div_le_lower_bound; [lia | nia].
Qed.

(** *** The operations the bucket start is computed with *)

Lemma pw_mul (a b c d : Z) :
  -1100 ≤ a → -1100 ≤ b → -1100 ≤ c → -1100 ≤ d → a + b = c + d →
  pw a * pw b = pw c * pw d.
Proof.
  intros Ha Hb Hc Hd E. unfold pw. rewrite <- !Z.pow_add_r by lia. f_equal. lia.
Qed.

Lemma Zdigits2_range (m a b : Z) :
  0 < m → 2 ^ a ≤ m < 2 ^ b → 0 ≤ a → a < Zdigits2 m ≤ b.
Proof.
  intros Hm [Hlo Hhi] Ha. pose proof (Zdigits2_bounds m Hm) as [Hd1 Hd2].
  split.
  - destruct (Z_lt_ge_dec a (Zdigits2 m)) as [H|H]; [exact H|exfalso].
    assert (2 ^ Zdigits2 m ≤ 2 ^ a) by (apply Z.pow_le_mono_r; lia). lia.
  - destruct (Z_le_gt_dec (Zdigits2 m) b) as [H|H]; [exact H|exfalso].
    assert (2 ^ b ≤ 2 ^ (Zdigits2 m - 1)) by (apply Z.pow_le_mono_r; lia). lia.
Qed.

(** A mantissa of 53 bits or more is not shifted left before it is
    rounded. *)
Lemma normalize_wide (p : positive) (e : Z) :
  53 ≤ Zdigits2 (Z.pos p) → -1074 ≤ e + (Zdigits2 (Z.pos p) - 53) →
  binary_normalize prec emax (Z.pos p) e false
  = binary_round_aux prec emax false (Z.pos p) e loc_Exact.
Proof.
  intros Hd Hg. unfold binary_normalize, binary_round. simpl Zdigits2 in *.
  rewrite fexp_normal by lia. unfold shl_align.
  destruct (Z.pos (digits2_pos p) + e - 53 - e) eqn:E; try reflexivity. lia.
Qed.

(** The quotient of the division of [m] by [2 ^ n] brackets [m]. *)
Lemma div_pow2_bracket (m n : Z) :
  0 ≤ n →
  m / 2 ^ n * 2 ^ n ≤ m < (m / 2 ^ n + 1) * 2 ^ n
  ∧ (m mod 2 ^ n ≠ 0 → m / 2 ^ n * 2 ^ n < m).
Proof.
  intros Hn. assert (Hp : 0 < 2 ^ n) by (now apply pow2_pos).
  pose proof (Z.div_mod m (2 ^ n)) as E.
  pose proof (Z.mod_pos_bound m (2 ^ n) Hp) as Hb. lia.
Qed.

(** [a / 10**6] on a positive [int] below [2 ** 53] is a faithful
    rounding of the quotient. *)
Lemma int_truediv_faithful (t : Z) :
  0 < t < 2 ^ 53 →
  ∃ m e, Prim2SF (int_truediv t 1000000) = S754_finite false m e
         ∧ canonical (Z.pos m) e ∧ faithful t 1000000 (Z.pos m) e.
Proof.
  intros Ht. unfold int_truediv.
  destruct (Z.eqb_spec t 0) as [?|_]; [lia|].
  rewrite (Z.abs_eq t) by lia.
  change (Z.log2 1000000) with 19.
  pose proof (Z.log2_spec t (proj1 Ht)) as HL.
  pose proof (Z.log2_nonneg t) as HL0.
  assert (HL1 : Z.log2 t < 53) by (apply Z.log2_lt_pow2; lia).
  set (L := Z.log2 t) in *. cbv zeta.
  set (k := 60 - (L - 19)).
  destruct (Z.leb_spec 0 k) as [_|?]; [|lia].
  destruct (Z.ltb_spec t 0) as [?|_]; [lia|].
  rewrite Z.shiftl_mul_pow2 by lia.
  set (num := t * 2 ^ k).
  assert (Hk : 0 < 2 ^ k) by (apply pow2_pos; lia).
  assert (Hnum : 2 ^ 79 ≤ num < 2 ^ 80).
  { assert (E1 : 2 ^ L * 2 ^ k = 2 ^ 79)
      by (rewrite <- pow2_split by lia; f_equal; lia).
    assert (E2 : 2 ^ Z.succ L * 2 ^ k = 2 ^ 80)
      by (rewrite <- pow2_split by lia; f_equal; lia).
    unfold num. split.
    - rewrite <- E1. apply Z.mul_le_mono_nonneg_r; lia.
    - rewrite <- E2. apply Z.mul_lt_mono_pos_r; lia. }
  pose proof (Z.div_mod num 1000000) as Ediv.
  pose proof (Z.mod_pos_bound num 1000000) as HR.
  set (Q := num / 1000000) in *. set (R := num mod 1000000) in *.
  assert (HQ : 2 ^ 59 ≤ Q < 2 ^ 61) by lia.
  set (m := if R =? 0 then 2 * Q else 2 * Q + 1).
  assert (Hm : 2 ^ 60 ≤ m < 2 ^ 62 ∧ (m = 2 * Q ∧ R = 0 ∨ m = 2 * Q + 1 ∧ 0 < R))
    by (unfold m; destruct (Z.eqb_spec R 0); lia).
  clearbody m. destruct Hm as [Hm Hsticky].
  destruct m as [|p|p]; [lia| |lia].
  pose proof (Zdigits2_range (Z.pos p) 60 62) as Hd.
  set (d := Zdigits2 (Z.pos p)) in *.
  rewrite normalize_wide by (fold d; lia).
  destruct (div_pow2_bracket (Z.pos p) (d - 53)) as [Hbr Hbr']; [lia|].
  assert (E2n : 2 ^ (d - 53) = 2 * 2 ^ (d - 54)).
  { replace (d - 53) with (1 + (d - 54)) by lia. rewrite pow2_split by lia.
    reflexivity. }
  assert (HT1 : 0 < 2 ^ (d - 54)) by (apply pow2_pos; lia).
  assert (HP : 0 < pw (- k)) by (apply pw_pos; lia).
  assert (Eg : pw (- k - 1 + (d - 53)) = 2 ^ (d - 54) * pw (- k)).
  { rewrite <- pw_add by lia. f_equal. lia. }
  assert (E0 : pw 0 = 2 ^ k * pw (- k)).
  { rewrite <- pw_add by lia. f_equal. lia. }
  destruct (round_faithful t 1000000 (Z.pos p) (- k - 1) loc_Exact)
    as (m' & e' & E & Hcan & Hf).
  - lia.
  - lia.
  - fold d. lia.
  - fold d. lia.
  - fold d. rewrite Eg, E0. set (mq := Z.pos p / 2 ^ (d - 53)) in *.
    rewrite E2n in Hbr.
    assert (H1 : mq * 2 ^ (d - 54) ≤ Q) by lia.
    assert (H2 : Q + 1 ≤ (mq + 1) * 2 ^ (d - 54)) by lia.
    split.
    + replace (mq * (2 ^ (d - 54) * pw (- k)) * 1000000)
        with (mq * 2 ^ (d - 54) * 1000000 * pw (- k)) by ring.
      replace (t * (2 ^ k * pw (- k))) with (num * pw (- k)) by (unfold num; ring).
      apply Z.mul_le_mono_nonneg_r; lia.
    + replace ((mq + 1) * (2 ^ (d - 54) * pw (- k)) * 1000000)
        with ((mq + 1) * 2 ^ (d - 54) * 1000000 * pw (- k)) by ring.
      replace (t * (2 ^ k * pw (- k))) with (num * pw (- k)) by (unfold num; ring).
      apply Z.mul_lt_mono_pos_r; lia.
  - fold d. intros [Hl | Hmod]; [now contradiction Hl|].
    specialize (Hbr' Hmod). rewrite Eg, E0.
    set (mq := Z.pos p / 2 ^ (d - 53)) in *. rewrite E2n in Hbr, Hbr'.
    replace (mq * (2 ^ (d - 54) * pw (- k)) * 1000000)
      with (mq * 2 ^ (d - 54) * 1000000 * pw (- k)) by ring.
    replace (t * (2 ^ k * pw (- k))) with (num * pw (- k)) by (unfold num; ring).
    apply Z.mul_lt_mono_pos_r; lia.
  - exists m', e'. rewrite E.
    split; [now apply Prim2SF_canonical|]. now split.
Qed.

Lemma Prim2SF_zero : Prim2SF 0 = S754_zero false.
Proof. reflexivity. Qed.

Lemma new_location_exact (nb_steps : Z) : new_location nb_steps 0 = loc_Exact.
Proof. unfold new_location. now destruct (Z.even nb_steps). Qed.

Lemma canonical_digits (m : positive) (e : Z) :
  canonical (Z.pos m) e → Zdigits2 (Z.pos m) = 53.
Proof. intros [Hm _]. apply Zdigits2_unique; lia. Qed.

(** The quotient of two positive normal numbers is a faithful rounding of
    the quotient of their values. *)
Lemma div_faithful (x y : float) (mx my : positive) (ex ey : Z) :
  Prim2SF x = S754_finite false mx ex → canonical (Z.pos mx) ex →
  Prim2SF y = S754_finite false my ey → canonical (Z.pos my) ey →
  -1000 ≤ ex - ey ≤ 900 →
  ∃ m e, Prim2SF (x / y) = S754_finite false m e ∧ canonical (Z.pos m) e
         ∧ faithful (Z.pos mx * pw ex) (Z.pos my * pw ey) (Z.pos m) e.
Proof.
  intros Ex Cx Ey Cy Hr. rewrite div_spec, Ex, Ey.
  unfold SF64div, SFdiv, SFdiv_core_binary. cbv zeta.
  rewrite (canonical_digits mx ex Cx), (canonical_digits my ey Cy).
  rewrite fexp_normal by lia.
  replace (Z.min (53 + ex - (53 + ey) - 53) (ex - ey)) with (ex - ey - 53) by lia.
  replace (ex - ey - (ex - ey - 53)) with 53 by lia. cbv iota.
  rewrite Z.shiftl_mul_pow2 by lia.
  destruct Cx as [Hmx Hex]. destruct Cy as [Hmy Hey].
  set (a := Z.pos mx * 2 ^ 53).
  pose proof (Z.div_mod a (Z.pos my)) as Ediv.
  pose proof (Z.mod_pos_bound a (Z.pos my)) as HR.
  assert (Eeucl : Z.div_eucl a (Z.pos my) = (a / Z.pos my, a mod Z.pos my))
    by (unfold Z.div, Z.modulo; now destruct (Z.div_eucl a (Z.pos my))).
  rewrite Eeucl.
  set (Q := a / Z.pos my) in *. set (R := a mod Z.pos my) in *.
  assert (Ea : a = Z.pos my * Q + R) by (apply Ediv; lia).
  assert (HR' : 0 ≤ R < Z.pos my) by (apply HR; lia).
  assert (HQ : 2 ^ 52 ≤ Q < 2 ^ 54).
  { split.
    - apply Z.div_le_lower_bound; [lia|]. unfold a. nia.
    - apply Z.div_lt_upper_bound; [lia|]. unfold a. nia. }
  pose proof (Zdigits2_range Q 52 54) as Hd.
  set (d := Zdigits2 Q) in *.
  destruct (div_pow2_bracket Q (d - 53)) as [Hbr Hbr']; [lia|].
  set (e0 := ex - ey - 53).
  assert (Hn : 0 < 2 ^ (d - 53)) by (apply pow2_pos; lia).
  assert (Eg : pw (e0 + (d - 53)) = 2 ^ (d - 53) * pw e0)
    by (apply pw_add; unfold e0; lia).
  assert (EW : pw ex * pw 0 = 2 ^ 53 * (pw e0 * pw ey)).
  { replace (2 ^ 53 * (pw e0 * pw ey)) with (2 ^ 53 * pw e0 * pw ey) by ring.
    rewrite <- pw_add by (unfold e0; lia).
    apply pw_mul; unfold e0; lia. }
  assert (HW : 0 < pw e0 * pw ey).
  { apply Z.mul_pos_pos; apply pw_pos; unfold e0; lia. }
  set (W := pw e0 * pw ey) in *.
  set (mq := Q / 2 ^ (d - 53)) in *.
  assert (Hlo : mq * 2 ^ (d - 53) * Z.pos my ≤ a).
  { assert (mq * 2 ^ (d - 53) * Z.pos my ≤ Q * Z.pos my)
      by (apply Z.mul_le_mono_nonneg_r; lia).
    lia. }
  assert (Hhi : a < (mq + 1) * 2 ^ (d - 53) * Z.pos my).
  { assert ((Q + 1) * Z.pos my ≤ (mq + 1) * 2 ^ (d - 53) * Z.pos my)
      by (apply Z.mul_le_mono_nonneg_r; lia).
    lia. }
  assert (Elhs : ∀ z, z * pw (e0 + (d - 53)) * (Z.pos my * pw ey)
                      = z * 2 ^ (d - 53) * Z.pos my * W)
    by (intros z; rewrite Eg; unfold W; ring).
  assert (Erhs : Z.pos mx * pw ex * pw 0 = a * W).
  { replace (Z.pos mx * pw ex * pw 0) with (Z.pos mx * (pw ex * pw 0)) by ring.
    rewrite EW. unfold a. ring. }
  destruct (round_faithful (Z.pos mx * pw ex) (Z.pos my * pw ey) Q e0
              (new_location (Z.pos my) R))
    as (m' & e' & E & Hcan & Hf).
  - apply Z.mul_pos_pos; [lia | apply pw_pos; lia].
  - lia.
  - fold d. lia.
  - fold d. unfold e0. lia.
  - fold d. fold mq. rewrite !Elhs, Erhs. split.
    + apply Z.mul_le_mono_nonneg_r; lia.
    + apply Z.mul_lt_mono_pos_r; lia.
  - fold d. fold mq. rewrite Elhs, Erhs. intros Hinex.
    apply Z.mul_lt_mono_pos_r; [lia|].
    destruct Hinex as [Hl | Hmod].
    + assert (HRne : R ≠ 0)
        by (intros HR0; apply Hl; rewrite HR0; apply new_location_exact).
      assert (mq * 2 ^ (d - 53) * Z.pos my ≤ Q * Z.pos my)
        by (apply Z.mul_le_mono_nonneg_r; lia).
      lia.
    + specialize (Hbr' Hmod).
      assert (mq * 2 ^ (d - 53) * Z.pos my < Q * Z.pos my)
        by (apply Z.mul_lt_mono_pos_r; lia).
      lia.
  - exists m', e'. simpl xorb. fold e0. rewrite E. now split.
Qed.

(** *** Integers as binary64 numbers *)

Lemma round_exact (m e N : Z) :
  0 < m → 53 ≤ Zdigits2 m → -1074 ≤ e + (Zdigits2 m - 53) ≤ 970 → -1100 ≤ e →
  0 ≤ N < 2 ^ 53 → m * pw e = N * pw 0 →
  ∃ m' e', binary_round_aux prec emax false m e loc_Exact = S754_finite false m' e'
           ∧ canonical (Z.pos m') e' ∧ Z.pos m' * pw e' = N * pw 0.
Proof.
  intros Hm Hd Hg He HN Hval.
  destruct (div_pow2_bracket m (Zdigits2 m - 53)) as [Hbr Hbr']; [lia|].
  assert (HP : 0 < pw e) by (apply pw_pos; lia).
  assert (Eg : ∀ z, z * pw (e + (Zdigits2 m - 53)) * 1
                    = z * 2 ^ (Zdigits2 m - 53) * pw e)
    by (intros z; rewrite pw_add by lia; ring).
  destruct (round_faithful N 1 m e loc_Exact) as (m' & e' & E & Hcan & Hf);
    try lia.
  - rewrite !Eg, <- Hval. split.
    + apply Z.mul_le_mono_nonneg_r; lia.
    + apply Z.mul_lt_mono_pos_r; lia.
  - intros [Hl | Hmod]; [now contradiction Hl|].
    rewrite Eg, <- Hval. apply Z.mul_lt_mono_pos_r; [lia | now apply Hbr'].
  - exists m', e'. split; [exact E|]. split; [exact Hcan|].
    apply (faithful_exact N 1); [exact Hf | lia | lia | lia].
Qed.

Lemma pos_iter_xO (p q : positive) : Z.pos (Pos.iter xO p q) = Z.pos p * 2 ^ Z.pos q.
Proof.
  induction q as [|q IH] using Pos.peano_ind.
  - simpl. lia.
  - rewrite Pos.iter_succ, Pos2Z.inj_xO, IH, Pos2Z.inj_succ, Z.pow_succ_r by lia.
    ring.
Qed.

Lemma of_int_represents (N : Z) : 0 < N < 2 ^ 53 → represents (of_int N) N.
Proof.
  intros HN. unfold of_int. destruct N as [|p|p]; try lia.
  unfold binary_normalize, binary_round.
  pose proof (Zdigits2_bounds (Z.pos p)) as Hb.
  pose proof (Zdigits2_range (Z.pos p) 0 53) as Hd.
  simpl Zdigits2 in Hb, Hd. set (d := Z.pos (digits2_pos p)) in *.
  assert (Hd' : 0 < d ≤ 53) by (apply Hd; simpl; lia).
  replace (fexp prec emax (d + 0)) with (d - 53)
    by (unfold fexp, SpecFloat.emin, prec, emax; lia).
  assert (Halign : ∃ mz, shl_align p 0 (d - 53) = (mz, d - 53)
                         ∧ Z.pos mz = Z.pos p * 2 ^ (53 - d)).
  { unfold shl_align. destruct (d - 53 - 0) as [|q|q] eqn:E; try lia.
    - exists p. replace (d - 53) with 0 by lia.
      replace (53 - d) with 0 by lia. split; [reflexivity | simpl; lia].
    - exists (Pos.iter xO p q). split; [reflexivity|].
      rewrite pos_iter_xO. f_equal. f_equal. lia. }
  destruct Halign as (mz & -> & Emz).
  assert (Hmz : 2 ^ 52 ≤ Z.pos mz < 2 ^ 53).
  { assert (E1 : 2 ^ 52 = 2 ^ (d - 1) * 2 ^ (53 - d))
      by (rewrite <- pow2_split by lia; f_equal; lia).
    assert (E2 : 2 ^ 53 = 2 ^ d * 2 ^ (53 - d))
      by (rewrite <- pow2_split by lia; f_equal; lia).
    assert (0 < 2 ^ (53 - d)) by (apply pow2_pos; lia).
    rewrite Emz, E1, E2. split.
    - apply Z.mul_le_mono_nonneg_r; lia.
    - apply Z.mul_lt_mono_pos_r; lia. }
  assert (Hdz : Zdigits2 (Z.pos mz) = 53) by (apply Zdigits2_unique; lia).
  destruct (round_exact (Z.pos mz) (d - 53) (Z.pos p))
    as (m' & e' & E & Hcan & Hval); try (rewrite ?Hdz; lia).
  - rewrite Emz.
    replace (Z.pos p * 2 ^ (53 - d) * pw (d - 53))
      with (Z.pos p * (2 ^ (53 - d) * pw (d - 53))) by ring.
    rewrite <- pw_add by lia. do 2 f_equal. lia.
  - exists m', e'. rewrite E.
    split; [now apply Prim2SF_canonical|]. now split.
Qed.

(** The exponent of an integer from 1 to [2 ^ 53 - 1]. *)
Lemma represents_exponent (x : float) (N : Z) (m : positive) (e : Z) :
  Prim2SF x = S754_finite false m e → canonical (Z.pos m) e →
  Z.pos m * pw e = N * pw 0 → 0 < N < 2 ^ 53 → -53 < e ≤ 0.
Proof.
  intros _ Hcan Hval HN.
  assert (HP : 0 < pw 0) by (apply pw_pos; lia).
  assert (E1 : pw 0 = 2 ^ 53 * pw (-53))
    by (rewrite <- pw_add by lia; reflexivity).
  assert (E2 : pw 1 = 2 * pw 0)
    by (change (pw 1) with (pw (0 + 1)); rewrite pw_add by lia; reflexivity).
  destruct Hcan as [Hm He].
  split.
  - apply (canonical_exponent (Z.pos m) e (-53) 1); [now split | lia | lia | |].
    + rewrite Hval, <- E1. nia.
    + rewrite Hval, E2. nia.
  - destruct (Z_le_gt_dec e 0) as [H|H]; [exact H|exfalso].
    assert (Epw : pw e = 2 ^ e * pw 0)
      by (rewrite <- pw_add by lia; f_equal; lia).
    assert (2 ≤ 2 ^ e) by (apply pow2_ge_2; lia).
    rewrite Epw in Hval.
    assert (Z.pos m * 2 ^ e = N).
    { apply (Z.mul_cancel_r _ _ (pw 0)); [lia|]. rewrite <- Hval. ring. }
    nia.
Qed.

(** The product of two positive integers, when it is below [2 ^ 53], is
    computed exactly. *)
Lemma mul_represents (x y : float) (a b : Z) :
  represents x a → represents y b → 0 < a → 0 < b → a * b < 2 ^ 53 →
  represents (x * y) (a * b).
Proof.
  intros (mx & ex & Ex & Cx & Vx) (my & ey & Ey & Cy & Vy) Ha Hb Hab.
  assert (Ha' : 0 < a < 2 ^ 53) by nia.
  assert (Hb' : 0 < b < 2 ^ 53) by nia.
  pose proof (represents_exponent x a mx ex Ex Cx Vx Ha') as Hex.
  pose proof (represents_exponent y b my ey Ey Cy Vy Hb') as Hey.
  unfold represents. rewrite mul_spec, Ex, Ey. unfold SF64mul, SFmul. simpl xorb.
  rewrite Pos2Z.inj_mul.
  destruct Cx as [Hmx _]. destruct Cy as [Hmy _].
  assert (Hm : 2 ^ 104 ≤ Z.pos mx * Z.pos my < 2 ^ 106).
  { change (2 ^ 104) with (2 ^ 52 * 2 ^ 52). change (2 ^ 106) with (2 ^ 53 * 2 ^ 53).
    split.
    - apply Z.mul_le_mono_nonneg; lia.
    - apply Z.mul_lt_mono_nonneg; lia. }
  pose proof (Zdigits2_range (Z.pos mx * Z.pos my) 104 106) as Hd.
  destruct (round_exact (Z.pos mx * Z.pos my) (ex + ey) (a * b))
    as (m' & e' & E & Hcan & Hval); try lia.
  - assert (HP : 0 < pw 0) by (apply pw_pos; lia).
    apply (Z.mul_cancel_r _ _ (pw 0)); [lia|].
    replace (Z.pos mx * Z.pos my * pw (ex + ey) * pw 0)
      with (Z.pos mx * Z.pos my * (pw (ex + ey) * pw 0)) by ring.
    rewrite (pw_mul (ex + ey) 0 ex ey) by lia.
    replace (Z.pos mx * Z.pos my * (pw ex * pw ey))
      with (Z.pos mx * pw ex * (Z.pos my * pw ey)) by ring.
    rewrite Vx, Vy. ring.
  - exists m', e'. now split.
Qed.

Lemma to_int_represents (x : float) (N : Z) : represents x N → to_int x = Some N.
Proof.
  intros (m & e & E & Hcan & Hval).
  apply (to_int_floor x m e N E Hcan).
  assert (HP : 0 < pw 0) by (apply pw_pos; lia). rewrite Hval. lia.
Qed.

Lemma sub_self (x : float) (m : positive) (e : Z) :
  Prim2SF x = S754_finite false m e → Prim2SF (x - x) = S754_zero false.
Proof.
  intros E. rewrite sub_spec, E. unfold SF64sub, SFsub. cbv zeta.
  rewrite Z.min_id. unfold shl_align. rewrite Z.sub_diag. simpl.
  reflexivity.
Qed.

Lemma eqb_zero (x : float) : Prim2SF x = S754_zero false → PrimFloat.eqb x 0 = true.
Proof. intros E. now rewrite (FloatAxioms.eqb_spec x 0), E, Prim2SF_zero. Qed.

Lemma eqb_zero_finite (x : float) (m : positive) (e : Z) :
  Prim2SF x = S754_finite false m e → PrimFloat.eqb x 0 = false.
Proof. intros E. now rewrite (FloatAxioms.eqb_spec x 0), E, Prim2SF_zero. Qed.

(** *** Seconds since the epoch divided by the seconds of a candle *)

(** A whole number of seconds as microseconds over [10**6] is that
    number. *)
Lemma int_truediv_whole (c : Z) :
  0 < c < 2 ^ 32 → represents (int_truediv (c * 1000000) 1000000) c.
Proof.
  intros Hc.
  destruct (int_truediv_faithful (c * 1000000)) as (m & e & E & Hcan & Hf); [lia|].
  exists m, e. split; [exact E|]. split; [exact Hcan|].
  apply (faithful_exact (c * 1000000) 1000000); [exact Hf | lia | lia | reflexivity].
Qed.

(** The largest binary64 number below the integer [A], and the one
    before it, lie [2 ^ (d - 53)] apart, [d] being the number of bits of
    [A]. *)
Lemma below_integer (A j : Z) :
  0 < A < 2 ^ 53 → 0 ≤ j ≤ 2 →
  let d := Zdigits2 A in
  let r := A * 2 ^ (53 - d) - j in
  0 ≤ r < 2 ^ 53 ∧ r * pw (d - 53) = A * pw 0 - j * pw (d - 53)
  ∧ pw (d - 53) = 2 ^ d * pw (-53) ∧ 2 ^ (d - 1) ≤ A < 2 ^ d ∧ 0 < d ≤ 53.
Proof.
  intros HA Hj d r.
  pose proof (Zdigits2_bounds A (proj1 HA)) as Hb. fold d in Hb.
  pose proof (Zdigits2_range A 0 53 (proj1 HA)) as Hd. fold d in Hd.
  assert (Hd' : 0 < d ≤ 53) by (apply Hd; simpl; lia).
  assert (E1 : 2 ^ 52 = 2 ^ (d - 1) * 2 ^ (53 - d))
    by (rewrite <- pow2_split by lia; f_equal; lia).
  assert (E2 : 2 ^ 53 = 2 ^ d * 2 ^ (53 - d))
    by (rewrite <- pow2_split by lia; f_equal; lia).
  assert (HT : 0 < 2 ^ (53 - d)) by (apply pow2_pos; lia).
  assert (H1 : 2 ^ 52 ≤ A * 2 ^ (53 - d))
    by (rewrite E1; apply Z.mul_le_mono_nonneg_r; lia).
  assert (H2 : A * 2 ^ (53 - d) < 2 ^ 53)
    by (rewrite E2; apply Z.mul_lt_mono_pos_r; lia).
  assert (E0 : pw 0 = 2 ^ (53 - d) * pw (d - 53))
    by (rewrite <- pw_add by lia; f_equal; lia).
  split; [unfold r; lia|]. split; [unfold r; rewrite E0; ring|].
  split; [|split; [exact Hb | exact Hd']].
  rewrite <- pw_add by lia. f_equal. lia.
Qed.

(** For a time [t] after the epoch and candles of [c] seconds, the
    binary64 quotient of the seconds since the epoch by the seconds of a
    candle, truncated by [int], is the floor of the exact quotient, as
    long as the end of the candle is within [2 ** 32] seconds of the
    epoch. *)
Lemma quotient_floor (t c : Z) :
  0 < t → 0 < c → (t / (c * 1000000) + 1) * c < 2 ^ 32 →
  ∃ q, PyFloat.div (int_truediv t 1000000) (int_truediv (c * 1000000) 1000000)
       = Some q
       ∧ to_int q = Some (t / (c * 1000000)).
Proof.
  intros Ht Hc HA.
  set (delta := c * 1000000) in *. set (k := t / delta) in *.
  assert (Hdelta : 0 < delta) by (unfold delta; lia).
  pose proof (Z.div_mod t delta) as Ediv.
  pose proof (Z.mod_pos_bound t delta Hdelta) as Hmod.
  assert (Hk : 0 ≤ k) by (apply Z.div_pos; lia).
  assert (Hkd : k * delta ≤ t < (k + 1) * delta) by (fold k in Ediv; lia).
  set (A := (k + 1) * c) in *.
  assert (HA1 : 0 < A) by (unfold A; nia).
  assert (Hkc : 0 ≤ k * c < 2 ^ 32) by (unfold A in HA; nia).
  assert (Hc32 : c < 2 ^ 32) by (unfold A in HA; nia).
  assert (HK32 : k + 1 < 2 ^ 32) by (unfold A in HA; nia).
  assert (Ht53 : t < 2 ^ 53).
  { assert (t < A * 1000000) by (unfold A, delta in *; lia). lia. }
  assert (HP0 : 0 < pw 0) by (apply pw_pos; lia).
  (* the two operands *)
  destruct (int_truediv_faithful t) as (ms & es & Es & Cs & Fs); [lia|].
  destruct (int_truediv_whole c) as (mc & ec & Ec & Cc & Vc); [lia|].
  fold delta in Ec.
  pose proof (represents_exponent _ c mc ec Ec Cc Vc) as Hec.
  (* the seconds since the epoch, from below *)
  assert (Hs_lo : k * c * pw 0 ≤ Z.pos ms * pw es).
  { replace (k * c * pw 0) with (k * c * pw 0) by ring.
    apply (faithful_ge t 1000000 _ _ (k * c) 0 Fs); [lia | lia | lia |].
    replace (k * c * pw 0 * 1000000) with (k * delta * pw 0) by (unfold delta; ring).
    apply Z.mul_le_mono_nonneg_r; lia. }
  assert (Hs_min : pw (-20) ≤ Z.pos ms * pw es).
  { replace (pw (-20)) with (1 * pw (-20)) by ring.
    apply (faithful_ge t 1000000 _ _ 1 (-20) Fs); [lia | lia | lia |].
    assert (E : pw 0 = 2 ^ 20 * pw (-20))
      by (rewrite <- pw_add by lia; reflexivity).
    assert (0 < pw (-20)) by (apply pw_pos; lia).
    rewrite E. nia. }
  (* the seconds since the epoch, from above *)
  destruct (below_integer A 2) as (Hr1 & Er1 & Ee1 & HdA & HdA'); [lia | lia |].
  set (dA := Zdigits2 A) in *. set (r1 := A * 2 ^ (53 - dA) - 2) in *.
  assert (HdA32 : dA ≤ 32).
  { destruct (Z_le_gt_dec dA 32) as [H|H]; [exact H|exfalso].
    assert (2 ^ 32 ≤ 2 ^ (dA - 1)) by (apply Z.pow_le_mono_r; lia). lia. }
  assert (Hpe1 : 0 < pw (dA - 53)) by (apply pw_pos; lia).
  assert (Hgap : 2 * 1000000 * pw (dA - 53) ≤ pw 0).
  { assert (E : pw 0 = 2 ^ (53 - dA) * pw (dA - 53))
      by (rewrite <- pw_add by lia; f_equal; lia).
    assert (2 ^ 21 ≤ 2 ^ (53 - dA)) by (apply Z.pow_le_mono_r; lia).
    rewrite E. apply Z.mul_le_mono_nonneg_r; lia. }
  assert (Hs_hi : Z.pos ms * pw es ≤ A * pw 0 - 2 * pw (dA - 53)).
  { rewrite <- Er1.
    apply (faithful_le t 1000000 _ _ r1 (dA - 53) Fs); [lia | lia | lia |].
    rewrite Er1.
    assert (H1 : (t + 1) * pw 0 ≤ A * 1000000 * pw 0)
      by (apply Z.mul_le_mono_nonneg_r; unfold A, delta in *; lia).
    lia. }
  assert (Hes : -73 < es ≤ -20).
  { apply (canonical_exponent (Z.pos ms) es (-73) (-20) Cs); [lia | lia | |].
    - replace (2 ^ 53 * pw (-73)) with (pw (-20)); [exact Hs_min|].
      rewrite <- pw_add by lia. reflexivity.
    - assert (E : 2 ^ 52 * pw (-20) = 2 ^ 32 * pw 0).
      { assert (E' : pw 0 = 2 ^ 20 * pw (-20))
          by (rewrite <- pw_add by lia; reflexivity).
        rewrite E'. ring. }
      rewrite E.
      assert (A * pw 0 ≤ 2 ^ 32 * pw 0) by (apply Z.mul_le_mono_nonneg_r; lia).
      lia. }
  (* the quotient *)
  destruct (div_faithful _ _ ms mc es ec Es Cs Ec Cc) as (mq & eq & Eq & Cq & Fq);
    [lia|].
  rewrite Vc in Fq.
  assert (HD : 0 < c * pw 0) by (apply Z.mul_pos_pos; lia).
  assert (Hq_lo : k * pw 0 ≤ Z.pos mq * pw eq).
  { apply (faithful_ge _ _ _ _ k 0 Fq); [exact HD | lia | lia |].
    replace (k * pw 0 * (c * pw 0)) with (k * c * pw 0 * pw 0) by ring.
    apply Z.mul_le_mono_nonneg_r; lia. }
  destruct (below_integer (k + 1) 1) as (Hr2 & Er2 & Ee2 & HdK & HdK'); [lia | lia |].
  set (dK := Zdigits2 (k + 1)) in *. set (r2 := (k + 1) * 2 ^ (53 - dK) - 1) in *.
  assert (Hpe2 : 0 < pw (dK - 53)) by (apply pw_pos; lia).
  assert (Hulps : c * pw (dK - 53) ≤ 2 * pw (dA - 53)).
  { rewrite Ee1, Ee2.
    assert (HP : 0 < pw (-53)) by (apply pw_pos; lia).
    assert (E : 2 ^ dK = 2 * 2 ^ (dK - 1)).
    { replace dK with (1 + (dK - 1)) at 1 by lia. rewrite pow2_split by lia.
      reflexivity. }
    assert (H1 : c * 2 ^ (dK - 1) ≤ A)
      by (unfold A; rewrite (Z.mul_comm (k + 1) c);
          apply Z.mul_le_mono_nonneg_l; lia).
    replace (c * (2 ^ dK * pw (-53))) with (c * 2 ^ dK * pw (-53)) by ring.
    replace (2 * (2 ^ dA * pw (-53))) with (2 * 2 ^ dA * pw (-53)) by ring.
    apply Z.mul_le_mono_nonneg_r; [lia|]. rewrite E. lia. }
  assert (Hq_hi : Z.pos mq * pw eq ≤ (k + 1) * pw 0 - 1 * pw (dK - 53)).
  { rewrite <- Er2.
    apply (faithful_le _ _ _ _ r2 (dK - 53) Fq); [exact HD | lia | lia |].
    rewrite Er2.
    replace (((k + 1) * pw 0 - 1 * pw (dK - 53)) * (c * pw 0))
      with ((A * pw 0 - c * pw (dK - 53)) * pw 0) by (unfold A; ring).
    apply Z.mul_le_mono_nonneg_r; lia. }
  exists (int_truediv t 1000000 / int_truediv delta 1000000)%float.
  split.
  - unfold PyFloat.div. now rewrite (eqb_zero_finite _ mc ec Ec).
  - apply (to_int_floor _ mq eq k Eq Cq). lia.
Qed.

End Binary64Facts.

Module PyTimeFacts.
Import PyFloat PyTime Binary64 Binary64Facts.

(** [timedelta(seconds=x)] on a float that is a whole number of seconds,
    zero or positive: the fraction is zero and the seconds are kept. *)
Lemma timedelta_float_seconds_whole (x : float) (N : Z) :
  (N = 0 ∧ Prim2SF x = S754_zero false) ∨ (0 < N ∧ represents x N) →
  N < 2 ^ 32 →
  timedelta_float_seconds x = Some (N * us_per_second).
Proof.
  intros Hx HN. unfold timedelta_float_seconds.
  assert (Hint : to_int x = Some N).
  { destruct Hx as [[-> E] | [_ Hr]]; [|now apply to_int_represents].
    unfold to_int. now rewrite E. }
  rewrite Hint. simpl mbind.
  assert (Hfrac : Prim2SF (x - of_int N) = S754_zero false).
  { destruct Hx as [[-> E] | [HN0 Hr]].
    - rewrite sub_spec, E. reflexivity.
    - rewrite <- (represents_unique x (of_int N) N Hr)
        by (apply of_int_represents; lia).
      destruct Hr as (m & e & E & _). now apply (sub_self x m e). }
  rewrite (eqb_zero _ Hfrac). unfold timedelta_of_us.
  assert (H0 : 0 ≤ N) by (destruct Hx as [[-> _] | [H _]]; lia).
  assert (Hdays : 0 ≤ N * us_per_second / us_per_day ≤ 999999999).
  { unfold us_per_day, us_per_second. split.
    - apply Z.div_pos; lia.
    - apply Z.div_le_upper_bound; lia. }
  destruct (Z.leb_spec (-999999999) (N * us_per_second / us_per_day)); [|lia].
  destruct (Z.leb_spec (N * us_per_second / us_per_day) 999999999); [|lia].
  reflexivity.
Qed.

End PyTimeFacts.

Module DatabaseFacts.
Import Database.

(** *** The upsert keeps one row per key *)

Lemma same_key_spec (d : ohlc_data) (r : OHLC) :
  same_key d r = true ↔ row_key r = data_key d.
Proof.
  unfold same_key, row_key, data_key.
  rewrite !andb_true_iff, !String.eqb_eq, Z.eqb_eq.
  split; [intros [[-> ->] ->]; reflexivity | intros [= -> -> ->]; auto].
Qed.

Lemma same_key_false (d : ohlc_data) (r : OHLC) :
  same_key d r = false ↔ row_key r ≠ data_key d.
Proof.
  rewrite <- same_key_spec. destruct (same_key d r); split; congruence.
Qed.

Lemma same_key_ext (d d' : ohlc_data) (r : OHLC) :
  data_key d = data_key d' → same_key d r = same_key d' r.
Proof.
  intros E. destruct (same_key d' r) eqn:H.
  - apply same_key_spec. rewrite E. now apply same_key_spec.
  - apply same_key_false. rewrite E. now apply same_key_false.
Qed.

Lemma filter_key_absent (d : ohlc_data) (tbl : list OHLC) :
  data_key d ∉ map row_key tbl → List.filter (same_key d) tbl = [].
Proof.
  induction tbl as [|r tbl IH]; simpl; intros Hn; [reflexivity|].
  apply not_elem_of_cons in Hn as [Hne Hn].
  destruct (same_key d r) eqn:E.
  - apply same_key_spec in E. congruence.
  - auto.
Qed.

Lemma filter_key_present (d : ohlc_data) (tbl : list OHLC) (r : OHLC) :
  NoDup (map row_key tbl) → r ∈ tbl → row_key r = data_key d →
  List.filter (same_key d) tbl = [r].
Proof.
  induction tbl as [|x tbl IH]; simpl; intros Hnd Hin Hk.
  - now apply elem_of_nil in Hin.
  - apply NoDup_cons in Hnd as [Hx Hnd].
    apply elem_of_cons in Hin as [<- | Hin].
    + rewrite (proj2 (same_key_spec d r) Hk).
      rewrite filter_key_absent; [reflexivity | congruence].
    + destruct (same_key d x) eqn:E.
      * apply same_key_spec in E. exfalso. apply Hx.
        rewrite E, <- Hk. apply list_elem_of_In, in_map, list_elem_of_In, Hin.
      * auto.
Qed.

Lemma key_present_row (k : key) (tbl : list OHLC) :
  k ∈ map row_key tbl → ∃ r, r ∈ tbl ∧ row_key r = k.
Proof.
  intros H. apply list_elem_of_In, in_map_iff in H as (r & E & Hin).
  exists r. split; [now apply list_elem_of_In | exact E].
Qed.

Lemma id_determines_row (tbl : list OHLC) (r r' : OHLC) :
  NoDup (map ohlc_id tbl) → r ∈ tbl → r' ∈ tbl → ohlc_id r = ohlc_id r' → r = r'.
Proof.
  induction tbl as [|x tbl IH]; simpl; intros Hnd H1 H2 E.
  - now apply elem_of_nil in H1.
  - apply NoDup_cons in Hnd as [Hx Hnd].
    assert (Hmem : ∀ y, y ∈ tbl → ohlc_id y ∈ map ohlc_id tbl)
      by (intros y Hy; apply list_elem_of_In, in_map, list_elem_of_In, Hy).
    apply elem_of_cons in H1 as [-> | H1]; apply elem_of_cons in H2 as [-> | H2].
    + reflexivity.
    + exfalso. apply Hx. rewrite E. auto.
    + exfalso. apply Hx. rewrite <- E. auto.
    + auto.
Qed.

Lemma next_id_fresh (tbl : list OHLC) : next_id tbl ∉ map ohlc_id tbl.
Proof.
  unfold next_id.
  assert (H : ∀ i, i ∈ map ohlc_id tbl → i ≤ fold_right Z.max 0 (map ohlc_id tbl)).
  { induction tbl as [|x tbl IH]; simpl; intros i Hi.
    - now apply elem_of_nil in Hi.
    - apply elem_of_cons in Hi as [-> | Hi]; [lia | specialize (IH i Hi); lia]. }
  intros Hin. apply H in Hin. lia.
Qed.

Section UpdateTable.
Variables (d : ohlc_data) (ex : OHLC) (tbl : list OHLC).
Hypothesis Hids : NoDup (map ohlc_id tbl).
Hypothesis Hex : ex ∈ tbl.

Lemma update_table_ids : map ohlc_id (update_table d ex tbl) = map ohlc_id tbl.
Proof.
  unfold update_table. rewrite map_map. apply map_ext.
  intros r. now destruct (ohlc_id r =? ohlc_id ex).
Qed.

Lemma update_table_keys : map row_key (update_table d ex tbl) = map row_key tbl.
Proof.
  unfold update_table. rewrite map_map. apply map_ext.
  intros r. now destruct (ohlc_id r =? ohlc_id ex).
Qed.

Lemma update_table_length : length (update_table d ex tbl) = length tbl.
Proof. unfold update_table. apply length_map. Qed.

Lemma update_table_wf : NoDup (map row_key tbl) → wf_table (update_table d ex tbl).
Proof.
  intros Hk. split; [rewrite update_table_ids | rewrite update_table_keys]; assumption.
Qed.

Lemma update_table_elem : update_existing d ex ∈ update_table d ex tbl.
Proof.
  unfold update_table. apply list_elem_of_In, in_map_iff.
  exists ex. rewrite Z.eqb_refl. split; [reflexivity | now apply list_elem_of_In].
Qed.

(** Every row but [ex] is carried over unchanged. *)
Lemma update_table_pointwise :
  update_table d ex tbl
  = map (fun r => if ohlc_id r =? ohlc_id ex then update_existing d ex else r) tbl.
Proof.
  unfold update_table. apply map_ext_in. intros r Hr.
  destruct (ohlc_id r =? ohlc_id ex) eqn:E; [|reflexivity].
  apply Z.eqb_eq in E. apply list_elem_of_In in Hr.
  now rewrite (id_determines_row tbl r ex Hids Hr Hex E).
Qed.

Lemma update_table_others (d' : ohlc_data) :
  row_key ex = data_key d' →
  List.filter (fun r => negb (same_key d' r)) (update_table d ex tbl)
  = List.filter (fun r => negb (same_key d' r)) tbl.
Proof.
  intros Hk. rewrite update_table_pointwise.
  assert (H : ∀ r, r ∈ tbl → ohlc_id r = ohlc_id ex → r = ex)
    by (intros r Hr; now apply (id_determines_row tbl)).
  clear Hids Hex. induction tbl as [|x l IH]; simpl; [reflexivity|].
  rewrite IH by (intros r Hr; apply H; now right).
  destruct (ohlc_id x =? ohlc_id ex) eqn:E; [|reflexivity].
  apply Z.eqb_eq in E. rewrite (H x) by (auto; now left).
  assert (E1 : same_key d' (update_existing d ex) = true)
    by (apply same_key_spec; exact Hk).
  assert (E2 : same_key d' ex = true) by (apply same_key_spec; exact Hk).
  now rewrite E1, E2.
Qed.

(** Writing the values a row already holds changes nothing. *)
Lemma update_table_same_values :
  row_values ex = data_values d → update_table d ex tbl = tbl.
Proof.
  intros Hv. rewrite update_table_pointwise.
  assert (Hu : update_existing d ex = ex).
  { destruct ex. unfold row_values, data_values in Hv. simpl in Hv.
    injection Hv as -> -> -> -> -> ->. reflexivity. }
  rewrite Hu.
  assert (H : ∀ r, r ∈ tbl → ohlc_id r = ohlc_id ex → r = ex)
    by (intros r Hr; now apply (id_determines_row tbl)).
  clear Hids Hex Hu. induction tbl as [|x l IH]; simpl; [reflexivity|].
  rewrite IH by (intros r Hr; apply H; now right).
  destruct (ohlc_id x =? ohlc_id ex) eqn:E; [|reflexivity].
  apply Z.eqb_eq in E. now rewrite (H x) by (auto; now left).
Qed.
End UpdateTable.

(** An upsert on a key that is stored takes the update branch. *)
Lemma insert_ohlc_existing (utcnow : Z) (tbl : list OHLC) (d : ohlc_data) (r : OHLC) :
  wf_table tbl → r ∈ tbl → row_key r = data_key d →
  insert_ohlc utcnow tbl d = commit d (update_table d r tbl).
Proof.
  intros [Hids Hkeys] Hin Hk. unfold insert_ohlc.
  now rewrite (filter_key_present d tbl r Hkeys Hin Hk).
Qed.

(** On a well-formed table the select finds at most one row, so the only
    exception left is the one of the commit. *)
Lemma insert_ohlc_commits (utcnow : Z) (tbl : list OHLC) (d : ohlc_data) :
  wf_table tbl → ∃ flushed, insert_ohlc utcnow tbl d = commit d flushed.
Proof.
  intros Hwf. pose proof Hwf as [Hids Hkeys].
  destruct (decide (data_key d ∈ map row_key tbl)) as [Hin | Hout].
  - apply key_present_row in Hin as (ex & Hex & Hk).
    exists (update_table d ex tbl). now apply insert_ohlc_existing.
  - exists (tbl ++ [new_row (next_id tbl) utcnow d]).
    unfold insert_ohlc. now rewrite (filter_key_absent d tbl Hout).
Qed.

(** A candle with a NaN among its five values is refused, whatever the
    table holds under its key. *)
Lemma insert_ohlc_not_storable (utcnow : Z) (tbl : list OHLC) (d : ohlc_data) :
  wf_table tbl → storable d = false →
  insert_ohlc utcnow tbl d = inl IntegrityError.
Proof.
  intros Hwf Hs. destruct (insert_ohlc_commits utcnow tbl d Hwf) as [flushed ->].
  unfold commit. now rewrite Hs.
Qed.

(** An upsert of a storable candle on a well-formed table succeeds, keeps
    it well formed and leaves a row with the key and the values written. *)
Lemma insert_ohlc_ok (utcnow : Z) (tbl : list OHLC) (d : ohlc_data) :
  wf_table tbl → storable d = true →
  ∃ tbl' r, insert_ohlc utcnow tbl d = inr tbl' ∧ wf_table tbl' ∧ r ∈ tbl'
            ∧ row_key r = data_key d ∧ row_values r = data_values d.
Proof.
  intros Hwf Hs. pose proof Hwf as [Hids Hkeys].
  destruct (decide (data_key d ∈ map row_key tbl)) as [Hin | Hout].
  - apply key_present_row in Hin as (ex & Hex & Hk).
    exists (update_table d ex tbl), (update_existing d ex).
    rewrite (insert_ohlc_existing utcnow tbl d ex Hwf Hex Hk).
    unfold commit. rewrite Hs.
    split; [reflexivity|]. split; [now apply update_table_wf|].
    split; [now apply update_table_elem|]. split; [exact Hk | reflexivity].
  - exists (tbl ++ [new_row (next_id tbl) utcnow d]), (new_row (next_id tbl) utcnow d).
    unfold insert_ohlc. rewrite (filter_key_absent d tbl Hout). simpl.
    unfold commit. rewrite Hs.
    split; [reflexivity|]. split; [|split; [|split; reflexivity]].
    + split; rewrite map_app; simpl; apply NoDup_app; (split; [assumption|]);
        (split; [|apply NoDup_singleton]); intros x Hx Hx';
        apply list_elem_of_singleton in Hx'; subst x.
      * now apply (next_id_fresh tbl).
      * now apply Hout.
    + apply elem_of_app. right. apply list_elem_of_singleton. reflexivity.
Qed.

(** A run of upserts from a well-formed table ends in a well-formed table
    or in the [IntegrityError] of a candle that is not storable. *)
Lemma upserts_from (writes : list (Z * ohlc_data)) (tbl0 : list OHLC) :
  wf_table tbl0 →
  match upserts writes tbl0 with
  | inr tbl => wf_table tbl ∧ Forall (fun w => storable w.2 = true) writes
  | inl e => e = IntegrityError ∧ Exists (fun w => storable w.2 = false) writes
  end.
Proof.
  revert tbl0. induction writes as [|[t d] rest IH]; intros tbl0 Hwf; simpl.
  - now split.
  - destruct (storable d) eqn:Hs.
    + destruct (insert_ohlc_ok t tbl0 d Hwf Hs) as (tbl1 & r & E & Hwf1 & _).
      rewrite E. specialize (IH tbl1 Hwf1).
      destruct (upserts rest tbl1) as [e|tbl].
      * destruct IH as [-> Hex]. split; [reflexivity|]. now apply Exists_cons_tl.
      * destruct IH as [Hw Hall]. split; [exact Hw|]. now constructor.
    + rewrite (insert_ohlc_not_storable t tbl0 d Hwf Hs).
      split; [reflexivity|]. now apply Exists_cons_hd.
Qed.

(** Every table built from the empty one by upserts satisfies the
    constraints: a run of upserts of storable candles returns such a
    table; a run that raises has met a candle that is not storable, the
    exception is the [IntegrityError] of its commit and never
    [MultipleResultsFound]; and a run that returns has written storable
    candles only. *)
Lemma upserts_wf (writes : list (Z * ohlc_data)) :
  (Forall (fun w => storable w.2 = true) writes →
   ∃ tbl, upserts writes [] = inr tbl ∧ wf_table tbl)
  ∧ (∀ e, upserts writes [] = inl e →
          e = IntegrityError ∧ Exists (fun w => storable w.2 = false) writes)
  ∧ (∀ tbl, upserts writes [] = inr tbl →
            wf_table tbl ∧ Forall (fun w => storable w.2 = true) writes).
Proof.
  assert (Hwf : wf_table []) by (split; constructor).
  pose proof (upserts_from writes [] Hwf) as H.
  split; [|split].
  - intros Hall. destruct (upserts writes []) as [e|tbl].
    + destruct H as [_ Hex]. exfalso.
      apply Exists_exists in Hex as (w & Hw & Hs).
      rewrite Forall_forall in Hall. specialize (Hall w Hw). congruence.
    + exists tbl. split; [reflexivity | apply H].
  - intros e E. now rewrite E in H.
  - intros tbl E. now rewrite E in H.
Qed.

(** Every row of the table after an upsert is a row of the table before
    it or carries the key that was written. *)
Lemma insert_ohlc_rows (utcnow : Z) (tbl tbl' : list OHLC) (d : ohlc_data) :
  NoDup (map ohlc_id tbl) → insert_ohlc utcnow tbl d = inr tbl' →
  ∀ r, r ∈ tbl' → r ∈ tbl ∨ row_key r = data_key d.
Proof.
  intros Hids E r Hr. unfold insert_ohlc, commit in E.
  destruct (List.filter (same_key d) tbl) as [|ex [|? ?]] eqn:F; simpl in E;
    [| |discriminate]; (destruct (storable d); [|discriminate]); injection E as <-.
  - apply elem_of_app in Hr as [Hr | Hr]; [now left|].
    apply list_elem_of_singleton in Hr as ->. now right.
  - assert (Hex : In ex (List.filter (same_key d) tbl)) by (rewrite F; now left).
    apply filter_In in Hex as [Hex Hk]. apply list_elem_of_In in Hex.
    apply same_key_spec in Hk.
    rewrite (update_table_pointwise d ex tbl Hids Hex) in Hr.
    apply list_elem_of_In, in_map_iff in Hr as (x & Ex & Hx).
    destruct (ohlc_id x =? ohlc_id ex).
    + subst r. now right.
    + subst r. left. now apply list_elem_of_In.
Qed.

(** An upsert that returns has written a storable candle. *)
Lemma insert_ohlc_returns_storable (utcnow : Z) (tbl tbl' : list OHLC) (d : ohlc_data) :
  insert_ohlc utcnow tbl d = inr tbl' → storable d = true.
Proof.
  unfold insert_ohlc, commit.
  destruct (scalar_one_or_none _) as [e|[ex|]]; [discriminate| |];
    now destruct (storable d).
Qed.

(** C1.  On a table that satisfies the schema's constraints, two upserts
    with one key (instrument, timeframe, bucket start) of candles whose
    open, high, low, close and volume are numbers both succeed; after the
    second the key selects exactly one row, which holds the values of the
    second write; the second write adds no row, keeps every primary key,
    and leaves the rows of all other keys as they were.  When the two
    writes carry the same values, as they do when the same ticks are
    resampled again, the second write leaves the table unchanged. *)
Theorem insert_ohlc_twice_one_row
    (utcnow1 utcnow2 : Z) (tbl : list OHLC) (d1 d2 : ohlc_data) :
  wf_table tbl → data_key d1 = data_key d2 →
  storable d1 = true → storable d2 = true →
  ∃ tbl1 tbl2 r,
    insert_ohlc utcnow1 tbl d1 = inr tbl1
    ∧ insert_ohlc utcnow2 tbl1 d2 = inr tbl2
    ∧ List.filter (same_key d2) tbl2 = [r]
    ∧ row_values r = data_values d2
    ∧ length tbl2 = length tbl1
    ∧ map ohlc_id tbl2 = map ohlc_id tbl1
    ∧ List.filter (fun x => negb (same_key d2 x)) tbl2
      = List.filter (fun x => negb (same_key d2 x)) tbl1
    ∧ (data_values d1 = data_values d2 → tbl2 = tbl1).
Proof.
  intros Hwf Hk Hs1 Hs2.
  destruct (insert_ohlc_ok utcnow1 tbl d1 Hwf Hs1)
    as (tbl1 & r1 & E1 & Hwf1 & Hin1 & Hk1 & Hv1).
  pose proof Hwf1 as [Hids1 Hkeys1].
  assert (Hk2 : row_key r1 = data_key d2) by congruence.
  exists tbl1, (update_table d2 r1 tbl1), (update_existing d2 r1).
  split; [exact E1|].
  split.
  { rewrite (insert_ohlc_existing utcnow2 tbl1 d2 r1 Hwf1 Hin1 Hk2).
    unfold commit. now rewrite Hs2. }
  split.
  { apply filter_key_present.
    - now rewrite update_table_keys.
    - now apply update_table_elem.
    - exact Hk2. }
  split; [reflexivity|].
  split; [apply update_table_length|].
  split; [apply update_table_ids|].
  split; [now apply update_table_others|].
  intros Hv. apply update_table_same_values; congruence.
Qed.

Lemma insert_ohlc_twice_one_row_witness :
  wf_table [] ∧ data_key candle_first = data_key candle_again
  ∧ storable candle_first = true ∧ storable candle_again = true
  ∧ ∃ tbl1 tbl2 r,
      insert_ohlc 10 [] candle_first = inr tbl1
      ∧ insert_ohlc 20 tbl1 candle_again = inr tbl2
      ∧ List.filter (same_key candle_again) tbl2 = [r]
      ∧ row_values r = data_values candle_again
      ∧ length tbl2 = length tbl1
      ∧ map ohlc_id tbl2 = map ohlc_id tbl1
      ∧ List.filter (fun x => negb (same_key candle_again x)) tbl2
        = List.filter (fun x => negb (same_key candle_again x)) tbl1
      ∧ (data_values candle_first = data_values candle_again → tbl2 = tbl1).
Proof.
  assert (Hwf : wf_table []) by (split; constructor).
  split; [exact Hwf|]. split; [reflexivity|].
  split; [reflexivity|]. split; [reflexivity|].
  apply (insert_ohlc_twice_one_row 10 20 [] candle_first candle_again Hwf);
    reflexivity.
Defined.

(** C1 as stated does not hold of a candle the schema refuses.  The
    candle pandas gives for a minute without a trade, written twice: both
    writes raise at the commit and the key selects no row; there are no
    two tables the writes return in which the key selects one row. *)
Lemma insert_ohlc_nan_twice_no_row :
  wf_table [] ∧ data_key candle_no_trade = data_key candle_no_trade
  ∧ insert_ohlc 10 [] candle_no_trade = inl IntegrityError
  ∧ insert_ohlc 20 [] candle_no_trade = inl IntegrityError
  ∧ List.filter (same_key candle_no_trade) [] = []
  ∧ ¬ ∃ tbl1 tbl2 r,
        insert_ohlc 10 [] candle_no_trade = inr tbl1
        ∧ insert_ohlc 20 tbl1 candle_no_trade = inr tbl2
        ∧ List.filter (same_key candle_no_trade) tbl2 = [r].
Proof.
  split; [split; constructor|]. split; [reflexivity|].
  split; [vm_compute; reflexivity|]. split; [vm_compute; reflexivity|].
  split; [reflexivity|].
  intros (tbl1 & tbl2 & r & E1 & _). vm_compute in E1. discriminate E1.
Qed.

(** The two writes, run: one row, created at the first write and holding
    the values of the second. *)
Example insert_ohlc_twice_run :
  insert_ohlc 10 [] candle_first
  = inr [mkOHLC 1 "btcusdt" "1m" 1793707140000000 100 101 99 100.5 12 3 10]
  ∧ match insert_ohlc 10 [] candle_first with
    | inr tbl => insert_ohlc 20 tbl candle_again
    | inl e => inl e
    end
    = inr [mkOHLC 1 "btcusdt" "1m" 1793707140000000 100 102 98 101 15 4 10].
Proof. split; vm_compute; reflexivity. Qed.

End DatabaseFacts.

Module RedisCacheFacts.
Import RedisCache.

(** *** Reads return the newest ticks, oldest first *)

Lemma range_prefix (l : list tick) (count : Z) :
  1 ≤ count → range l 0 (count - 1) = take (Z.to_nat count) l.
Proof.
  intros Hc. unfold range. cbv zeta.
  rewrite (proj2 (Z.ltb_ge (count - 1) 0)) by lia.
  repeat (change (0 <? 0) with false; cbv iota).
  rewrite (proj2 (Z.ltb_ge (count - 1) 0)) by lia.
  rewrite orb_false_l, drop_0, Z.sub_0_r.
  destruct (Z.leb_spec (Z.of_nat (length l)) 0) as [H0 | H0].
  - destruct l; [now rewrite take_nil | simpl in H0; lia].
  - destruct (Z.leb_spec (Z.of_nat (length l)) (count - 1)) as [H1 | H1].
    + rewrite !take_ge; [reflexivity | lia | lia].
    + f_equal. lia.
Qed.

Lemma push_tick_connected (db : redis) (now : Z) (symbol : string) (t : tick) :
  push_tick (mkCache true (Some db)) now symbol t max_size_default
  = mkCache true
      (Some (<[tick_key symbol :=
                 mkEntry (take 1000 (t :: cached db now (tick_key symbol)))
                         (Some (now + ttl))]> db)).
Proof.
  unfold push_tick. simpl.
  rewrite range_prefix by (unfold max_size_default; lia).
  reflexivity.
Qed.

Lemma cached_insert_live (db : redis) (k : string) (l : list tick) (t now : Z) :
  now < t + ttl → cached (<[k := mkEntry l (Some (t + ttl))]> db) now k = l.
Proof.
  intros H. unfold cached. rewrite lookup_insert_eq. unfold live. simpl.
  now rewrite (proj2 (Z.ltb_lt _ _) H).
Qed.

(** After a run of pushes into a list that held [old], the list holds the
    pushed ticks newest first, in front of [old], cut at the bound. *)
Lemma push_all_cached (symbol : string) (evs : list (Z * tick)) :
  ∀ (db : redis) (now : Z) (old : list tick),
    evs ≠ [] →
    cached db (hd (0, mkTick "" 0 0 0) evs).1 (tick_key symbol) = old →
    within_ttl evs now →
    ∃ db', push_all (mkCache true (Some db)) symbol evs = mkCache true (Some db')
           ∧ cached db' now (tick_key symbol) = take 1000 (reverse evs.*2 ++ old).
Proof.
  induction evs as [|[t0 x0] rest IH]; intros db now old Hne Hold Hw; [congruence|].
  unfold push_all. simpl foldl. rewrite push_tick_connected.
  simpl in Hold. rewrite Hold.
  set (db1 := <[tick_key symbol := mkEntry (take 1000 (x0 :: old)) (Some (t0 + ttl))]> db).
  destruct rest as [|[t1 x1] rest'].
  - simpl in *. eexists. split; [reflexivity|].
    unfold db1. rewrite cached_insert_live by exact Hw. reflexivity.
  - destruct Hw as [H01 Hw].
    destruct (IH db1 now (take 1000 (x0 :: old))) as (db' & E & Hc);
      [congruence | | exact Hw | ].
    { simpl. now apply cached_insert_live. }
    exists db'. split; [exact E|]. rewrite Hc.
    change (((t0, x0) :: (t1, x1) :: rest').*2) with (x0 :: ((t1, x1) :: rest').*2).
    rewrite (reverse_cons _ x0), <- app_assoc.
    set (r := reverse ((t1, x1) :: rest').*2).
    rewrite !take_app. rewrite take_take.
    f_equal. rewrite Nat.min_l by lia.
    change (x0 :: old) with ([x0] ++ old). now rewrite take_app.
Qed.

(** C9, as the code has it.  After ticks are pushed for an instrument in a
    given order into a connected, empty cache, every push and the read
    falling within the time to live of the key, [get_recent_ticks] with a
    count of 1 or more returns the last [count] ticks pushed, or the last
    1000 when the count is larger, the cache keeping no more (all of them
    when fewer were pushed), in the order they were pushed: oldest first,
    the most recent tick last. *)
Theorem get_recent_ticks_oldest_first
    (symbol : string) (evs : list (Z * tick)) (now count : Z) :
  within_ttl evs now → 1 ≤ count →
  get_recent_ticks (push_all connected_empty symbol evs) now symbol count
  = drop (length evs - Z.to_nat (Z.min count max_size_default)) evs.*2.
Proof.
  intros Hw Hc. destruct evs as [|ev rest] eqn:Eevs.
  - unfold push_all, get_recent_ticks, connected_empty, cached. simpl.
    rewrite lookup_empty. rewrite range_prefix by lia. now rewrite take_nil.
  - rewrite <- Eevs in *.
    destruct (push_all_cached symbol evs ∅ now []) as (db' & E & Hcd).
    + congruence.
    + unfold cached. now rewrite lookup_empty.
    + exact Hw.
    + unfold connected_empty. rewrite E. unfold get_recent_ticks. simpl.
      rewrite Hcd, app_nil_r, range_prefix by lia.
      rewrite take_take.
      replace (Z.to_nat count `min` 1000)%nat
        with (Z.to_nat (Z.min count max_size_default))
        by (unfold max_size_default; lia).
      rewrite take_reverse, reverse_involutive, length_fmap. reflexivity.
Qed.

Lemma get_recent_ticks_oldest_first_witness :
  within_ttl two_pushes 1793707172000000
  ∧ 1 ≤ 1
  ∧ get_recent_ticks (push_all connected_empty "btcusdt" two_pushes)
                     1793707172000000 "btcusdt" 1
    = drop (length two_pushes - Z.to_nat (Z.min 1 max_size_default)) two_pushes.*2.
Proof.
  assert (H1 : within_ttl two_pushes 1793707172000000)
    by (simpl; unfold ttl; lia).
  assert (H2 : 1 ≤ 1) by lia.
  split; [exact H1|]. split; [exact H2|].
  exact (get_recent_ticks_oldest_first "btcusdt" two_pushes 1793707172000000 1 H1 H2).
Defined.

(** C9 as stated does not hold: the read returns the older tick first and
    the most recent tick last, not the most recent first. *)
Lemma get_recent_ticks_newest_last :
  get_recent_ticks (push_all connected_empty "btcusdt" two_pushes)
                   1793707172000000 "btcusdt" 2
  = [tick_older; tick_newer]
  ∧ tick_timestamp tick_older < tick_timestamp tick_newer
  ∧ [tick_older; tick_newer] ≠ [tick_newer; tick_older].
Proof.
  split; [vm_compute; reflexivity|]. split; [reflexivity|].
  intros H. vm_compute in H. discriminate H.
Qed.

(** A count of zero or less does not shorten the read as a count does:
    LRANGE then runs to an index counted from the tail. *)
Example get_recent_ticks_count_zero :
  get_recent_ticks (push_all connected_empty "btcusdt" two_pushes)
                   1793707172000000 "btcusdt" 0
  = [tick_older; tick_newer].
Proof. vm_compute. reflexivity. Qed.

(** *** One push, then a read *)

Lemma tick_key_inj (s1 s2 : string) : tick_key s1 = tick_key s2 → s1 = s2.
Proof. unfold tick_key. intros H. cbv in H. now injection H. Qed.

Lemma push_tick_read (db : redis) (now now' : Z) (symbol : string) (t : tick)
    (max_size count : Z) :
  1 ≤ max_size → 1 ≤ count → now' < now + ttl →
  get_recent_ticks (push_tick (mkCache true (Some db)) now symbol t max_size)
                   now' symbol count
  = reverse (take (Z.to_nat (Z.min count max_size))
                  (t :: cached db now (tick_key symbol))).
Proof.
  intros Hm Hc Hlive. unfold push_tick. simpl.
  rewrite range_prefix by exact Hm.
  destruct (take (Z.to_nat max_size) (t :: cached db now (tick_key symbol)))
    as [|x l] eqn:E.
  { replace (Z.to_nat max_size) with (S (Z.to_nat (max_size - 1))) in E by lia.
    discriminate E. }
  rewrite <- E. unfold get_recent_ticks. simpl.
  rewrite cached_insert_live by exact Hlive.
  rewrite range_prefix by exact Hc. rewrite take_take.
  do 2 f_equal. lia.
Qed.

Lemma last_reverse_take_cons (t : tick) (l : list tick) (n : nat) :
  last (reverse (take (S n) (t :: l))) = Some t.
Proof. simpl. rewrite reverse_cons. apply last_snoc. Qed.

(** On a connected cache, whatever it holds, a read of the symbol that
    follows a push within the hour returns the tick pushed as its last
    element, behind the ticks the list held before, oldest first; the
    read is never longer than the count asked for nor than the bound
    given to the push. *)
Theorem pushed_tick_is_read_last
    (db : redis) (now now' : Z) (symbol : string) (t : tick) (max_size count : Z) :
  1 ≤ max_size → 1 ≤ count → now' < now + ttl →
  let read := get_recent_ticks
                (push_tick (mkCache true (Some db)) now symbol t max_size)
                now' symbol count in
  last read = Some t
  ∧ Z.of_nat (length read) ≤ Z.min count max_size
  ∧ ∃ older, read = reverse older ++ [t]
             ∧ older `prefix_of` cached db now (tick_key symbol).
Proof.
  intros Hm Hc Hlive. cbv zeta. rewrite push_tick_read by assumption.
  replace (Z.to_nat (Z.min count max_size))
    with (S (Z.to_nat (Z.min count max_size - 1))) by lia.
  split; [apply last_reverse_take_cons|]. split.
  - rewrite length_reverse, length_take. lia.
  - exists (take (Z.to_nat (Z.min count max_size - 1)) (cached db now (tick_key symbol))).
    split; [simpl; now rewrite reverse_cons|].
    apply prefix_take.
Qed.

Lemma pushed_tick_is_read_last_witness :
  1 ≤ 1000 ∧ 1 ≤ 1 ∧ 1793707171500000 < 1793707171000000 + ttl
  ∧ last (get_recent_ticks
            (push_tick (push_all connected_empty "btcusdt" [(1793707170000000, tick_older)])
                       1793707171000000 "btcusdt" tick_newer 1000)
            1793707171500000 "btcusdt" 1)
    = Some tick_newer.
Proof.
  assert (H1 : 1 ≤ 1000) by lia.
  assert (H2 : 1 ≤ 1) by lia.
  assert (H3 : 1793707171500000 < 1793707171000000 + ttl) by (unfold ttl; lia).
  do 3 (split; [assumption|]).
  exact (proj1 (pushed_tick_is_read_last
    (<[tick_key "btcusdt" := mkEntry [tick_older] (Some (1793707170000000 + ttl))]> ∅)
    1793707171000000 1793707171500000 "btcusdt" tick_newer 1000 1 H1 H2 H3)).
Defined.

(** *** Expiry *)

Lemma cached_expired (db : redis) (now now' : Z) (k : string) (l : list tick) :
  now + ttl ≤ now' →
  cached (<[k := mkEntry l (Some (now + ttl))]> db) now' k = [].
Proof.
  intros H. unfold cached. rewrite lookup_insert_eq. unfold live. simpl.
  now rewrite (proj2 (Z.ltb_ge _ _) H).
Qed.

Lemma cached_delete (db : redis) (now : Z) (k : string) :
  cached (delete k db) now k = [].
Proof. unfold cached. now rewrite lookup_delete_eq. Qed.

Lemma range_nil (start stop : Z) : range [] start stop = [].
Proof.
  unfold range. cbv zeta.
  destruct (_ || _); [reflexivity|]. now rewrite drop_nil, take_nil.
Qed.

Lemma push_tick_shape (db : redis) (now : Z) (symbol : string) (t : tick)
    (max_size : Z) :
  ∃ db', push_tick (mkCache true (Some db)) now symbol t max_size
         = mkCache true (Some db')
         ∧ (∀ now', now + ttl ≤ now' → cached db' now' (tick_key symbol) = [])
         ∧ (∀ k now', k ≠ tick_key symbol → cached db' now' k = cached db now' k).
Proof.
  unfold push_tick. simpl.
  destruct (range (t :: cached db now (tick_key symbol)) 0 (max_size - 1)) as [|x l].
  - eexists. split; [reflexivity|]. split.
    + intros now' _. apply cached_delete.
    + intros k now' Hk. unfold cached. now rewrite lookup_delete_ne.
  - eexists. split; [reflexivity|]. split.
    + intros now' H. now apply cached_expired.
    + intros k now' Hk. unfold cached. now rewrite lookup_insert_ne.
Qed.

(** Every push sets the time to live of the whole list to one hour: a
    read that comes an hour or more after the last push of a symbol
    returns nothing, whatever was pushed before and whatever the count,
    and the push that follows starts the list anew. *)
Theorem ticks_expire_an_hour_after_the_last_push
    (c : cache) (now now' now'' : Z) (symbol : string) (t t' : tick)
    (max_size count : Z) :
  now + ttl ≤ now' →
  get_recent_ticks (push_tick c now symbol t max_size) now' symbol count = []
  ∧ (enabled c = true → client c ≠ None → 1 ≤ count → now'' < now' + ttl →
     get_recent_ticks
       (push_tick (push_tick c now symbol t max_size) now' symbol t' max_size_default)
       now'' symbol count = [t']).
Proof.
  intros Hexp. destruct c as [[] [db|]]; try (split; [reflexivity | simpl; easy]).
  destruct (push_tick_shape db now symbol t max_size) as (db' & E & Hgone & _).
  rewrite E. split.
  - unfold get_recent_ticks. simpl. rewrite Hgone by exact Hexp.
    now rewrite range_nil.
  - intros _ _ Hc Hlive.
    rewrite push_tick_read by (unfold max_size_default; lia || assumption).
    rewrite Hgone by exact Hexp.
    replace (Z.to_nat (Z.min count max_size_default))
      with (S (Z.to_nat (Z.min count max_size_default - 1)))
      by (unfold max_size_default; lia).
    simpl. now rewrite take_nil.
Qed.

Lemma ticks_expire_an_hour_after_the_last_push_witness :
  1793707170000000 + ttl ≤ 1793710770000000
  ∧ get_recent_ticks
      (push_tick connected_empty 1793707170000000 "btcusdt" tick_older 1000)
      1793710770000000 "btcusdt" 10 = []
  ∧ get_recent_ticks
      (push_tick connected_empty 1793707170000000 "btcusdt" tick_older 1000)
      1793710769999999 "btcusdt" 10 = [tick_older].
Proof.
  assert (H : 1793707170000000 + ttl ≤ 1793710770000000) by (unfold ttl; lia).
  split; [exact H|]. split; [|vm_compute; reflexivity].
  exact (proj1 (ticks_expire_an_hour_after_the_last_push connected_empty
                  1793707170000000 1793710770000000 0 "btcusdt" tick_older tick_older
                  1000 10 H)).
Defined.

(** *** Other symbols, and a cache that is off *)

(** A push changes what is read for its own symbol only; and on a cache
    that is disabled or has no connection a push does nothing and every
    read returns nothing. *)
Theorem push_tick_leaves_other_symbols
    (c : cache) (now now' : Z) (symbol other : string) (t : tick)
    (max_size count : Z) :
  other ≠ symbol →
  get_recent_ticks (push_tick c now symbol t max_size) now' other count
  = get_recent_ticks c now' other count
  ∧ (enabled c = false ∨ client c = None →
     push_tick c now symbol t max_size = c
     ∧ get_recent_ticks c now' symbol count = []).
Proof.
  intros Hne. destruct c as [[] [db|]];
    try (split; [reflexivity | intros _; split; reflexivity]).
  destruct (push_tick_shape db now symbol t max_size) as (db' & E & _ & Hother).
  rewrite E. split.
  - unfold get_recent_ticks. simpl. rewrite Hother; [reflexivity|].
    intros Hk. apply Hne. now apply tick_key_inj.
  - intros [H | H]; discriminate H.
Qed.

Lemma push_tick_leaves_other_symbols_witness :
  "ethusdt" ≠ "btcusdt"
  ∧ get_recent_ticks
      (push_tick (push_all connected_empty "ethusdt" two_pushes)
                 1793707171500000 "btcusdt" tick_newer 1000)
      1793707172000000 "ethusdt" 10
    = get_recent_ticks (push_all connected_empty "ethusdt" two_pushes)
                       1793707172000000 "ethusdt" 10.
Proof.
  assert (H : "ethusdt" ≠ "btcusdt") by discriminate.
  split; [exact H|].
  exact (proj1 (push_tick_leaves_other_symbols
                  (push_all connected_empty "ethusdt" two_pushes)
                  1793707171500000 1793707172000000 "btcusdt" "ethusdt" tick_newer
                  1000 10 H)).
Defined.

End RedisCacheFacts.

Module ResamplingFacts.
Import Database PyFloat PyTime Resampling DatabaseFacts.
Import Binary64 Binary64Facts PyTimeFacts.

(** *** The bucket start is the floor *)

(** Every timeframe that parses is a whole number of seconds. *)
Lemma parse_timeframe_seconds (timeframe : string) (delta : Z) :
  _parse_timeframe timeframe = Some delta → ∃ c, delta = c * 1000000.
Proof.
  unfold _parse_timeframe.
  destruct (split_last timeframe) as [[digits unit]|]; simpl; [|discriminate].
  destruct (int_of_str digits) as [value|]; simpl; [|discriminate].
  unfold timedelta_seconds, timedelta_minutes, timedelta_hours, timedelta_of_us,
    us_per_second.
  destruct (Ascii.eqb unit "s");
    [|destruct (Ascii.eqb unit "m"); [|destruct (Ascii.eqb unit "h"); [|discriminate]]];
    (destruct (_ && _); [|discriminate]); intros [= <-].
  - now exists value.
  - exists (value * 60). ring.
  - exists (value * 3600). ring.
Qed.

(** [float(whole) * candle_seconds] is the whole number of seconds
    [whole * c], computed exactly. *)
Lemma floored_seconds_whole (k c : Z) :
  0 ≤ k → 0 < c → (k + 1) * c < 2 ^ 32 →
  let floored := (of_int k * int_truediv (c * 1000000) 1000000)%float in
  (k * c = 0 ∧ Prim2SF floored = S754_zero false)
  ∨ (0 < k * c ∧ represents floored (k * c)).
Proof.
  intros Hk Hc HA floored.
  assert (Hc32 : c < 2 ^ 32) by nia.
  pose proof (int_truediv_whole c (conj Hc Hc32)) as Hcs.
  destruct (Z.eq_dec k 0) as [-> | Hne].
  - left. split; [reflexivity|]. unfold floored.
    destruct Hcs as (m & e & E & _).
    rewrite mul_spec, E. reflexivity.
  - right. split; [nia|]. unfold floored.
    apply mul_represents; [apply of_int_represents; nia | exact Hcs | lia | lia | nia].
Qed.

(** On every time from the epoch on whose candle ends within [2 ** 32]
    seconds of the epoch, and for every timeframe of a positive number of
    seconds, [_get_candle_timestamp] returns the floor of the time to a
    multiple of the timeframe, counted from the epoch: the rounding of
    the two divisions does not reach the next multiple, [int] truncates a
    quotient that is not negative, and the product is exact. *)
Lemma get_candle_timestamp_floor (timestamp : Z) (timeframe : string) (delta : Z) :
  _parse_timeframe timeframe = Some delta → 0 < delta →
  epoch ≤ timestamp → timestamp + delta < 2 ^ 32 * us_per_second →
  _get_candle_timestamp timestamp timeframe
  = Some (bucket_start_floor timestamp delta).
Proof.
  intros Hp Hd Ht Hlim. unfold epoch, us_per_second in *.
  destruct (parse_timeframe_seconds timeframe delta Hp) as [c ->].
  assert (Hc : 0 < c) by lia.
  unfold _get_candle_timestamp. rewrite Hp. simpl mbind.
  unfold epoch, total_seconds, us_per_second. rewrite Z.sub_0_r.
  unfold bucket_start_floor.
  set (delta := c * 1000000) in *. set (k := timestamp / delta).
  pose proof (Z.div_mod timestamp delta) as Ediv.
  pose proof (Z.mod_pos_bound timestamp delta Hd) as Hmod.
  assert (Hk : 0 ≤ k) by (apply Z.div_pos; lia).
  assert (Hkd : k * delta ≤ timestamp < (k + 1) * delta) by (fold k in Ediv; lia).
  assert (HA : (k + 1) * c < 2 ^ 32) by (unfold delta in *; lia).
  assert (Hquot : ∃ q, PyFloat.div (int_truediv timestamp 1000000)
                                   (int_truediv delta 1000000) = Some q
                       ∧ to_int q = Some k).
  { destruct (Z.eq_dec timestamp 0) as [E0 | Hne].
    - assert (Hc32 : c < 2 ^ 32) by nia.
      destruct (int_truediv_whole c (conj Hc Hc32)) as (m & e & E & _).
      fold delta in E.
      exists (0 / int_truediv delta 1000000)%float. split.
      + rewrite E0. unfold PyFloat.div. now rewrite (eqb_zero_finite _ m e E).
      + unfold to_int. rewrite div_spec, E. simpl. f_equal.
        unfold k. rewrite E0. symmetry. apply Z.div_0_l. lia.
    - apply quotient_floor; [lia | lia | exact HA]. }
  destruct Hquot as (q & -> & Hint). simpl mbind. rewrite Hint. simpl mbind.
  pose proof (floored_seconds_whole k c Hk Hc HA) as Hfl. cbv zeta in Hfl.
  fold delta in Hfl.
  rewrite (timedelta_float_seconds_whole _ (k * c) Hfl) by nia. simpl mbind.
  unfold datetime_add, datetime_min, datetime_max, us_per_second.
  assert (Hr : 0 ≤ k * c * 1000000 < 2 ^ 32 * 1000000) by (unfold delta in *; lia).
  destruct (Z.leb_spec (-62135596800 * 1000000) (0 + k * c * 1000000)); [|lia].
  destruct (Z.leb_spec (0 + k * c * 1000000) (253402300800 * 1000000 - 1)); [|lia].
  simpl andb. cbv iota. f_equal. unfold delta. ring.
Qed.

Lemma bucket_start_floor_bracket (t T : Z) :
  0 < T → bucket_start_floor t T ≤ t < bucket_start_floor t T + T.
Proof.
  intros HT. unfold bucket_start_floor.
  pose proof (Z.div_mod t T) as E. pose proof (Z.mod_pos_bound t T HT) as Hm. lia.
Qed.

(** C3.  For every timeframe that parses to a positive duration [T] and
    every time [t] the clock can give, from the epoch on and with its
    candle ending within [2 ** 32] seconds of the epoch (7 February
    2106), [_get_candle_timestamp] returns a bucket start, the bucket
    start is [floor(t / T) * T] counted from the epoch, and it satisfies
    [bucket_start ≤ t < bucket_start + T].  The result depends on [t] and
    the duration alone: two spellings of one duration give the same
    bucket start, and every time of the bucket gives the bucket start
    again. *)
Theorem candle_timestamp_floors_from_epoch
    (timestamp : Z) (timeframe : string) (delta : Z) :
  _parse_timeframe timeframe = Some delta → 0 < delta →
  epoch ≤ timestamp → timestamp + delta < 2 ^ 32 * us_per_second →
  ∃ bucket_start,
    _get_candle_timestamp timestamp timeframe = Some bucket_start
    ∧ bucket_start = timestamp / delta * delta
    ∧ bucket_start ≤ timestamp < bucket_start + delta
    ∧ (∀ t', bucket_start ≤ t' < bucket_start + delta →
             t' + delta < 2 ^ 32 * us_per_second →
             _get_candle_timestamp t' timeframe = Some bucket_start)
    ∧ (∀ timeframe', _parse_timeframe timeframe' = Some delta →
                     _get_candle_timestamp timestamp timeframe' = Some bucket_start).
Proof.
  intros Hp Hd Ht Hlim.
  pose proof (bucket_start_floor_bracket timestamp delta Hd) as Hbr.
  exists (bucket_start_floor timestamp delta).
  split; [now apply get_candle_timestamp_floor|].
  split; [reflexivity|]. split; [exact Hbr|]. split.
  - intros t' Ht' Hlim'.
    assert (Hsame : bucket_start_floor t' delta = bucket_start_floor timestamp delta).
    { unfold bucket_start_floor in *. f_equal. symmetry.
      apply (Z.div_unique_pos t' delta (timestamp / delta)
                              (t' - timestamp / delta * delta)); lia. }
    rewrite <- Hsame. apply get_candle_timestamp_floor; try assumption.
    unfold epoch, bucket_start_floor in *.
    assert (0 ≤ timestamp / delta * delta)
      by (apply Z.mul_nonneg_nonneg; [apply Z.div_pos|]; lia).
    lia.
  - intros timeframe' Hp'. now apply get_candle_timestamp_floor.
Qed.

Lemma candle_timestamp_floors_from_epoch_witness :
  _parse_timeframe "1m" = Some 60000000 ∧ 0 < 60000000
  ∧ epoch ≤ 1793707230000000
  ∧ 1793707230000000 + 60000000 < 2 ^ 32 * us_per_second
  ∧ ∃ bucket_start,
      _get_candle_timestamp 1793707230000000 "1m" = Some bucket_start
      ∧ bucket_start = 1793707230000000 / 60000000 * 60000000
      ∧ bucket_start ≤ 1793707230000000 < bucket_start + 60000000.
Proof.
  assert (H1 : _parse_timeframe "1m" = Some 60000000) by (vm_compute; reflexivity).
  assert (H2 : 0 < 60000000) by lia.
  assert (H3 : epoch ≤ 1793707230000000) by (unfold epoch; lia).
  assert (H4 : 1793707230000000 + 60000000 < 2 ^ 32 * us_per_second)
    by (unfold us_per_second; lia).
  do 4 (split; [assumption|]).
  destruct (candle_timestamp_floors_from_epoch 1793707230000000 "1m" 60000000
              H1 H2 H3 H4) as (b & E & Eb & Hb & _).
  exists b. split; [exact E|]. split; [exact Eb | exact Hb].
Defined.

(** *** Only closed buckets are written *)

Lemma latest_complete_before (frame : list (Z * ohlc_row)) (bound ct : Z)
    (row : ohlc_row) :
  latest_complete frame bound = Some (ct, row) → ct < bound.
Proof.
  unfold latest_complete. intros H.
  apply last_Some in H as [l' E].
  assert (Hin : In (ct, row) (List.filter (fun row => row.1 <? bound) frame))
    by (rewrite E; apply in_or_app; right; now left).
  apply filter_In in Hin as [_ Hlt]. now apply Z.ltb_lt in Hlt.
Qed.

(** The two ways a pass can end: nothing was handed to the storage and the
    table is as it was, or one candle below the bound was handed to
    [insert_ohlc], whose result is the new table unless it raised. *)
Lemma cycle_cases (pd_resample : string → list tick → option resampled)
    (symbol timeframe : string) (i : inputs) (w : world) :
  let res := cycle pd_resample symbol timeframe i w in
  (res.2 = None ∧ table res.1 = table w)
  ∨ (∃ bound d,
       _get_candle_timestamp (now i) timeframe = Some bound
       ∧ res.2 = Some d
       ∧ d_timestamp d < bound ∧ d_symbol d = symbol ∧ d_timeframe d = timeframe
       ∧ (table res.1 = table w
          ∨ insert_ohlc (commit_time i) (table w) d = inr (table res.1))).
Proof.
  unfold cycle.
  destruct (match cache_ticks i with [] => db_ticks i | _ :: _ => cache_ticks i end);
    [left; now split|].
  destruct (pd_resample timeframe _) as [rs|]; [|left; now split].
  destruct (_get_candle_timestamp (now i) timeframe) as [bound|]; [|left; now split].
  destruct (latest_complete (ohlc rs) bound) as [[ct latest]|] eqn:L; [|left; now split].
  apply latest_complete_before in L.
  case_bool_decide; [left; now split|].
  right. exists bound, (make_ohlc_data symbol timeframe rs ct latest).
  destruct (insert_ohlc _ _ _) as [e|tbl] eqn:I; simpl;
    repeat split; auto.
Qed.

(** C2.  In every pass of the resampling loop, for every instrument,
    tick source and behaviour of pandas, every timeframe of a positive
    duration and every reading of the clock from the epoch on (with its
    bucket ending within [2 ** 32] seconds of the epoch), the bucket that
    contains "now" starts at "now" floored to the timeframe, and the pass
    writes strictly before it: the candle handed to the storage has a
    bucket start strictly before the floor of "now"; every row of the
    table after the pass is a row it held before or has such a bucket
    start; so a row whose bucket start is the floor of "now" or later was
    in the table before the pass, whatever ticks the bucket of "now"
    holds. *)
Theorem cycle_writes_only_closed_buckets
    (pd_resample : string → list tick → option resampled)
    (symbol timeframe : string) (i : inputs) (w : world) (delta : Z) :
  wf_table (table w) →
  _parse_timeframe timeframe = Some delta → 0 < delta →
  epoch ≤ now i → now i + delta < 2 ^ 32 * us_per_second →
  let res := cycle pd_resample symbol timeframe i w in
  let open_bucket := now i / delta * delta in
  open_bucket ≤ now i < open_bucket + delta
  ∧ (∀ d, res.2 = Some d → d_timestamp d < open_bucket)
  ∧ (∀ r, r ∈ table res.1 → r ∈ table w ∨ ohlc_timestamp r < open_bucket)
  ∧ (∀ r, r ∈ table res.1 → open_bucket ≤ ohlc_timestamp r → r ∈ table w).
Proof.
  intros [Hids _] Hp Hd Ht Hlim res open_bucket.
  pose proof (get_candle_timestamp_floor (now i) timeframe delta Hp Hd Ht Hlim)
    as Hbound.
  change (bucket_start_floor (now i) delta) with open_bucket in Hbound.
  pose proof (cycle_cases pd_resample symbol timeframe i w) as HC.
  cbv zeta in HC. change (cycle pd_resample symbol timeframe i w) with res in HC.
  assert (Hrows : ∀ r, r ∈ table res.1 →
            r ∈ table w ∨ ohlc_timestamp r < open_bucket).
  { intros r Hr.
    destruct HC as [[_ Et] | (bound & d & Eb & _ & Hlt & _ & _ & [Et | Ei])].
    - left. now rewrite <- Et.
    - left. now rewrite <- Et.
    - destruct (insert_ohlc_rows _ _ _ _ Hids Ei r Hr) as [Hold | Hk]; [now left|].
      right. rewrite Hbound in Eb. injection Eb as <-.
      unfold row_key, data_key in Hk. injection Hk as _ _ ->. exact Hlt. }
  split; [apply (bucket_start_floor_bracket (now i) delta Hd)|].
  split; [|split].
  - intros d Hd'.
    destruct HC as [[En _] | (bound & d' & Eb & Ed & Hlt & _)].
    + congruence.
    + rewrite Hbound in Eb. injection Eb as <-. congruence.
  - exact Hrows.
  - intros r Hr Hge. destruct (Hrows r Hr) as [Hold | Hlt]; [exact Hold | lia].
Qed.

(** *** Resampling the same ticks again *)

(** After a restart the engine has forgotten which bucket it wrote.  A
    pass over the same ticks at the same clock reading hands the same
    candle to the storage, and the table is left as the first pass left
    it: the second write is an overwrite with equal values. *)
Lemma cycle_rerun_after_restart
    (pd_resample : string → list tick → option resampled)
    (symbol timeframe : string) (i i' : inputs) (tbl : list OHLC) :
  wf_table tbl →
  cache_ticks i' = cache_ticks i → db_ticks i' = db_ticks i → now i' = now i →
  let first := cycle pd_resample symbol timeframe i (mkWorld ∅ tbl) in
  let second := cycle pd_resample symbol timeframe i' (mkWorld ∅ (table first.1)) in
  second.2 = first.2 ∧ table second.1 = table first.1.
Proof.
  intros Hwf Ec Ed En. unfold cycle. rewrite Ec, Ed, En. simpl current_candles.
  destruct (match cache_ticks i with [] => db_ticks i | _ :: _ => cache_ticks i end);
    [now split|].
  destruct (pd_resample timeframe _) as [rs|]; [|now split].
  destruct (_get_candle_timestamp (now i) timeframe) as [bound|]; [|now split].
  destruct (latest_complete (ohlc rs) bound) as [[ct latest]|]; [|now split].
  rewrite lookup_empty, lookup_insert_eq. simpl mjoin.
  rewrite bool_decide_false by discriminate.
  set (d := make_ohlc_data symbol timeframe rs ct latest).
  simpl table.
  destruct (storable d) eqn:Hs.
  - destruct (insert_ohlc_ok (commit_time i) tbl d Hwf Hs)
      as (tbl1 & r & E1 & [Hids1 Hkeys1] & Hin & Hk & Hv).
    rewrite E1. simpl.
    rewrite (insert_ohlc_existing (commit_time i') tbl1 d r (conj Hids1 Hkeys1) Hin Hk).
    unfold commit. rewrite Hs.
    rewrite (update_table_same_values d r tbl1 Hids1 Hin Hv). now split.
  - rewrite (insert_ohlc_not_storable (commit_time i) tbl d Hwf Hs). simpl.
    rewrite (insert_ohlc_not_storable (commit_time i') tbl d Hwf Hs). now split.
Qed.

Lemma cycle_rerun_after_restart_witness :
  wf_table []
  ∧ (cycle fixed_width_resample "btcusdt" "1m" pass_at_noon
       (mkWorld ∅ (table (cycle fixed_width_resample "btcusdt" "1m" pass_at_noon
                            (mkWorld ∅ [])).1))).2
    = (cycle fixed_width_resample "btcusdt" "1m" pass_at_noon (mkWorld ∅ [])).2
  ∧ table (cycle fixed_width_resample "btcusdt" "1m" pass_at_noon
             (mkWorld ∅ (table (cycle fixed_width_resample "btcusdt" "1m" pass_at_noon
                                  (mkWorld ∅ [])).1))).1
    = table (cycle fixed_width_resample "btcusdt" "1m" pass_at_noon (mkWorld ∅ [])).1.
Proof.
  assert (Hwf : wf_table []) by (split; constructor).
  split; [exact Hwf|].
  exact (cycle_rerun_after_restart fixed_width_resample "btcusdt" "1m"
           pass_at_noon pass_at_noon [] Hwf eq_refl eq_refl eq_refl).
Defined.

(** *** A bucket is written once *)





(** A minute without a trade between two minutes with one: at 12:00:30
    the latest closed bucket is the empty one of 11:59.  Its candle is
    refused by the storage, nothing is recorded, and the next pass hands
    it over again. *)
Example cycle_empty_minute_run :
  let first := cycle fixed_width_resample "btcusdt" "1m" pass_after_quiet_minute
                     fresh_world in
  let second := cycle fixed_width_resample "btcusdt" "1m" pass_after_quiet_minute
                      first.1 in
  first.2 = Some candle_no_trade
  ∧ storable candle_no_trade = false
  ∧ table first.1 = []
  ∧ current_candles first.1 !! candle_key "btcusdt" "1m" = Some None
  ∧ second = first.
Proof. repeat split; vm_compute; reflexivity. Qed.

(** *** The bucket start of a time before the epoch *)

(** The clock of the engine, [datetime.utcnow()], gives no time before
    the epoch.  Called on its own at a time half a second before the
    epoch with the timeframe ["1s"], the method truncates the quotient
    -0.5 to 0 by [int], so the bucket start is the epoch itself, later
    than the time given, where flooring gives one second before the
    epoch. *)
Example candle_timestamp_truncates_before_epoch :
  _get_candle_timestamp (-500000) "1s" = Some 0
  ∧ ¬ (0 ≤ -500000)
  ∧ _parse_timeframe "1s" = Some 1000000
  ∧ bucket_start_floor (-500000) 1000000 = -1000000.
Proof.
  split; [vm_compute; reflexivity|]. split; [lia|].
  split; vm_compute; reflexivity.
Qed.

(** After the epoch the two agree on the instants tried here: 2026-11-03
    12:00:30 with one minute, five minutes and one hour. *)
Example candle_timestamp_2026_11_03 :
  _get_candle_timestamp 1793707230000000 "1m" = Some 1793707200000000
  ∧ _get_candle_timestamp 1793707230000000 "5m" = Some 1793707200000000
  ∧ _get_candle_timestamp 1793707230000000 "1h" = Some 1793707200000000
  ∧ bucket_start_floor 1793707230000000 60000000 = 1793707200000000.
Proof. repeat split; vm_compute; reflexivity. Qed.

Lemma cycle_writes_only_closed_buckets_witness :
  wf_table (table fresh_world)
  ∧ _parse_timeframe "1m" = Some 60000000 ∧ 0 < 60000000
  ∧ epoch ≤ now pass_at_noon
  ∧ now pass_at_noon + 60000000 < 2 ^ 32 * us_per_second
  ∧ now pass_at_noon / 60000000 * 60000000 = 1793707200000000
  ∧ (∀ d, (cycle fixed_width_resample "btcusdt" "1m" pass_at_noon fresh_world).2
          = Some d →
          d_timestamp d < now pass_at_noon / 60000000 * 60000000)
  ∧ (∀ r, r ∈ table (cycle fixed_width_resample "btcusdt" "1m" pass_at_noon
                       fresh_world).1 →
          now pass_at_noon / 60000000 * 60000000 ≤ ohlc_timestamp r →
          r ∈ table fresh_world).
Proof.
  assert (Hwf : wf_table (table fresh_world)) by (split; constructor).
  assert (H1 : _parse_timeframe "1m" = Some 60000000) by (vm_compute; reflexivity).
  assert (H2 : 0 < 60000000) by lia.
  assert (H3 : epoch ≤ now pass_at_noon) by (vm_compute; discriminate).
  assert (H4 : now pass_at_noon + 60000000 < 2 ^ 32 * us_per_second)
    by (vm_compute; reflexivity).
  do 5 (split; [assumption|]). split; [vm_compute; reflexivity|].
  destruct (cycle_writes_only_closed_buckets fixed_width_resample
              "btcusdt" "1m" pass_at_noon fresh_world 60000000 Hwf H1 H2 H3 H4)
    as (_ & Hd & _ & Hr).
  split; [exact Hd | exact Hr].
Defined.

(** The pass, run: the candle of 11:59 is written, the bucket of 12:00,
    which holds a tick and contains "now", is not. *)
Example cycle_at_noon_run :
  let res := cycle fixed_width_resample "btcusdt" "1m" pass_at_noon fresh_world in
  res.2 = Some (mkData "btcusdt" "1m" 1793707140000000 100 100 100 100 1 (Some 1))
  ∧ map ohlc_timestamp (table res.1) = [1793707140000000]
  ∧ _get_candle_timestamp (now pass_at_noon) "1m" = Some 1793707200000000.
Proof. repeat split; vm_compute; reflexivity. Qed.

End ResamplingFacts.

Module BinanceWsFacts.
Import PyTime BinanceWs.

(** *** Which messages reach the callback *)

Section ClientFacts.
Variable float_of_str : string → option float.
Variable utcoffset : Z → Z.

Abbreviation _normalize_tick := (_normalize_tick float_of_str utcoffset).
Abbreviation handle_message := (handle_message float_of_str utcoffset).
Abbreviation step := (step float_of_str utcoffset).

Lemma is_trade_spec (items : list (string * json)) :
  is_trade items = true ↔ dict_get "e" items = Some (JStr "trade").
Proof.
  unfold is_trade. destruct (dict_get "e" items) as [[]|]; try (split; congruence).
  rewrite String.eqb_eq. split; congruence.
Qed.

Lemma delivered_iff (data : option json) (t : tick) :
  delivered (handle_message data) = Some t
  ↔ ∃ items, data = Some (JDict items)
             ∧ dict_get "e" items = Some (JStr "trade")
             ∧ _normalize_tick items = Some t.
Proof.
  split.
  - destruct data as [[]|]; simpl; try discriminate.
    destruct (is_trade items) eqn:E; simpl; [|discriminate].
    destruct (_normalize_tick items) as [t'|] eqn:N; simpl; [|discriminate].
    intros [= ->]. exists items. apply is_trade_spec in E. auto.
  - intros (items & -> & E & N). simpl.
    apply is_trade_spec in E. now rewrite E, N.
Qed.

(** A trade as the vendor sends it normalises: an integer time ["T"] that
    converts to a [datetime], a symbol, and a price and a quantity that
    [float] parses. *)
Lemma normalize_tick_trade (items : list (string * json)) (millis ts : Z)
    (s p q : string) (price size : float) :
  dict_get "T" items = Some (JInt millis) →
  fromtimestamp utcoffset (PyFloat.int_truediv millis 1000) = Some ts →
  dict_get "s" items = Some (JStr s) →
  dict_get "p" items = Some (JStr p) → float_of_str p = Some price →
  dict_get "q" items = Some (JStr q) → float_of_str q = Some size →
  _normalize_tick items = Some (mkTick (lower s) ts price size)
  ∧ (dict_get "e" items = Some (JStr "trade") →
     handle_message (Some (JDict items))
     = Callback (mkTick (lower s) ts price size)).
Proof.
  intros HT Hts Hs Hp Hprice Hq Hsize.
  assert (N : _normalize_tick items = Some (mkTick (lower s) ts price size)).
  { unfold BinanceWs._normalize_tick. rewrite HT. simpl. rewrite Hts. simpl.
    rewrite Hs. simpl. rewrite Hp. simpl. rewrite Hprice. simpl.
    rewrite Hq. simpl. now rewrite Hsize. }
  split; [exact N|]. intros He. simpl.
  apply is_trade_spec in He. now rewrite He, N.
Qed.

Lemma normalize_tick_fields (items : list (string * json)) (t : tick) :
  _normalize_tick items = Some t →
  ∃ s p q,
    dict_get "s" items = Some (JStr s) ∧ tick_symbol t = lower s
    ∧ dict_get "p" items = Some p ∧ py_float float_of_str p = Some (tick_price t)
    ∧ dict_get "q" items = Some q ∧ py_float float_of_str q = Some (tick_size t).
Proof.
  unfold BinanceWs._normalize_tick. intros H.
  destruct (div_1000 _) as [seconds|]; simpl in H; [|discriminate].
  destruct (fromtimestamp utcoffset seconds) as [ts|]; simpl in H; [|discriminate].
  destruct (dict_get "s" items) as [vs|]; simpl in H; [|discriminate].
  destruct vs; simpl in H; try discriminate.
  destruct (dict_get "p" items) as [vp|]; simpl in H; [|discriminate].
  destruct (py_float float_of_str vp) as [price|] eqn:Ep; simpl in H; [|discriminate].
  destruct (dict_get "q" items) as [vq|]; simpl in H; [|discriminate].
  destruct (py_float float_of_str vq) as [size|] eqn:Eq; simpl in H; [|discriminate].
  injection H as <-. exists s, vp, vq. simpl. auto 10.
Qed.

(** While the client is running, a message leaves the connection loop
    where it was, whatever it holds.  The callback is invoked exactly for
    the messages that parse to an object whose ["e"] is ["trade"] and
    that normalise; the tick it is given has the symbol lower-cased and
    the price and quantity converted by [float], which on strings is the
    string parser.  Every other message, a trade message that does not
    normalise included, is skipped. *)
Lemma callback_iff_trade_normalizes
    (c : client) (symbol : string) (d : Z) (data : option json) :
  running c = true →
  step c symbol (Receiving d) (Message data)
    = (c, Receiving d, delivered (handle_message data))
  ∧ (∀ t, delivered (handle_message data) = Some t
          ↔ ∃ items, data = Some (JDict items)
                     ∧ dict_get "e" items = Some (JStr "trade")
                     ∧ _normalize_tick items = Some t)
  ∧ (∀ items t, data = Some (JDict items) →
        delivered (handle_message data) = Some t →
        ∃ s p q,
          dict_get "s" items = Some (JStr s) ∧ tick_symbol t = lower s
          ∧ dict_get "p" items = Some p
          ∧ py_float float_of_str p = Some (tick_price t)
          ∧ dict_get "q" items = Some q
          ∧ py_float float_of_str q = Some (tick_size t))
  ∧ (∀ s, py_float float_of_str (JStr s) = float_of_str s).
Proof.
  intros Hrun. split; [|split; [|split]].
  - simpl. now rewrite Hrun.
  - intros t. apply delivered_iff.
  - intros items t -> H. apply delivered_iff in H as (items' & [= <-] & _ & N).
    now apply normalize_tick_fields.
  - reflexivity.
Qed.

(** *** Removing a symbol and its connection loop *)

Lemma remove_symbol_running (symbol : string) (c : client) :
  running (remove_symbol symbol c) = running c
  ∧ connections (remove_symbol symbol c) = connections c.
Proof. unfold remove_symbol. now case_bool_decide. Qed.

(** The coroutine reads [self.running] and never [self.symbols]: after
    [remove_symbol] it moves as it would have moved without it. *)
Lemma step_after_remove_symbol (removed symbol : string) (c : client)
    (p : pc) (ev : event) :
  step (remove_symbol removed c) symbol p ev
  = (remove_symbol removed (step c symbol p ev).1.1,
     (step c symbol p ev).1.2, (step c symbol p ev).2).
Proof.
  unfold remove_symbol, BinanceWs.step, cleanup.
  destruct p as [d|d|d|], ev, (running c) eqn:R; simpl; rewrite ?R; simpl;
    case_bool_decide; simpl; rewrite ?R; reflexivity.
Qed.

End ClientFacts.

Example handle_trade_btc :
  handle_message float_of_integer_numeral utc_host (Some trade_btc)
  = Callback (mkTick "btcusdt" 1700000000000000 50000 2).
Proof. vm_compute. reflexivity. Qed.

(** On a host one hour east of UTC the same message is stamped one hour
    later: the timestamp is local time. *)
Example handle_trade_btc_local_time :
  handle_message float_of_integer_numeral utc_plus_one_host (Some trade_btc)
  = Callback (mkTick "btcusdt" 1700003600000000 50000 2).
Proof. vm_compute. reflexivity. Qed.

Lemma callback_iff_trade_normalizes_witness :
  running running_client = true
  ∧ step float_of_integer_numeral utc_host running_client "btcusdt"
         (Receiving 1) (Message (Some trade_btc))
    = (running_client, Receiving 1,
       delivered (handle_message float_of_integer_numeral utc_host (Some trade_btc))).
Proof.
  split; [reflexivity|].
  exact (proj1 (callback_iff_trade_normalizes float_of_integer_numeral utc_host
                  running_client "btcusdt" 1 (Some trade_btc) eq_refl)).
Defined.

(** A malformed trade: a message whose ["e"] is ["trade"] and which
    carries nothing else is logged and not given to the callback; the
    loop goes on. *)
Example trade_without_fields_not_delivered :
  let items := [("e", JStr "trade")] in
  let c := mkClient ["btcusdt"] true {["btcusdt"]} in
  dict_get "e" items = Some (JStr "trade")
  ∧ handle_message float_of_integer_numeral utc_host (Some (JDict items)) = Logged
  ∧ step float_of_integer_numeral utc_host c "btcusdt" (Receiving 1)
         (Message (Some (JDict items)))
    = (c, Receiving 1, None).
Proof. repeat split; vm_compute; reflexivity. Qed.

(** C4 on the code.  The vendor's trade of BTCUSDT at 1700000000000
    milliseconds since the epoch, 2023-11-14 22:13:20 UTC, reaches a
    running client on a host whose local time is one hour ahead of UTC.
    The callback is invoked, the symbol is lower-cased and the price and
    the quantity are parsed, and the loop goes on; but the timestamp of
    the tick is 23:13:20, the local time of the host, and not the UTC
    time of the trade.  On a host whose local time is UTC the same
    message gives the UTC time. *)
Theorem trade_timestamp_is_local_time_not_utc :
  dict_get "e" trade_items = Some (JStr "trade")
  ∧ dict_get "T" trade_items = Some (JInt 1700000000000)
  ∧ utc_of_millis 1700000000000 = 1700000000000000
  ∧ step float_of_integer_numeral utc_plus_one_host running_client "btcusdt"
         (Receiving 1) (Message (Some (JDict trade_items)))
    = (running_client, Receiving 1,
       Some (mkTick "btcusdt" 1700003600000000 50000 2))
  ∧ 1700003600000000 ≠ utc_of_millis 1700000000000
  ∧ step float_of_integer_numeral utc_host running_client "btcusdt"
         (Receiving 1) (Message (Some (JDict trade_items)))
    = (running_client, Receiving 1,
       Some (mkTick "btcusdt" (utc_of_millis 1700000000000) 50000 2)).
Proof.
  split; [reflexivity|]. split; [reflexivity|]. split; [reflexivity|].
  split; [vm_compute; reflexivity|]. split; [discriminate|].
  vm_compute. reflexivity.
Qed.

(** C5 on the code.  A running client tracks ["btcusdt"], whose loop is
    receiving.  After [remove_symbol "btcusdt"] the flag [running] is
    still set, the next trade of BTCUSDT is given to the callback, and the
    loop stays where it was; in general a loop moves after
    [remove_symbol] exactly as without it. *)
Theorem remove_symbol_does_not_stop_loop :
  let c := mkClient ["btcusdt"; "ethusdt"] true {["btcusdt"; "ethusdt"]} in
  let c' := remove_symbol "btcusdt" c in
  symbols c' = ["ethusdt"]
  ∧ running c' = true
  ∧ step float_of_integer_numeral utc_host c' "btcusdt" (Receiving 1)
         (Message (Some trade_btc))
    = (c', Receiving 1, Some (mkTick "btcusdt" 1700000000000000 50000 2))
  ∧ (∀ float_of_str utcoffset removed symbol c p ev,
       (step float_of_str utcoffset (remove_symbol removed c) symbol p ev).1.2
       = (step float_of_str utcoffset c symbol p ev).1.2
       ∧ (step float_of_str utcoffset (remove_symbol removed c) symbol p ev).2
         = (step float_of_str utcoffset c symbol p ev).2).
Proof.
  split; [reflexivity|]. split; [reflexivity|]. split.
  - vm_compute. reflexivity.
  - intros. now rewrite step_after_remove_symbol.
Qed.

(** *** The timestamp of a tick *)

Lemma fromtimestamp_shift (o o' : Z) (x : float) (ts ts' : Z) :
  fromtimestamp (fun _ => o) x = Some ts →
  fromtimestamp (fun _ => o') x = Some ts' →
  ts' - ts = (o' - o) * us_per_second.
Proof.
  unfold fromtimestamp.
  destruct (PyFloat.to_int x) as [intpart|]; simpl; [|discriminate].
  destruct (round_half_even _) as [us|]; simpl; [|discriminate].
  destruct (if 1000000 <=? us then (intpart + 1, us - 1000000)
            else if us <? 0 then (intpart - 1, us + 1000000) else (intpart, us))
    as [sec us'].
  destruct (datetime_add epoch ((sec - 86400 + o) * us_per_second));
    simpl; [|discriminate].
  destruct (datetime_add epoch ((sec - 86400 + o') * us_per_second));
    simpl; [|discriminate].
  unfold datetime_add, epoch.
  destruct (_ && _); [|discriminate]. destruct (_ && _); [|discriminate].
  intros [= <-] [= <-]. lia.
Qed.

(** The timestamp of a tick is the local time of the host.  The same
    trade message normalised on two hosts whose local times are [o] and
    [o'] seconds ahead of UTC gives two ticks that agree in symbol, price
    and size and whose timestamps differ by [o' - o] seconds: the
    exchange's time in milliseconds since the epoch is turned into a
    naive local [datetime]. *)
Theorem tick_timestamp_is_host_local_time
    (float_of_str : string → option float) (o o' : Z)
    (items : list (string * json)) (t t' : tick) :
  _normalize_tick float_of_str (fun _ => o) items = Some t →
  _normalize_tick float_of_str (fun _ => o') items = Some t' →
  tick_timestamp t' - tick_timestamp t = (o' - o) * 1000000
  ∧ tick_symbol t' = tick_symbol t
  ∧ tick_price t' = tick_price t
  ∧ tick_size t' = tick_size t.
Proof.
  unfold _normalize_tick.
  destruct (div_1000 _) as [seconds|]; simpl; [|discriminate].
  destruct (fromtimestamp (fun _ => o) seconds) as [ts|] eqn:E; simpl; [|discriminate].
  destruct (fromtimestamp (fun _ => o') seconds) as [ts'|] eqn:E'; simpl; [|discriminate].
  pose proof (fromtimestamp_shift o o' seconds ts ts' E E') as Hshift.
  destruct (dict_get "s" items ≫= py_lower) as [symbol|]; simpl; [|discriminate].
  destruct (dict_get "p" items ≫= py_float float_of_str) as [price|];
    simpl; [|discriminate].
  destruct (dict_get "q" items ≫= py_float float_of_str) as [size|];
    simpl; [|discriminate].
  intros [= <-] [= <-]. simpl. unfold us_per_second in Hshift. easy.
Qed.

Lemma tick_timestamp_is_host_local_time_witness :
  let items := [("e", JStr "trade"); ("E", JInt 1700000000005);
                ("T", JInt 1700000000000); ("s", JStr "BTCUSDT");
                ("p", JStr "50000"); ("q", JStr "2")] in
  _normalize_tick float_of_integer_numeral (fun _ => 0) items
  = Some (mkTick "btcusdt" 1700000000000000 50000 2)
  ∧ _normalize_tick float_of_integer_numeral (fun _ => 3600) items
    = Some (mkTick "btcusdt" 1700003600000000 50000 2)
  ∧ 1700003600000000 - 1700000000000000 = (3600 - 0) * 1000000.
Proof.
  intros items.
  assert (H1 : _normalize_tick float_of_integer_numeral (fun _ => 0) items
               = Some (mkTick "btcusdt" 1700000000000000 50000 2))
    by (vm_compute; reflexivity).
  assert (H2 : _normalize_tick float_of_integer_numeral (fun _ => 3600) items
               = Some (mkTick "btcusdt" 1700003600000000 50000 2))
    by (vm_compute; reflexivity).
  split; [exact H1|]. split; [exact H2|].
  exact (proj1 (tick_timestamp_is_host_local_time float_of_integer_numeral 0 3600
                  items _ _ H1 H2)).
Defined.

End BinanceWsFacts.

Module AlertEngineFacts.
Import AlertEngine.

(** C8.  With the condition ["=="] the evaluation is the test
    [abs(value - threshold) < 0.0001] in binary64 arithmetic; with the
    threshold 100.0 it holds of 100.00005 and fails of 100.001. *)
Theorem evaluate_condition_eq_epsilon :
  (∀ v h : float,
     _evaluate_condition v "==" h
     = PrimFloat.ltb (PrimFloat.abs (PrimFloat.sub v h)) 0.0001)
  ∧ _evaluate_condition 100.00005 "==" 100 = true
  ∧ _evaluate_condition 100.001 "==" 100 = false.
Proof.
  split; [reflexivity|]. split; vm_compute; reflexivity.
Qed.

(** The other comparisons at the same values, for contrast. *)
Example evaluate_condition_orderings :
  _evaluate_condition 100.00005 ">" 100 = true
  ∧ _evaluate_condition 100.00005 "<=" 100 = false
  ∧ _evaluate_condition 100 ">=" 100 = true
  ∧ _evaluate_condition 100 "!=" 100 = false.
Proof. repeat split; vm_compute; reflexivity. Qed.

End AlertEngineFacts.

Module BasicStatsFacts.
Import Database BasicStats.

(** C6, as the code has it.  With enough candles and a rolling window
    pandas accepts, the result is the record whose historical volatility
    is the standard deviation of the bar-over-bar returns times the square
    root of the periods per year times 100, where the periods per year are
    365 * 24 * 60 when the timeframe string ends in ["m"] and 365 * 24
    otherwise, timeframes in seconds included. *)
Theorem compute_volatility_annualization
    (series_std : list float → float)
    (rolling_std_last : Z → list float → string + float)
    (symbol timeframe : string) (window : Z) (ohlc_data : list OHLC) (std : float) :
  ohlc_data ≠ [] → window ≤ Z.of_nat (length ohlc_data) →
  rolling_std_last window (pct_change (map ohlc_close ohlc_data)) = inr std →
  compute_volatility series_std rolling_std_last symbol timeframe window ohlc_data
  = Volatility symbol timeframe
      (PrimFloat.mul
         (PrimFloat.mul (series_std (pct_change (map ohlc_close ohlc_data)))
                        (PrimFloat.sqrt (PyFloat.of_int (periods_per_year timeframe))))
         100)
      (annualize std (periods_per_year timeframe)) window
  ∧ periods_per_year timeframe
    = (if endswith timeframe "m" then 365 * 24 * 60 else 365 * 24)
  ∧ periods_per_year "1m" = 365 * 24 * 60
  ∧ periods_per_year "5m" = 365 * 24 * 60
  ∧ periods_per_year "1s" = 365 * 24
  ∧ periods_per_year "1h" = 365 * 24.
Proof.
  intros Hne Hlen Hroll. split; [|split; [|repeat split; reflexivity]].
  - unfold compute_volatility. destruct ohlc_data as [|r rest]; [congruence|].
    rewrite (proj2 (Z.ltb_ge _ _) Hlen), Hroll. reflexivity.
  - unfold periods_per_year. now destruct (endswith timeframe "m").
Qed.

Lemma compute_volatility_annualization_witness :
  let returns := pct_change (map ohlc_close three_candles) in
  let std := sample_std (drop (length returns - Z.to_nat 2) returns) in
  three_candles ≠ [] ∧ 2 ≤ Z.of_nat (length three_candles)
  ∧ sample_std_last 2 returns = inr std
  ∧ compute_volatility sample_std sample_std_last "btcusdt" "1s" 2 three_candles
    = Volatility "btcusdt" "1s"
        (PrimFloat.mul
           (PrimFloat.mul (sample_std returns)
                          (PrimFloat.sqrt (PyFloat.of_int (periods_per_year "1s"))))
           100)
        (annualize std (periods_per_year "1s")) 2.
Proof.
  intros returns std.
  assert (H1 : three_candles ≠ []) by discriminate.
  assert (H2 : 2 ≤ Z.of_nat (length three_candles)) by (simpl; lia).
  assert (H3 : sample_std_last 2 returns = inr std) by reflexivity.
  split; [exact H1|]. split; [exact H2|]. split; [exact H3|].
  exact (proj1 (compute_volatility_annualization sample_std sample_std_last
                  "btcusdt" "1s" 2 three_candles std H1 H2 H3)).
Defined.

(** C6 as stated does not hold: ["1s"] is a valid timeframe of one second,
    a sub-hour granularity, and its periods per year are 365 * 24. *)
Lemma periods_per_year_of_seconds :
  Resampling._parse_timeframe "1s" = Some 1000000
  ∧ periods_per_year "1s" = 8760
  ∧ periods_per_year "1s" ≠ 365 * 24 * 60.
Proof. split; [vm_compute; reflexivity|]. split; [reflexivity | discriminate]. Qed.

End BasicStatsFacts.

Module PairsTradingFacts.
Import Database PairsTrading.

(** *** Fewer than ten candles *)

Lemma compute_hedge_ratio_short
    (fit : string → list float → list float → string + (float * float))
    (np_sum np_mean : list float → float)
    (symbol1 symbol2 timeframe method : string) (data1 data2 : list OHLC) :
  (length data1 < 10)%nat ∨ (length data2 < 10)%nat →
  compute_hedge_ratio fit np_sum np_mean symbol1 symbol2 timeframe method data1 data2
  = Error "Insufficient data".
Proof.
  intros H. unfold compute_hedge_ratio.
  destruct data1 as [|r1 l1]; [reflexivity|].
  destruct data2 as [|r2 l2]; [reflexivity|].
  destruct (Z.ltb_spec (Z.of_nat (length (r1 :: l1))) 10) as [H1|H1];
    [reflexivity|].
  destruct (Z.ltb_spec (Z.of_nat (length (r2 :: l2))) 10) as [H2|H2];
    [reflexivity|].
  lia.
Qed.

(** C7, as the code has it.  On the four-point series A = [10,12,14,16]
    and B = [20,22,24,26] the computation returns the insufficient-data
    indication, for either regression method and whatever the regression
    would return; it returns a result record only when each series holds
    at least ten candles and so does their join on the timestamp. *)
Theorem compute_hedge_ratio_needs_ten_points
    (fit : string → list float → list float → string + (float * float))
    (np_sum np_mean : list float → float)
    (symbol1 symbol2 timeframe method : string) (data1 data2 : list OHLC) :
  compute_hedge_ratio fit np_sum np_mean "a" "b" "1m" method series_A series_B
  = Error "Insufficient data"
  ∧ (∀ hedge_ratio intercept r_squared n,
       compute_hedge_ratio fit np_sum np_mean symbol1 symbol2 timeframe method
                           data1 data2
       = HedgeRatio symbol1 symbol2 hedge_ratio intercept r_squared method n timeframe →
       (10 ≤ length data1)%nat ∧ (10 ≤ length data2)%nat
       ∧ (10 ≤ length (merge data1 data2))%nat
       ∧ n = Z.of_nat (length (merge data1 data2))).
Proof.
  split; [reflexivity|].
  intros hr ic r2 n. unfold compute_hedge_ratio.
  destruct data1 as [|x1 l1]; [discriminate|].
  destruct data2 as [|x2 l2]; [discriminate|].
  destruct (Z.ltb_spec (Z.of_nat (length (x1 :: l1))) 10) as [H1|H1];
    [discriminate|].
  destruct (Z.ltb_spec (Z.of_nat (length (x2 :: l2))) 10) as [H2|H2];
    [discriminate|].
  simpl orb. cbv iota.
  destruct (Z.ltb_spec (Z.of_nat (length (merge (x1 :: l1) (x2 :: l2)))) 10)
    as [H3|H3]; [discriminate|].
  destruct (fit method _ _) as [msg|[hr' ic']]; [discriminate|].
  intros [= _ _ _ <-]. repeat split; lia.
Qed.

(** C7 as stated does not hold: on the two series the ordinary
    least-squares computation returns no record. *)
Lemma compute_hedge_ratio_four_points :
  compute_hedge_ratio least_squares sum_left mean_left "a" "b" "1m" "ols"
                      series_A series_B
  = Error "Insufficient data"
  ∧ length series_A = 4%nat ∧ length series_B = 4%nat
  ∧ map ohlc_close series_A = [10; 12; 14; 16]%float
  ∧ map ohlc_close series_B = [20; 22; 24; 26]%float.
Proof. repeat split; reflexivity. Qed.

(** The same line continued to ten points: A rises by 2 whenever B rises
    by 2, so the fitted slope is 1 with intercept -10, and the fit is
    exact. *)
Example compute_hedge_ratio_ten_points :
  let A := map (fun k => candle "a" k (PyFloat.of_int (10 + 2 * k)))
               [0; 1; 2; 3; 4; 5; 6; 7; 8; 9] in
  let B := map (fun k => candle "b" k (PyFloat.of_int (20 + 2 * k)))
               [0; 1; 2; 3; 4; 5; 6; 7; 8; 9] in
  compute_hedge_ratio least_squares sum_left mean_left "a" "b" "1m" "ols" A B
  = HedgeRatio "a" "b" 1 (-10) 1 "ols" 10 "1m".
Proof. vm_compute. reflexivity. Qed.

End PairsTradingFacts.

Module TickPairsTradingFacts.
Import TickPairsTrading.

(** *** The guarded division *)

Lemma zero_is_not_positive (x : float) :
  PrimFloat.eqb x 0 = true → PrimFloat.ltb 0 x = false.
Proof.
  rewrite FloatAxioms.eqb_spec, ltb_spec.
  change (Prim2SF 0) with (S754_zero false).
  destruct (Prim2SF x) as [s|s| |s m e]; try destruct s;
    unfold SFeqb, SFltb, SFcompare; congruence.
Qed.

(** The division is reached only with a divisor that is not zero: it
    never raises. *)
Lemma zscore_never_raises (current_spread spread_mean spread_std : float) :
  ∃ z, zscore current_spread spread_mean spread_std = Some z.
Proof.
  unfold zscore, PyFloat.div.
  destruct (PrimFloat.ltb 0 spread_std) eqn:L; [|eauto].
  destruct (PrimFloat.eqb spread_std 0) eqn:E; [|eauto].
  apply zero_is_not_positive in E. congruence.
Qed.

Lemma zscore_of_zero_std (current_spread spread_mean spread_std : float) :
  PrimFloat.eqb spread_std 0 = true →
  zscore current_spread spread_mean spread_std = Some 0%float.
Proof.
  intros E. unfold zscore. now rewrite (zero_is_not_positive _ E).
Qed.

Lemma last_map {A B : Type} (f : A → B) (l : list A) :
  last (map f l) = f <$> last l.
Proof.
  induction l as [|x [|y l] IH]; [reflexivity | reflexivity |].
  change (map f (x :: y :: l)) with (f x :: f y :: map f l).
  rewrite !last_cons_cons. exact IH.
Qed.

(** C10.  For tick series the computation accepts (neither is empty, each
    holds at least [window] ticks, so does their alignment, and the
    regression and the rolling statistics return), a rolling standard
    deviation equal to zero at the latest point gives the result record
    with [current_zscore = 0.0]; and the z-score step raises for no
    values at all, the division being behind the test
    [spread_std > 0]. *)
Theorem zero_std_gives_zero_zscore
    (merge_asof : list tick → list tick → list (Z * float * float))
    (fit : list float → list float → string + (float * float))
    (rolling_mean_last rolling_std_last : Z → list float → string + float)
    (symbol1 symbol2 : string) (window : Z) (ticks1 ticks2 : list tick)
    (beta alpha mean std : float) :
  let merged := merge_asof ticks1 ticks2 in
  let spread_series :=
    map (fun row => PrimFloat.sub row.1.2 (PrimFloat.mul beta row.2)) merged in
  ticks1 ≠ [] → ticks2 ≠ [] →
  window ≤ Z.of_nat (length ticks1) → window ≤ Z.of_nat (length ticks2) →
  merged ≠ [] → window ≤ Z.of_nat (length merged) →
  fit (map (fun row => row.2) merged) (map (fun row => row.1.2) merged)
    = inr (beta, alpha) →
  rolling_mean_last window spread_series = inr mean →
  rolling_std_last window spread_series = inr std →
  PrimFloat.eqb std 0 = true →
  (∃ s, compute_spread_from_ticks merge_asof fit rolling_mean_last rolling_std_last
          symbol1 symbol2 window ticks1 ticks2 = Spread s
        ∧ current_zscore s = 0%float
        ∧ spread_std s = std ∧ spread_mean s = mean ∧ hedge_ratio s = beta)
  ∧ (∀ current_spread spread_mean spread_std,
       zscore current_spread spread_mean spread_std ≠ None).
Proof.
  intros merged spread_series H1 H2 Hw1 Hw2 Hm Hwm Hfit Hmean Hstd Hzero.
  split.
  - unfold compute_spread_from_ticks.
    destruct ticks1 as [|t1 l1]; [congruence|].
    destruct ticks2 as [|t2 l2]; [congruence|].
    rewrite (proj2 (Z.ltb_ge _ _) Hw1), (proj2 (Z.ltb_ge _ _) Hw2).
    simpl orb. cbv iota.
    fold merged. rewrite (proj2 (Z.ltb_ge _ _) Hwm), Hfit.
    fold spread_series. rewrite Hmean, Hstd.
    unfold spread_series. rewrite last_map.
    destruct (last merged) as [[[ts p1] p2]|] eqn:L.
    + simpl. rewrite (zscore_of_zero_std _ _ _ Hzero).
      eexists. split; [reflexivity|]. simpl. auto.
    + apply last_None in L. congruence.
  - intros cs m sd. destruct (zscore_never_raises cs m sd) as [z ->]. discriminate.
Qed.

Lemma zero_std_gives_zero_zscore_witness :
  ∃ s, compute_spread_from_ticks zip_ticks (PairsTrading.least_squares "ols")
         mean_of_window std_of_window "a" "b" 3 ticks_double ticks_single
       = Spread s
       ∧ current_zscore s = 0%float
       ∧ spread_std s = 0%float ∧ spread_mean s = 0%float ∧ hedge_ratio s = 2%float.
Proof.
  refine (proj1 (zero_std_gives_zero_zscore zip_ticks (PairsTrading.least_squares "ols")
                   mean_of_window std_of_window "a" "b" 3 ticks_double ticks_single
                   2 0 0 0 _ _ _ _ _ _ _ _ _ _));
    try discriminate; try (simpl; lia); vm_compute; reflexivity.
Defined.

End TickPairsTradingFacts.

Module StorageFacts.
Import Database Storage.

(** *** Reads in time order *)

Lemma StronglySorted_reverse {A : Type} (R : relation A) (l : list A) :
  StronglySorted R l → StronglySorted (flip R) (reverse l).
Proof.
  induction 1 as [|x l Hl IH Hx]; [constructor|].
  rewrite reverse_cons. apply StronglySorted_app.
  split; [|split; [exact IH | repeat constructor]].
  intros y z Hy Hz. apply list_elem_of_singleton in Hz as ->.
  rewrite elem_of_reverse in Hy. unfold flip.
  rewrite Forall_forall in Hx. now apply Hx.
Qed.

Lemma sql_limit_split {A : Type} (limit : Z) (rows : list A) :
  ∃ rest, rows = sql_limit limit rows ++ rest
          ∧ (limit < 0 ∨ Z.of_nat (length rows) ≤ limit → rest = []).
Proof.
  unfold sql_limit. destruct (Z.ltb_spec limit 0) as [Hn|Hp].
  - exists []. split; [now rewrite app_nil_r | auto].
  - exists (drop (Z.to_nat limit) rows). split; [now rewrite take_drop|].
    intros [H|H]; [lia|]. apply drop_ge. lia.
Qed.

Lemma sql_limit_length {A : Type} (limit : Z) (rows : list A) :
  0 ≤ limit → Z.of_nat (length (sql_limit limit rows)) ≤ limit.
Proof.
  intros H. unfold sql_limit. rewrite (proj2 (Z.ltb_ge _ _) H), length_take. lia.
Qed.

Section Newest.
Context {A : Type} (timestamp : A → Z) (order : list A → list A).
Hypothesis Horder : orders_desc timestamp order.

(** The rows a query returns, [reversed(query.order_by(ts.desc())
    .limit(limit))], are in time order, come from the rows selected, and
    are the latest of them: what is left out is no later than anything
    returned. *)
Lemma newest_rows (limit : Z) (rows : list A) :
  let result := reverse (sql_limit limit (order rows)) in
  StronglySorted (fun a b => timestamp a ≤ timestamp b) result
  ∧ (∀ x, x ∈ result → x ∈ rows)
  ∧ (0 ≤ limit → Z.of_nat (length result) ≤ limit)
  ∧ ∃ omitted,
      rows ≡ₚ result ++ omitted
      ∧ (∀ x y, x ∈ omitted → y ∈ result → timestamp x ≤ timestamp y)
      ∧ (limit < 0 ∨ Z.of_nat (length rows) ≤ limit → omitted = []).
Proof.
  intros result. destruct (Horder rows) as [Hperm Hsorted].
  destruct (sql_limit_split limit (order rows)) as (rest & Esplit & Hrest).
  assert (Hsorted' : StronglySorted (fun a b => timestamp b ≤ timestamp a)
                       (sql_limit limit (order rows) ++ rest))
    by now rewrite <- Esplit.
  split; [|split; [|split]].
  - apply (StronglySorted_reverse (fun a b => timestamp b ≤ timestamp a)).
    now apply StronglySorted_app_1_l in Hsorted'.
  - intros x Hx. unfold result in Hx. rewrite elem_of_reverse in Hx.
    rewrite <- Hperm, Esplit. apply elem_of_app. now left.
  - intros H. unfold result. rewrite length_reverse. now apply sql_limit_length.
  - exists rest. split; [|split].
    + unfold result. rewrite reverse_Permutation, <- Esplit. now symmetry.
    + intros x y Hx Hy. unfold result in Hy. rewrite elem_of_reverse in Hy.
      exact (StronglySorted_app_1_elem_of _ _ _ _ _ Hsorted' Hy Hx).
    + intros H. apply Hrest. rewrite (Permutation_length Hperm). exact H.
Qed.

End Newest.

Lemma sort_ticks_desc_orders : orders_desc tr_timestamp sort_ticks_desc.
Proof.
  intros rows. unfold sort_ticks_desc. split; [apply merge_sort_Permutation|].
  apply StronglySorted_merge_sort.
  - intros a b c Hab Hbc. unfold later_tick in *. lia.
  - intros a b. unfold later_tick. lia.
Qed.

Lemma sort_ohlc_desc_orders : orders_desc ohlc_timestamp sort_ohlc_desc.
Proof.
  intros rows. unfold sort_ohlc_desc. split; [apply merge_sort_Permutation|].
  apply StronglySorted_merge_sort.
  - intros a b c Hab Hbc. unfold later_candle in *. lia.
  - intros a b. unfold later_candle. lia.
Qed.

Lemma get_ticks_unbounded
    (order : list TickRow → list TickRow)
    (symbol : string) (start_time end_time : option Z) (limit : Z)
    (tbl : list TickRow) :
  orders_desc tr_timestamp order →
  limit < 0
  ∨ Z.of_nat (length (List.filter (tick_matches symbol start_time end_time) tbl)) ≤ limit →
  get_ticks order symbol start_time end_time limit tbl
  ≡ₚ map tick_of_row (List.filter (tick_matches symbol start_time end_time) tbl).
Proof.
  intros Horder Hlimit.
  destruct (newest_rows tr_timestamp order Horder limit
              (List.filter (tick_matches symbol start_time end_time) tbl))
    as (_ & _ & _ & omitted & Hperm & _ & Hnone).
  rewrite (Hnone Hlimit), app_nil_r in Hperm.
  unfold get_ticks. now rewrite <- Hperm.
Qed.

(** [get_ticks] returns ticks of the symbol inside the window, in time
    order, no more than a limit that is not negative, and the latest ones:
    every selected tick left out is no later than every tick returned, and
    nothing is left out when the limit is negative or covers the
    selection. *)
Theorem get_ticks_latest_in_time_order
    (order : list TickRow → list TickRow)
    (symbol : string) (start_time end_time : option Z) (limit : Z)
    (tbl : list TickRow) :
  orders_desc tr_timestamp order →
  let selected := List.filter (tick_matches symbol start_time end_time) tbl in
  let result := get_ticks order symbol start_time end_time limit tbl in
  StronglySorted (fun a b => tick_timestamp a ≤ tick_timestamp b) result
  ∧ (∀ t, t ∈ result →
          tick_symbol t = symbol
          ∧ in_window start_time end_time (tick_timestamp t) = true
          ∧ ∃ r, r ∈ tbl ∧ tick_of_row r = t)
  ∧ (0 ≤ limit → Z.of_nat (length result) ≤ limit)
  ∧ ∃ omitted,
      map tick_of_row selected ≡ₚ result ++ omitted
      ∧ (∀ x y, x ∈ omitted → y ∈ result → tick_timestamp x ≤ tick_timestamp y)
      ∧ (limit < 0 ∨ Z.of_nat (length selected) ≤ limit → omitted = []).
Proof.
  intros Horder selected result.
  destruct (newest_rows tr_timestamp order Horder limit selected)
    as (Hsorted & Hin & Hlen & omitted & Hperm & Hold & Hnone).
  set (rows := reverse (sql_limit limit (order selected))) in *.
  assert (Eres : result = map tick_of_row rows) by reflexivity.
  split; [|split; [|split]].
  - rewrite Eres.
    apply (StronglySorted_fmap tick_of_row
             (fun a b => tr_timestamp a ≤ tr_timestamp b)
             (fun a b => tick_timestamp a ≤ tick_timestamp b)); [|exact Hsorted].
    intros a b H. exact H.
  - intros t Ht. rewrite Eres in Ht.
    apply list_elem_of_In, in_map_iff in Ht as (r & <- & Hr).
    apply list_elem_of_In, Hin, list_elem_of_In, filter_In in Hr as [Hr Hm].
    unfold tick_matches in Hm. apply andb_true_iff in Hm as [Hs Hw].
    apply String.eqb_eq in Hs. simpl.
    split; [exact Hs|]. split; [exact Hw|].
    exists r. split; [now apply list_elem_of_In | reflexivity].
  - intros H. rewrite Eres, length_map. now apply Hlen.
  - exists (map tick_of_row omitted). split; [|split].
    + rewrite Eres, <- map_app. now apply (fmap_Permutation tick_of_row).
    + intros x y Hx Hy. rewrite Eres in Hy.
      apply list_elem_of_In, in_map_iff in Hx as (rx & <- & Hx).
      apply list_elem_of_In, in_map_iff in Hy as (ry & <- & Hy).
      apply list_elem_of_In in Hx, Hy. exact (Hold rx ry Hx Hy).
    + intros H. now rewrite (Hnone H).
Qed.

Lemma get_ticks_latest_in_time_order_witness :
  let result := get_ticks sort_ticks_desc "btcusdt" None None 2 stored_ticks in
  orders_desc tr_timestamp sort_ticks_desc
  ∧ StronglySorted (fun a b => tick_timestamp a ≤ tick_timestamp b) result
  ∧ (0 ≤ 2 → Z.of_nat (length result) ≤ 2).
Proof.
  intros result.
  pose proof (get_ticks_latest_in_time_order sort_ticks_desc "btcusdt" None None 2
                stored_ticks sort_ticks_desc_orders) as (H1 & _ & H3 & _).
  split; [exact sort_ticks_desc_orders|]. split; [exact H1 | exact H3].
Defined.

(** The read, run: of the three ticks of btcusdt the two latest, the
    older of them first. *)
Example get_ticks_run :
  get_ticks sort_ticks_desc "btcusdt" None None 2 stored_ticks
  = [mkTick "btcusdt" 1793707171000000 101 2; mkTick "btcusdt" 1793707172000000 102 1].
Proof. vm_compute. reflexivity. Qed.

Lemma get_ohlc_unbounded
    (order : list OHLC → list OHLC)
    (symbol timeframe : string) (start_time end_time : option Z) (limit : Z)
    (tbl : list OHLC) :
  orders_desc ohlc_timestamp order →
  limit < 0 ∨ Z.of_nat (length tbl) ≤ limit →
  ∀ r, r ∈ get_ohlc order symbol timeframe start_time end_time limit tbl
       ↔ r ∈ tbl ∧ ohlc_matches symbol timeframe start_time end_time r = true.
Proof.
  intros Horder Hlimit r.
  destruct (newest_rows ohlc_timestamp order Horder limit
              (List.filter (ohlc_matches symbol timeframe start_time end_time) tbl))
    as (_ & _ & _ & omitted & Hperm & _ & Hnone).
  rewrite Hnone in Hperm.
  - rewrite app_nil_r in Hperm. unfold get_ohlc. rewrite <- Hperm.
    now rewrite list_elem_of_In, filter_In, <- list_elem_of_In.
  - destruct Hlimit as [H | H]; [now left|]. right.
    enough (length (List.filter (ohlc_matches symbol timeframe start_time end_time) tbl)
            ≤ length tbl)%nat by lia.
    clear. induction tbl as [|x l IH]; simpl; [lia|].
    destruct (ohlc_matches _ _ _ _ x); simpl; lia.
Qed.

(** [get_ohlc] returns candles of the symbol and timeframe inside the
    window, in time order, no more than a limit that is not negative, and
    the latest ones. *)
Theorem get_ohlc_latest_in_time_order
    (order : list OHLC → list OHLC)
    (symbol timeframe : string) (start_time end_time : option Z) (limit : Z)
    (tbl : list OHLC) :
  orders_desc ohlc_timestamp order →
  let selected :=
    List.filter (ohlc_matches symbol timeframe start_time end_time) tbl in
  let result := get_ohlc order symbol timeframe start_time end_time limit tbl in
  StronglySorted (fun a b => ohlc_timestamp a ≤ ohlc_timestamp b) result
  ∧ (∀ r, r ∈ result →
          r ∈ tbl ∧ ohlc_symbol r = symbol ∧ ohlc_timeframe r = timeframe
          ∧ in_window start_time end_time (ohlc_timestamp r) = true)
  ∧ (0 ≤ limit → Z.of_nat (length result) ≤ limit)
  ∧ ∃ omitted,
      selected ≡ₚ result ++ omitted
      ∧ (∀ x y, x ∈ omitted → y ∈ result → ohlc_timestamp x ≤ ohlc_timestamp y)
      ∧ (limit < 0 ∨ Z.of_nat (length selected) ≤ limit → omitted = []).
Proof.
  intros Horder selected result.
  destruct (newest_rows ohlc_timestamp order Horder limit selected)
    as (Hsorted & Hin & Hlen & omitted & Hperm & Hold & Hnone).
  split; [exact Hsorted|]. split; [|split; [exact Hlen|]].
  - intros r Hr. apply Hin, list_elem_of_In, filter_In in Hr as [Hr Hm].
    unfold ohlc_matches in Hm.
    apply andb_true_iff in Hm as [Hm Hw]. apply andb_true_iff in Hm as [Hs Hf].
    apply String.eqb_eq in Hs, Hf.
    split; [now apply list_elem_of_In|]. auto.
  - exists omitted. auto.
Qed.

Lemma get_ohlc_latest_in_time_order_witness :
  let result := get_ohlc sort_ohlc_desc "a" "1m" None None 3 PairsTrading.series_A in
  orders_desc ohlc_timestamp sort_ohlc_desc
  ∧ StronglySorted (fun a b => ohlc_timestamp a ≤ ohlc_timestamp b) result
  ∧ (0 ≤ 3 → Z.of_nat (length result) ≤ 3).
Proof.
  intros result.
  pose proof (get_ohlc_latest_in_time_order sort_ohlc_desc "a" "1m" None None 3
                PairsTrading.series_A sort_ohlc_desc_orders) as (H1 & _ & H3 & _).
  split; [exact sort_ohlc_desc_orders|]. split; [exact H1 | exact H3].
Defined.

(** *** Bulk insert and read back *)

Lemma map_tick_of_row_imap (g : nat → tick → TickRow) (ticks : list tick) :
  (∀ k t, tick_of_row (g k t) = t) → map tick_of_row (imap g ticks) = ticks.
Proof.
  revert g. induction ticks as [|t ticks IH]; intros g Hg; [reflexivity|].
  simpl. rewrite Hg. f_equal. apply IH. intros k t'. apply Hg.
Qed.

Lemma filter_map_tick_of_row (symbol : string) (rows : list TickRow) :
  map tick_of_row (List.filter (tick_matches symbol None None) rows)
  = List.filter (fun t => String.eqb (tick_symbol t) symbol) (map tick_of_row rows).
Proof.
  induction rows as [|r rows IH]; [reflexivity|]. simpl.
  unfold tick_matches at 1. simpl. rewrite andb_true_r.
  destruct (String.eqb (tr_symbol r) symbol); simpl; now rewrite IH.
Qed.

(** [insert_ticks] of ticks whose price and size are numbers stores every
    tick it is given and no other: the stored payloads are the old ones
    followed by the new ones in the order given, the row count grows by
    their number, the old rows are untouched, and an unbounded read of a
    symbol afterwards returns, up to the order of equal timestamps, what
    it returned before together with the new ticks of that symbol.  When
    the price or the size of one tick is a NaN, the commit raises
    [IntegrityError] and none of the batch is stored. *)
Theorem insert_ticks_then_get_ticks
    (order : list TickRow → list TickRow) (utcnow : nat → Z)
    (tbl : list TickRow) (ticks : list tick) (symbol : string) (limit : Z) :
  orders_desc tr_timestamp order →
  limit < 0 ∨ Z.of_nat (length tbl + length ticks) ≤ limit →
  (forallb tick_storable ticks = true →
   ∃ tbl', insert_ticks utcnow tbl ticks = inr tbl'
     ∧ map tick_of_row tbl' = map tick_of_row tbl ++ ticks
     ∧ take (length tbl) tbl' = tbl
     ∧ get_tick_count None tbl' = get_tick_count None tbl + Z.of_nat (length ticks)
     ∧ get_ticks order symbol None None limit tbl'
       ≡ₚ get_ticks order symbol None None limit tbl
          ++ List.filter (fun t => String.eqb (tick_symbol t) symbol) ticks)
  ∧ (forallb tick_storable ticks = false →
     insert_ticks utcnow tbl ticks = inl IntegrityError).
Proof.
  intros Horder Hlimit. split; intros Hs; unfold insert_ticks; rewrite Hs;
    [|reflexivity].
  set (tbl' := add_all utcnow tbl ticks). exists tbl'.
  split; [reflexivity|].
  assert (Epay : map tick_of_row tbl' = map tick_of_row tbl ++ ticks).
  { unfold tbl', add_all. rewrite map_app. f_equal.
    apply map_tick_of_row_imap. now intros k []. }
  assert (Elen : length tbl' = (length tbl + length ticks)%nat).
  { rewrite <- (length_map tick_of_row tbl'), Epay, length_app, length_map.
    reflexivity. }
  split; [exact Epay|]. split; [|split].
  - unfold tbl', add_all. now rewrite take_app_length.
  - unfold get_tick_count. rewrite Elen. lia.
  - assert (Hall : ∀ rows, Z.of_nat (length rows) ≤ Z.of_nat (length tbl + length ticks) →
              get_ticks order symbol None None limit rows
              ≡ₚ List.filter (fun t => String.eqb (tick_symbol t) symbol)
                             (map tick_of_row rows)).
    { intros rows Hrows.
      rewrite get_ticks_unbounded; [now rewrite filter_map_tick_of_row | exact Horder |].
      { destruct Hlimit as [H|H]; [now left|]. right.
        enough (length (List.filter (tick_matches symbol None None) rows) ≤ length rows)%nat
          by lia.
        clear. induction rows as [|r rows IH]; simpl; [lia|].
        destruct (tick_matches symbol None None r); simpl; lia. } }
    rewrite (Hall tbl') by (rewrite Elen; lia).
    rewrite (Hall tbl) by lia.
    rewrite Epay, List.filter_app. reflexivity.
Qed.

Lemma insert_ticks_then_get_ticks_witness :
  let ticks := [mkTick "btcusdt" 1793707173000000 103 1;
                mkTick "ethusdt" 1793707173000000 51 1] in
  orders_desc tr_timestamp sort_ticks_desc
  ∧ (1000 < 0 ∨ Z.of_nat (length stored_ticks + length ticks) ≤ 1000)
  ∧ forallb tick_storable ticks = true
  ∧ ∃ tbl', insert_ticks (fun _ => 5) stored_ticks ticks = inr tbl'
            ∧ map tick_of_row tbl' = map tick_of_row stored_ticks ++ ticks.
Proof.
  intros ticks.
  assert (H : 1000 < 0 ∨ Z.of_nat (length stored_ticks + length ticks) ≤ 1000)
    by (right; simpl; lia).
  split; [exact sort_ticks_desc_orders|]. split; [exact H|].
  split; [reflexivity|].
  destruct (proj1 (insert_ticks_then_get_ticks sort_ticks_desc (fun _ => 5)
                     stored_ticks ticks "btcusdt" 1000 sort_ticks_desc_orders H)
                  eq_refl) as (tbl' & E & Hpay & _).
  exists tbl'. split; [exact E | exact Hpay].
Defined.

(** A batch of two ticks, the price of the second being a NaN: the first
    is not stored either. *)
Example insert_ticks_nan_run :
  insert_ticks (fun _ => 5) stored_ticks
               [mkTick "btcusdt" 1793707173000000 103 1;
                mkTick "ethusdt" 1793707173000000 nan 1]
  = inl IntegrityError.
Proof. vm_compute. reflexivity. Qed.

(** *** Alerts *)

Lemma alert_filter_absent (id : Z) (tbl : list Alert) :
  id ∉ map alert_id tbl → List.filter (fun a => alert_id a =? id) tbl = [].
Proof.
  induction tbl as [|a tbl IH]; simpl; intros H; [reflexivity|].
  apply not_elem_of_cons in H as [Hne H].
  destruct (Z.eqb_spec (alert_id a) id); [congruence | auto].
Qed.

Lemma alert_filter_present (tbl : list Alert) (a : Alert) :
  wf_alerts tbl → a ∈ tbl →
  List.filter (fun x => alert_id x =? alert_id a) tbl = [a].
Proof.
  unfold wf_alerts. induction tbl as [|x tbl IH]; simpl; intros Hnd Hin.
  - now apply elem_of_nil in Hin.
  - apply NoDup_cons in Hnd as [Hx Hnd].
    apply elem_of_cons in Hin as [<- | Hin].
    + rewrite Z.eqb_refl, alert_filter_absent; [reflexivity | exact Hx].
    + destruct (Z.eqb_spec (alert_id x) (alert_id a)) as [E|E]; [|auto].
      exfalso. apply Hx. rewrite E.
      apply list_elem_of_In, in_map, list_elem_of_In, Hin.
Qed.

Lemma next_alert_id_fresh (tbl : list Alert) : next_alert_id tbl ∉ map alert_id tbl.
Proof.
  unfold next_alert_id.
  assert (H : ∀ i, i ∈ map alert_id tbl → i ≤ fold_right Z.max 0 (map alert_id tbl)).
  { induction tbl as [|x tbl IH]; simpl; intros i Hi.
    - now apply elem_of_nil in Hi.
    - apply elem_of_cons in Hi as [-> | Hi]; [lia | specialize (IH i Hi); lia]. }
  intros Hin. apply H in Hin. lia.
Qed.

Lemma filter_other_ids (id : Z) (tbl : list Alert) :
  id ∉ map alert_id tbl → List.filter (fun a => negb (alert_id a =? id)) tbl = tbl.
Proof.
  induction tbl as [|a tbl IH]; simpl; intros H; [reflexivity|].
  apply not_elem_of_cons in H as [Hne H].
  destruct (Z.eqb_spec (alert_id a) id); [congruence|]. simpl. now rewrite IH.
Qed.

(** [delete_alert] on a table with unique primary keys never raises; it
    removes the alert with the id and no other, keeps the keys unique, and
    changes nothing when no alert has the id, so that deleting twice is
    deleting once. *)
Theorem delete_alert_removes_one (id : Z) (tbl : list Alert) :
  wf_alerts tbl →
  ∃ tbl', delete_alert id tbl = inr tbl'
          ∧ (∀ a, a ∈ tbl' ↔ a ∈ tbl ∧ alert_id a ≠ id)
          ∧ wf_alerts tbl'
          ∧ (id ∉ map alert_id tbl → tbl' = tbl)
          ∧ delete_alert id tbl' = inr tbl'.
Proof.
  intros Hwf.
  assert (Hfilter : ∀ a, a ∈ List.filter (fun a => negb (alert_id a =? id)) tbl
                        ↔ a ∈ tbl ∧ alert_id a ≠ id).
  { intros a. rewrite list_elem_of_In, filter_In, <- list_elem_of_In.
    destruct (Z.eqb_spec (alert_id a) id); simpl; intuition congruence. }
  assert (Hwf' : wf_alerts (List.filter (fun a => negb (alert_id a =? id)) tbl)).
  { unfold wf_alerts in *. clear Hfilter.
    induction tbl as [|a tbl IH]; simpl; [constructor|].
    apply NoDup_cons in Hwf as [Ha Hwf].
    destruct (alert_id a =? id); simpl; [auto|].
    apply NoDup_cons. split; [|auto].
    intros Hin. apply Ha.
    apply list_elem_of_In, in_map_iff in Hin as (x & Ex & Hx).
    apply filter_In in Hx as [Hx _]. rewrite <- Ex.
    apply list_elem_of_In, in_map, Hx. }
  assert (Hgone : id ∉ map alert_id (List.filter (fun a => negb (alert_id a =? id)) tbl)).
  { intros Hin. apply list_elem_of_In, in_map_iff in Hin as (x & Ex & Hx).
    apply filter_In in Hx as [_ Hx]. rewrite Ex, Z.eqb_refl in Hx. discriminate. }
  destruct (decide (id ∈ map alert_id tbl)) as [Hin | Hout].
  - apply list_elem_of_In, in_map_iff in Hin as (a & <- & Ha).
    apply list_elem_of_In in Ha.
    exists (List.filter (fun x => negb (alert_id x =? alert_id a)) tbl).
    unfold delete_alert at 1. rewrite (alert_filter_present tbl a Hwf Ha). simpl.
    split; [reflexivity|]. split; [exact Hfilter|]. split; [exact Hwf'|].
    split.
    + intros Hout. exfalso. apply Hout.
      apply list_elem_of_In, in_map, list_elem_of_In, Ha.
    + unfold delete_alert. now rewrite (alert_filter_absent _ _ Hgone).
  - exists tbl. unfold delete_alert. rewrite (alert_filter_absent _ _ Hout). simpl.
    split; [reflexivity|]. split.
    + intros a. split; [|tauto]. intros Ha. split; [exact Ha|].
      intros E. apply Hout. rewrite <- E.
      apply list_elem_of_In, in_map, list_elem_of_In, Ha.
    + auto.
Qed.

Lemma delete_alert_removes_one_witness :
  wf_alerts stored_alerts
  ∧ ∃ tbl', delete_alert 2 stored_alerts = inr tbl'
            ∧ (∀ a, a ∈ tbl' ↔ a ∈ stored_alerts ∧ alert_id a ≠ 2)
            ∧ wf_alerts tbl'
            ∧ (2 ∉ map alert_id stored_alerts → tbl' = stored_alerts)
            ∧ delete_alert 2 tbl' = inr tbl'.
Proof.
  assert (Hwf : wf_alerts stored_alerts).
  { unfold wf_alerts. apply (bool_decide_unpack _). vm_compute. exact I. }
  split; [exact Hwf|]. exact (delete_alert_removes_one 2 stored_alerts Hwf).
Defined.

(** [create_alert] with a threshold that is a number appends one alert
    under a primary key no stored alert has, so the keys stay unique; the
    new alert is active unless the dict says otherwise, and is then listed
    by [get_alerts(active_only=True)]; deleting the returned id gives back
    the table as it was.  With a NaN threshold the commit raises
    [IntegrityError] and no alert is stored. *)
Theorem create_alert_then_delete (utcnow : Z) (tbl : list Alert) (d : alert_data) :
  wf_alerts tbl →
  (not_null (a_threshold d) = true →
   ∃ tbl' id,
     create_alert utcnow tbl d = inr (tbl', id)
     ∧ let a := mkAlert id (a_name d) (a_symbol d) (a_metric d) (a_condition d)
                        (a_threshold d) (default 1 (a_is_active d)) utcnow None in
       tbl' = tbl ++ [a]
       ∧ (id ∉ map alert_id tbl)
       ∧ wf_alerts tbl'
       ∧ (a ∈ get_alerts true tbl' ↔ default 1 (a_is_active d) = 1)
       ∧ get_alerts true tbl'
         = get_alerts true tbl ++ (if default 1 (a_is_active d) =? 1 then [a] else [])
       ∧ delete_alert id tbl' = inr tbl)
  ∧ (not_null (a_threshold d) = false →
     create_alert utcnow tbl d = inl IntegrityError).
Proof.
  intros Hwf. split; intros Hs; unfold create_alert; cbv zeta; rewrite Hs;
    [|reflexivity].
  set (a := mkAlert (next_alert_id tbl) (a_name d) (a_symbol d) (a_metric d)
                    (a_condition d) (a_threshold d) (default 1 (a_is_active d))
                    utcnow None).
  exists (tbl ++ [a]), (next_alert_id tbl). split; [reflexivity|]. cbv zeta. fold a.
  pose proof (next_alert_id_fresh tbl) as Hfresh.
  assert (Hwf' : wf_alerts (tbl ++ [a])).
  { unfold wf_alerts in *. rewrite map_app. apply NoDup_app.
    split; [exact Hwf|]. split; [|apply NoDup_singleton].
    intros x Hx Hx'. apply list_elem_of_singleton in Hx'. subst x.
    now apply Hfresh. }
  assert (Ha : a ∈ tbl ++ [a])
    by (apply elem_of_app; right; now apply list_elem_of_singleton).
  assert (Elist : get_alerts true (tbl ++ [a])
                  = get_alerts true tbl
                    ++ (if default 1 (a_is_active d) =? 1 then [a] else [])).
  { unfold get_alerts. rewrite List.filter_app. reflexivity. }
  split; [reflexivity|]. split; [exact Hfresh|]. split; [exact Hwf'|].
  split; [|split; [exact Elist|]].
  - unfold get_alerts. rewrite list_elem_of_In, filter_In, <- list_elem_of_In.
    simpl. rewrite Z.eqb_eq. tauto.
  - unfold delete_alert.
    change (next_alert_id tbl) with (alert_id a).
    rewrite (alert_filter_present (tbl ++ [a]) a Hwf' Ha).
    simpl. rewrite List.filter_app. simpl. rewrite Z.eqb_refl. simpl.
    rewrite app_nil_r. f_equal. now apply filter_other_ids.
Qed.

Lemma create_alert_then_delete_witness :
  wf_alerts stored_alerts
  ∧ not_null (a_threshold new_alert) = true
  ∧ ∃ tbl' id, create_alert 7 stored_alerts new_alert = inr (tbl', id)
               ∧ (id ∉ map alert_id stored_alerts)
               ∧ delete_alert id tbl' = inr stored_alerts.
Proof.
  assert (Hwf : wf_alerts stored_alerts).
  { unfold wf_alerts. apply (bool_decide_unpack _). vm_compute. exact I. }
  split; [exact Hwf|]. split; [reflexivity|].
  destruct (proj1 (create_alert_then_delete 7 stored_alerts new_alert Hwf) eq_refl)
    as (tbl' & id & E & _ & H2 & _ & _ & _ & H6).
  exists tbl', id. split; [exact E|]. split; [exact H2 | exact H6].
Defined.

(** An alert whose threshold is a NaN is refused. *)
Example create_alert_nan_run :
  create_alert 7 stored_alerts (mkAlertData "never" "btcusdt" "price" ">" nan None)
  = inl IntegrityError.
Proof. vm_compute. reflexivity. Qed.

(** [update_alert_trigger] on a table with unique primary keys never
    raises; it sets [last_triggered] of the alert with the id to the clock
    reading and changes no other field and no other alert; without such an
    alert the table is unchanged. *)
Theorem update_alert_trigger_touches_one (utcnow id : Z) (tbl : list Alert) :
  wf_alerts tbl →
  ∃ tbl', update_alert_trigger utcnow id tbl = inr tbl'
          ∧ tbl' = map (fun a =>
                          if alert_id a =? id
                          then mkAlert (alert_id a) (alert_name a) (alert_symbol a)
                                       (alert_metric a) (alert_condition a)
                                       (alert_threshold a) (alert_is_active a)
                                       (alert_created_at a) (Some utcnow)
                          else a) tbl
          ∧ map alert_id tbl' = map alert_id tbl
          ∧ get_alerts true tbl'
            = map (fun a =>
                     if alert_id a =? id
                     then mkAlert (alert_id a) (alert_name a) (alert_symbol a)
                                  (alert_metric a) (alert_condition a)
                                  (alert_threshold a) (alert_is_active a)
                                  (alert_created_at a) (Some utcnow)
                     else a) (get_alerts true tbl)
          ∧ (id ∉ map alert_id tbl → tbl' = tbl).
Proof.
  intros Hwf.
  set (f := fun a => if alert_id a =? id
                     then mkAlert (alert_id a) (alert_name a) (alert_symbol a)
                                  (alert_metric a) (alert_condition a)
                                  (alert_threshold a) (alert_is_active a)
                                  (alert_created_at a) (Some utcnow)
                     else a).
  assert (Hids : map alert_id (map f tbl) = map alert_id tbl).
  { rewrite map_map. apply map_ext. intros a. unfold f.
    now destruct (alert_id a =? id). }
  assert (Hactive : get_alerts true (map f tbl) = map f (get_alerts true tbl)).
  { unfold get_alerts. clear Hwf Hids.
    induction tbl as [|a tbl IH]; [reflexivity|]. simpl.
    assert (E : alert_is_active (f a) = alert_is_active a)
      by (unfold f; now destruct (alert_id a =? id)).
    rewrite E. destruct (alert_is_active a =? 1); simpl; now rewrite IH. }
  assert (Hsame : id ∉ map alert_id tbl → map f tbl = tbl).
  { intros Hout. rewrite <- (map_id tbl) at 2. apply map_ext_in.
    intros a Ha. unfold f. destruct (Z.eqb_spec (alert_id a) id) as [E|E]; [|reflexivity].
    exfalso. apply Hout. rewrite <- E. apply list_elem_of_In, in_map, Ha. }
  exists (map f tbl).
  split; [|split; [reflexivity|split; [exact Hids|split; [exact Hactive|exact Hsame]]]].
  unfold update_alert_trigger.
  destruct (decide (id ∈ map alert_id tbl)) as [Hin | Hout].
  - apply list_elem_of_In, in_map_iff in Hin as (a & <- & Ha).
    apply list_elem_of_In in Ha.
    now rewrite (alert_filter_present tbl a Hwf Ha).
  - rewrite (alert_filter_absent _ _ Hout). simpl. now rewrite Hsame.
Qed.

Lemma update_alert_trigger_touches_one_witness :
  wf_alerts stored_alerts
  ∧ update_alert_trigger 9 1 stored_alerts
    = inr [mkAlert 1 "high" "btcusdt" "price" ">" 100 1 0 (Some 9);
           mkAlert 2 "quiet" "ethusdt" "volume" "<" 5 0 0 None].
Proof.
  assert (Hwf : wf_alerts stored_alerts).
  { unfold wf_alerts. apply (bool_decide_unpack _). vm_compute. exact I. }
  split; [exact Hwf|].
  destruct (update_alert_trigger_touches_one 9 1 stored_alerts Hwf)
    as (tbl' & E & -> & _). exact E.
Defined.

(** *** An upsert, then a read *)

Lemma NoDup_map_inj {A B : Type} (f : A → B) (l : list A) (x y : A) :
  NoDup (map f l) → x ∈ l → y ∈ l → f x = f y → x = y.
Proof.
  induction l as [|z l IH]; intros Hnd Hx Hy E.
  - now apply elem_of_nil in Hx.
  - simpl in Hnd. apply NoDup_cons in Hnd as [Hz Hnd].
    apply elem_of_cons in Hx as [-> | Hx]; apply elem_of_cons in Hy as [-> | Hy].
    + reflexivity.
    + exfalso. apply Hz. rewrite E. apply list_elem_of_In, in_map, list_elem_of_In, Hy.
    + exfalso. apply Hz. rewrite <- E.
      apply list_elem_of_In, in_map, list_elem_of_In, Hx.
    + now apply IH.
Qed.

Lemma insert_ohlc_length (utcnow : Z) (tbl tbl' : list OHLC) (d : ohlc_data) :
  insert_ohlc utcnow tbl d = inr tbl' → (length tbl' ≤ S (length tbl))%nat.
Proof.
  unfold insert_ohlc, commit.
  destruct (List.filter (same_key d) tbl) as [|ex [|? ?]]; simpl; intros E;
    [| |discriminate]; (destruct (storable d); [|discriminate]); injection E as <-.
  - rewrite length_app. simpl. lia.
  - unfold update_table. rewrite length_map. lia.
Qed.

(** A candle that was upserted is read back.  On a table that satisfies
    its constraints [insert_ohlc] of a candle whose open, high, low, close
    and volume are numbers never raises, and a read of the symbol and the
    timeframe of the candle, over a window that holds its bucket start and
    with a limit that covers the table, returns one candle for that bucket
    start and no second one, carrying the values just written.  A candle
    with a NaN among the five is refused with [IntegrityError]. *)
Theorem insert_ohlc_then_get_ohlc
    (order : list OHLC → list OHLC) (utcnow : Z) (tbl : list OHLC) (d : ohlc_data)
    (start_time end_time : option Z) (limit : Z) :
  orders_desc ohlc_timestamp order → wf_table tbl →
  in_window start_time end_time (d_timestamp d) = true →
  limit < 0 ∨ Z.of_nat (length tbl) < limit →
  (storable d = true →
   ∃ tbl' r,
     insert_ohlc utcnow tbl d = inr tbl'
     ∧ wf_table tbl'
     ∧ r ∈ get_ohlc order (d_symbol d) (d_timeframe d) start_time end_time limit tbl'
     ∧ row_key r = data_key d
     ∧ row_values r = data_values d
     ∧ ∀ r', r' ∈ get_ohlc order (d_symbol d) (d_timeframe d)
                            start_time end_time limit tbl' →
             ohlc_timestamp r' = d_timestamp d → r' = r)
  ∧ (storable d = false → insert_ohlc utcnow tbl d = inl IntegrityError).
Proof.
  intros Horder Hwf Hwin Hlimit.
  split; [|now apply DatabaseFacts.insert_ohlc_not_storable].
  intros Hstorable.
  destruct (DatabaseFacts.insert_ohlc_ok utcnow tbl d Hwf Hstorable)
    as (tbl' & r & E & Hwf' & Hin & Hk & Hv).
  exists tbl', r. split; [exact E|]. split; [exact Hwf'|].
  pose proof (insert_ohlc_length utcnow tbl tbl' d E) as Hlen.
  assert (Hread : ∀ x, x ∈ get_ohlc order (d_symbol d) (d_timeframe d)
                                    start_time end_time limit tbl'
                       ↔ x ∈ tbl'
                         ∧ ohlc_matches (d_symbol d) (d_timeframe d)
                                        start_time end_time x = true).
  { apply get_ohlc_unbounded; [exact Horder|].
    destruct Hlimit as [H | H]; [now left | right; lia]. }
  pose proof Hk as Hk'. unfold row_key, data_key in Hk'. injection Hk' as Hs Hf Ht.
  split.
  { apply Hread. split; [exact Hin|].
    unfold ohlc_matches. rewrite Hs, Hf, Ht, !String.eqb_refl. exact Hwin. }
  split; [exact Hk|]. split; [exact Hv|].
  intros r' Hr' Ht'. apply Hread in Hr' as [Hin' Hm].
  unfold ohlc_matches in Hm.
  apply andb_true_iff in Hm as [Hm _]. apply andb_true_iff in Hm as [Hs' Hf'].
  apply String.eqb_eq in Hs', Hf'.
  destruct Hwf' as [_ Hkeys].
  apply (NoDup_map_inj row_key tbl' r' r Hkeys Hin' Hin).
  unfold row_key. congruence.
Qed.

Lemma insert_ohlc_then_get_ohlc_witness :
  orders_desc ohlc_timestamp sort_ohlc_desc ∧ wf_table []
  ∧ in_window None None (d_timestamp candle_first) = true
  ∧ (10 < 0 ∨ Z.of_nat (length (@nil OHLC)) < 10)
  ∧ storable candle_first = true
  ∧ ∃ tbl' r,
      insert_ohlc 7 [] candle_first = inr tbl'
      ∧ wf_table tbl'
      ∧ r ∈ get_ohlc sort_ohlc_desc (d_symbol candle_first) (d_timeframe candle_first)
                     None None 10 tbl'
      ∧ row_key r = data_key candle_first
      ∧ row_values r = data_values candle_first
      ∧ ∀ r', r' ∈ get_ohlc sort_ohlc_desc (d_symbol candle_first)
                             (d_timeframe candle_first) None None 10 tbl' →
              ohlc_timestamp r' = d_timestamp candle_first → r' = r.
Proof.
  assert (H2 : wf_table []) by (split; constructor).
  assert (H3 : in_window None None (d_timestamp candle_first) = true) by reflexivity.
  assert (H4 : 10 < 0 ∨ Z.of_nat (length (@nil OHLC)) < 10) by (right; simpl; lia).
  split; [exact sort_ohlc_desc_orders|]. do 3 (split; [assumption|]).
  split; [reflexivity|].
  exact (proj1 (insert_ohlc_then_get_ohlc sort_ohlc_desc 7 [] candle_first None None 10
                  sort_ohlc_desc_orders H2 H3 H4) eq_refl).
Defined.

End StorageFacts.

Module ManagerFacts.
Import RedisCache Storage Manager.

(** *** The buffer *)

Lemma collect_cons (s : string) (ts : list tick) (b : buffer) :
  collect ((s, ts) :: b) = ts ++ collect b.
Proof. reflexivity. Qed.

Lemma buffer_append_collect (b : buffer) (s : string) (t : tick) :
  collect (buffer_append b s t) ≡ₚ collect b ++ [t].
Proof.
  induction b as [|[k ts] rest IH]; simpl; [reflexivity|].
  destruct (String.eqb k s).
  - rewrite !collect_cons, <- !app_assoc.
    apply Permutation_app_head, Permutation_app_comm.
  - rewrite !collect_cons, IH, app_assoc. reflexivity.
Qed.

Lemma buffer_append_keys (b : buffer) (s : string) (t : tick) (k : string) :
  k ∈ map fst (buffer_append b s t) ↔ k = s ∨ k ∈ map fst b.
Proof.
  induction b as [|[k0 ts] rest IH]; simpl.
  - rewrite list_elem_of_singleton, elem_of_nil. tauto.
  - destruct (String.eqb_spec k0 s) as [-> | Hne]; simpl.
    + rewrite !elem_of_cons. tauto.
    + rewrite !elem_of_cons, IH. tauto.
Qed.

Lemma buffer_append_wf (b : buffer) (t : tick) :
  wf_buffer b → wf_buffer (buffer_append b (tick_symbol t) t).
Proof.
  induction b as [|[k ts] rest IH]; intros [Hnd Hc].
  - split; simpl.
    + apply NoDup_singleton.
    + intros s ts Hin. apply list_elem_of_singleton in Hin.
      injection Hin as -> ->. split; [discriminate|].
      intros t' Ht'. apply list_elem_of_singleton in Ht'. now subst.
  - simpl in Hnd. apply NoDup_cons in Hnd as [Hk Hnd].
    assert (Hrest : wf_buffer rest).
    { split; [exact Hnd|]. intros s l Hin. apply Hc. now right. }
    simpl. destruct (String.eqb_spec k (tick_symbol t)) as [-> | Hne].
    + split; simpl.
      * apply NoDup_cons. now split.
      * intros s l Hin. apply elem_of_cons in Hin as [Heq | Hin].
        -- injection Heq as -> ->. split; [now destruct ts|].
           intros t' Ht'. apply elem_of_app in Ht' as [Ht' | Ht'].
           ++ destruct (Hc (tick_symbol t) ts) as [_ H]; [now left|]. now apply H.
           ++ apply list_elem_of_singleton in Ht'. now subst.
        -- apply Hc. now right.
    + destruct (IH Hrest) as [Hnd' Hc']. split; simpl.
      * apply NoDup_cons. split; [|exact Hnd'].
        rewrite buffer_append_keys. intros [Heq | Hin]; [congruence | contradiction].
      * intros s l Hin. apply elem_of_cons in Hin as [Heq | Hin].
        -- injection Heq as -> ->. apply Hc. now left.
        -- now apply Hc'.
Qed.

Lemma of_symbol_app (s : string) (l1 l2 : list tick) :
  of_symbol s (l1 ++ l2) = of_symbol s l1 ++ of_symbol s l2.
Proof. unfold of_symbol. apply filter_app. Qed.

Lemma of_symbol_none (s : string) (l : list tick) :
  (∀ t, t ∈ l → tick_symbol t ≠ s) → of_symbol s l = [].
Proof.
  intros H. unfold of_symbol. induction l as [|x l IH]; [reflexivity|].
  rewrite filter_cons_False by (apply H; now left).
  apply IH. intros t Ht. apply H. now right.
Qed.

Lemma of_symbol_all (s : string) (l : list tick) :
  (∀ t, t ∈ l → tick_symbol t = s) → of_symbol s l = l.
Proof.
  intros H. unfold of_symbol. induction l as [|x l IH]; [reflexivity|].
  rewrite filter_cons_True by (apply H; now left).
  f_equal. apply IH. intros t Ht. apply H. now right.
Qed.

Lemma of_symbol_absent_key (b : buffer) (s : string) :
  wf_buffer b → s ∉ map fst b → of_symbol s (collect b) = [].
Proof.
  intros [_ Hc] Hs. apply of_symbol_none. intros t Ht Heq.
  unfold collect in Ht.
  apply list_elem_of_In, in_concat in Ht as (ts & Hts & Ht).
  apply in_map_iff in Hts as ([k l] & <- & Hin). simpl in Ht.
  apply list_elem_of_In in Ht, Hin.
  destruct (Hc k l Hin) as [_ H]. apply Hs.
  apply list_elem_of_In, in_map_iff. exists (k, l).
  split; [|now apply list_elem_of_In].
  simpl. rewrite <- Heq. symmetry. now apply H.
Qed.

Lemma buffer_append_of_symbol (b : buffer) (t : tick) (s : string) :
  wf_buffer b →
  of_symbol s (collect (buffer_append b (tick_symbol t) t))
  = of_symbol s (collect b) ++ of_symbol s [t].
Proof.
  induction b as [|[k ts] rest IH]; intros Hwf; [reflexivity|].
  pose proof Hwf as [Hnd Hc].
  simpl in Hnd. apply NoDup_cons in Hnd as [Hk Hnd].
  assert (Hrest : wf_buffer rest).
  { split; [exact Hnd|]. intros s' l Hin. apply Hc. now right. }
  simpl. destruct (String.eqb_spec k (tick_symbol t)) as [-> | Hne].
  - rewrite !collect_cons, !of_symbol_app, <- !app_assoc. f_equal.
    destruct (decide (tick_symbol t = s)) as [<- | Hs].
    + rewrite (of_symbol_absent_key rest) by assumption.
      now rewrite app_nil_r.
    + rewrite (of_symbol_none s [t]).
      * now rewrite app_nil_r.
      * intros t' Ht'. apply list_elem_of_singleton in Ht'. now subst.
  - rewrite !collect_cons, !of_symbol_app, IH by exact Hrest.
    now rewrite app_assoc.
Qed.

(** *** The state after a run of arrivals and passes *)

Lemma stored_add_all (utcnow : nat → Z) (tbl : list TickRow) (l : list tick) :
  map tick_of_row (add_all utcnow tbl l) = map tick_of_row tbl ++ l.
Proof.
  unfold add_all. rewrite map_app. f_equal.
  apply StorageFacts.map_tick_of_row_imap. now intros k [].
Qed.

Lemma flush_pass_quiet (inserted : bool) (utcnow : nat → Z) (w : world) :
  flush_pass inserted utcnow [] w
  = if inserted && bool_decide (collect (tick_buffer w) ≠ [])
    then mkWorld (symbols w) [] (running w) (ws_client w) (cache w)
                 (add_all utcnow (ticks w) (collect (tick_buffer w)))
    else w.
Proof.
  unfold flush_pass. destruct w as [sy b r ws c tk]. simpl.
  destruct b as [|kv b'].
  - now rewrite andb_false_r.
  - destruct (collect (kv :: b')) eqn:E.
    + now rewrite andb_false_r.
    + now destruct inserted.
Qed.

Lemma wf_buffer_nil : wf_buffer [].
Proof.
  split; [apply NoDup_nil_2|]. intros s ts H. now apply elem_of_nil in H.
Qed.

Lemma act_invariant (a : action) (w : world) :
  wf_buffer (tick_buffer w) →
  wf_buffer (tick_buffer (act w a))
  ∧ running (act w a) = running w
  ∧ symbols (act w a) = symbols w
  ∧ ws_client (act w a) = ws_client w
  ∧ stored (act w a) ++ collect (tick_buffer (act w a))
    ≡ₚ (stored w ++ collect (tick_buffer w)) ++ arrivals_of [a]
  ∧ ∀ s, of_symbol s (stored (act w a)) ++ of_symbol s (collect (tick_buffer (act w a)))
         = (of_symbol s (stored w) ++ of_symbol s (collect (tick_buffer w)))
           ++ of_symbol s (arrivals_of [a]).
Proof.
  intros Hwf. destruct a as [now t | inserted utcnow].
  - simpl act. unfold _handle_tick, stored. simpl.
    split; [now apply buffer_append_wf|]. do 3 (split; [reflexivity|]).
    split.
    + rewrite buffer_append_collect, app_assoc. reflexivity.
    + intros s. rewrite buffer_append_of_symbol by exact Hwf.
      now rewrite app_assoc.
  - simpl act. rewrite flush_pass_quiet.
    destruct (inserted && bool_decide (collect (tick_buffer w) ≠ [])).
    + unfold stored. simpl. rewrite stored_add_all.
      split; [apply wf_buffer_nil|]. do 3 (split; [reflexivity|]).
      split; [now rewrite !app_nil_r|].
      intros s. unfold collect at 1. simpl.
      now rewrite of_symbol_app, !app_nil_r.
    + split; [exact Hwf|]. do 3 (split; [reflexivity|]).
      split; [now rewrite app_nil_r|]. intros s. now rewrite app_nil_r.
Qed.

Lemma arrivals_of_cons (a : action) (l : list action) :
  arrivals_of (a :: l) = arrivals_of [a] ++ arrivals_of l.
Proof. unfold arrivals_of. simpl. now rewrite app_nil_r. Qed.

Lemma run_invariant (actions : list action) :
  ∀ w, wf_buffer (tick_buffer w) →
  let w' := foldl act w actions in
  wf_buffer (tick_buffer w')
  ∧ running w' = running w
  ∧ stored w' ++ collect (tick_buffer w')
    ≡ₚ (stored w ++ collect (tick_buffer w)) ++ arrivals_of actions
  ∧ ∀ s, of_symbol s (stored w') ++ of_symbol s (collect (tick_buffer w'))
         = (of_symbol s (stored w) ++ of_symbol s (collect (tick_buffer w)))
           ++ of_symbol s (arrivals_of actions).
Proof.
  induction actions as [|a rest IH]; intros w Hwf; cbv zeta.
  - simpl. split; [exact Hwf|]. split; [reflexivity|].
    split; [now rewrite app_nil_r|]. intros s. now rewrite app_nil_r.
  - simpl foldl. destruct (act_invariant a w Hwf) as (Hwf1 & Hr1 & _ & _ & Hp1 & Ho1).
    destruct (IH (act w a) Hwf1) as (Hwf2 & Hr2 & Hp2 & Ho2).
    split; [exact Hwf2|]. split; [congruence|]. split.
    + rewrite Hp2, Hp1, (arrivals_of_cons a rest), !app_assoc. reflexivity.
    + intros s.
      rewrite Ho2, Ho1, (arrivals_of_cons a rest), of_symbol_app, !app_assoc.
      reflexivity.
Qed.

(** Between [start] and a [stop] whose insert returns, with the periodic
    task making its passes while no tick arrives: every tick handled ends
    up in the table exactly once, behind what the table and the buffer
    held before, also when some passes failed; the ticks of one symbol
    are stored in the order of their arrival, and the buffer is left
    empty. *)
Theorem handled_ticks_are_stored_once
    (w : world) (actions : list action) (utcnow : nat → Z) :
  wf_buffer (tick_buffer w) → running w = true →
  let w' := (stop true utcnow (foldl act w actions)).1 in
  (stop true utcnow (foldl act w actions)).2 = true
  ∧ running w' = false
  ∧ tick_buffer w' = []
  ∧ stored w' ≡ₚ stored w ++ collect (tick_buffer w) ++ arrivals_of actions
  ∧ ∀ symbol,
      of_symbol symbol (stored w')
      = of_symbol symbol (stored w) ++ of_symbol symbol (collect (tick_buffer w))
        ++ of_symbol symbol (arrivals_of actions).
Proof.
  intros Hwf Hrun.
  destruct (run_invariant actions w Hwf) as (_ & Hr & Hp & Ho).
  cbv zeta in Hr, Hp, Ho. cbv zeta.
  set (w1 := foldl act w actions) in *.
  unfold stop. rewrite Hr, Hrun. simpl negb. cbv iota.
  destruct (collect (tick_buffer w1)) as [|t l] eqn:E.
  - simpl. do 3 (split; [reflexivity|]). unfold stored in *. simpl.
    rewrite app_nil_r in Hp. split; [now rewrite Hp, app_assoc|].
    intros s. specialize (Ho s). change (of_symbol s []) with (@nil tick) in Ho.
    rewrite app_nil_r in Ho. now rewrite Ho, app_assoc.
  - simpl. do 3 (split; [reflexivity|]). unfold stored in *. simpl.
    rewrite stored_add_all. split; [now rewrite Hp, app_assoc|].
    intros s. rewrite of_symbol_app, Ho, app_assoc. reflexivity.
Qed.

Lemma handled_ticks_are_stored_once_witness :
  wf_buffer (tick_buffer started) ∧ running started = true
  ∧ stored (stop true (fun _ => 1793707175000000) (foldl act started busy_minute)).1
    = [tick_older; tick_newer; tick_eth; tick_older]
  ∧ of_symbol "btcusdt"
      (stored (stop true (fun _ => 1793707175000000) (foldl act started busy_minute)).1)
    = of_symbol "btcusdt" (stored started)
      ++ of_symbol "btcusdt" (collect (tick_buffer started))
      ++ of_symbol "btcusdt" (arrivals_of busy_minute).
Proof.
  assert (Hwf : wf_buffer (tick_buffer started)).
  { apply (buffer_append_wf [] tick_older), wf_buffer_nil. }
  assert (Hrun : running started = true) by reflexivity.
  split; [exact Hwf|]. split; [exact Hrun|]. split; [vm_compute; reflexivity|].
  exact (proj2 (proj2 (proj2 (proj2
    (handled_ticks_are_stored_once started busy_minute
       (fun _ => 1793707175000000) Hwf Hrun)))) "btcusdt").
Defined.

(** *** Ticks that arrive while an insert is awaited *)

Lemma handle_all_fields (arrived : list (Z * tick)) :
  ∀ w, ticks (handle_all arrived w) = ticks w
       ∧ running (handle_all arrived w) = running w
       ∧ symbols (handle_all arrived w) = symbols w
       ∧ cache (handle_all arrived w)
         = foldl (fun c a => push_tick c a.1 (tick_symbol a.2) a.2 max_size_default)
                 (cache w) arrived.
Proof.
  induction arrived as [|a rest IH]; intros w; [easy|].
  unfold handle_all in *. simpl.
  destruct (IH (_handle_tick a.1 a.2 w)) as (H1 & H2 & H3 & H4).
  rewrite H1, H2, H3, H4. easy.
Qed.

(** A pass whose insert returns stores what the buffer held when the pass
    began and then empties the buffer: the ticks handled while the insert
    was awaited have been pushed to the cache, but they are in the buffer
    no more and are not stored, by this pass or by a later one. *)
Theorem ticks_arriving_during_insert_are_dropped
    (w : world) (utcnow : nat → Z) (arrived : list (Z * tick)) :
  collect (tick_buffer w) ≠ [] →
  let w' := flush_pass true utcnow arrived w in
  stored w' = stored w ++ collect (tick_buffer w)
  ∧ tick_buffer w' = []
  ∧ cache w' = cache (handle_all arrived w)
  ∧ ∀ later utcnow', stored (flush_pass true utcnow' [] (foldl act w' later))
                   ≡ₚ stored w ++ collect (tick_buffer w) ++ arrivals_of later.
Proof.
  intros Hne. cbv zeta.
  assert (E : flush_pass true utcnow arrived w
              = mkWorld (symbols (handle_all arrived w)) []
                        (running (handle_all arrived w))
                        (ws_client (handle_all arrived w))
                        (cache (handle_all arrived w))
                        (add_all utcnow (ticks (handle_all arrived w))
                                      (collect (tick_buffer w)))).
  { unfold flush_pass. destruct (tick_buffer w) as [|kv b'] eqn:Eb; [easy|].
    destruct (collect (kv :: b')) eqn:Ec; [easy|]. reflexivity. }
  rewrite E. destruct (handle_all_fields arrived w) as (Ht & _).
  assert (Hs : stored (mkWorld (symbols (handle_all arrived w)) []
                        (running (handle_all arrived w))
                        (ws_client (handle_all arrived w))
                        (cache (handle_all arrived w))
                        (add_all utcnow (ticks (handle_all arrived w))
                                      (collect (tick_buffer w))))
               = stored w ++ collect (tick_buffer w)).
  { unfold stored. simpl. now rewrite stored_add_all, Ht. }
  split; [exact Hs|]. do 2 (split; [reflexivity|]).
  intros later utcnow'.
  match goal with |- context [foldl act ?w0 later] => set (w0' := w0) in * end.
  destruct (run_invariant later w0' wf_buffer_nil) as (_ & _ & Hp & _).
  cbv zeta in Hp. rewrite Hs in Hp. simpl in Hp. rewrite app_nil_r in Hp.
  rewrite flush_pass_quiet. simpl andb.
  destruct (bool_decide_reflect (collect (tick_buffer (foldl act w0' later)) ≠ []))
    as [Hn | Hn].
  - unfold stored at 1. simpl. rewrite stored_add_all.
    fold (stored (foldl act w0' later)). now rewrite Hp, app_assoc.
  - apply dec_stable in Hn. rewrite Hn, app_nil_r in Hp.
    now rewrite Hp, app_assoc.
Qed.

Lemma ticks_arriving_during_insert_are_dropped_witness :
  collect (tick_buffer started) ≠ []
  ∧ stored (flush_pass true (fun _ => 1793707173000000)
                       [(1793707171000000, tick_newer)] started)
    = [tick_older]
  ∧ tick_buffer (flush_pass true (fun _ => 1793707173000000)
                            [(1793707171000000, tick_newer)] started) = []
  ∧ get_recent_ticks
      (cache (flush_pass true (fun _ => 1793707173000000)
                         [(1793707171000000, tick_newer)] started))
      1793707174000000 "btcusdt" 5
    = [tick_older; tick_newer].
Proof.
  assert (Hne : collect (tick_buffer started) ≠ []) by (vm_compute; discriminate).
  split; [exact Hne|].
  split; [exact (proj1 (ticks_arriving_during_insert_are_dropped started
                   (fun _ => 1793707173000000) [(1793707171000000, tick_newer)] Hne))|].
  split; vm_compute; reflexivity.
Defined.

(** *** The status *)

Lemma buffered_count (b : buffer) :
  fold_right Z.add 0 (map (fun kv : string * list tick => Z.of_nat (length kv.2)) b)
  = Z.of_nat (length (collect b)).
Proof.
  induction b as [|[k ts] rest IH]; [reflexivity|].
  rewrite collect_cons, length_app. simpl. rewrite IH. lia.
Qed.

(** The count [get_status] reports is the number of ticks handled since
    the buffer was last emptied: each tick handled raises it by one,
    whatever its symbol, and a pass whose insert returns sets it to the
    number of ticks that arrived during the insert. *)
Theorem get_status_counts_handled_ticks
    (w : world) (arrived : list (Z * tick)) :
  status_buffered_ticks (get_status (handle_all arrived w))
  = status_buffered_ticks (get_status w) + Z.of_nat (length arrived).
Proof.
  revert w. induction arrived as [|a rest IH]; intros w.
  - simpl. lia.
  - unfold handle_all in *. simpl foldl. rewrite IH.
    unfold get_status, _handle_tick. simpl.
    rewrite !buffered_count.
    rewrite (Permutation_length (buffer_append_collect _ _ _)), length_app.
    simpl. lia.
Qed.

End ManagerFacts.

Module StreamControlFacts.
Import BinanceWs StreamControl.

(** *** Reconnection delays *)

Section RunFacts.
Variable float_of_str : string → option float.
Variable utcoffset : Z → Z.

Abbreviation step := (step float_of_str utcoffset).
Abbreviation run := (run float_of_str utcoffset).

Lemma run_app (evs1 evs2 : list event) :
  ∀ c symbol p,
    run c symbol p (evs1 ++ evs2)
    = let '(c1, p1, out1) := run c symbol p evs1 in
      let '(c2, p2, out2) := run c1 symbol p1 evs2 in
      (c2, p2, out1 ++ out2).
Proof.
  induction evs1 as [|ev rest IH]; intros c symbol p.
  - simpl. now destruct (run c symbol p evs2) as [[c2 p2] out2].
  - simpl. destruct (step c symbol p ev) as [[c1 p1] out].
    rewrite IH. destruct (run c1 symbol p1 rest) as [[c2 p2] outs].
    destruct (run c2 symbol p2 evs2) as [[c3 p3] outs'].
    now rewrite app_assoc.
Qed.

Lemma double_capped (d : Z) (n : nat) :
  1 ≤ d →
  Z.min (Z.min (d * 2) max_reconnect_delay * 2 ^ Z.of_nat n) max_reconnect_delay
  = Z.min (d * 2 ^ Z.of_nat (S n)) max_reconnect_delay.
Proof.
  intros Hd. unfold max_reconnect_delay.
  rewrite Nat2Z.inj_succ, Z.pow_succ_r by lia.
  assert (Hp : 1 ≤ 2 ^ Z.of_nat n) by (apply Z.pow_le_mono_r with (b := 0); lia).
  destruct (Z.le_gt_cases (d * 2) 60) as [H | H].
  - rewrite (Z.min_l (d * 2) 60) by lia. f_equal. ring.
  - rewrite (Z.min_r (d * 2) 60) by lia. nia.
Qed.

Lemma step_failed (c : client) (symbol : string) (d : Z) :
  running c = true →
  step c symbol (AtWhile d) ConnectFailed
  = (mkClient (symbols c) true (connections c ∖ {[symbol]}), Sleeping d, None).
Proof. intros Hrun. unfold BinanceWs.step, cleanup. now rewrite Hrun. Qed.

Lemma run_failures (n : nat) :
  ∀ c symbol d,
    running c = true → 1 ≤ d ≤ max_reconnect_delay →
    ∃ c', run c symbol (AtWhile d) (failures n)
          = (c', AtWhile (Z.min (d * 2 ^ Z.of_nat n) max_reconnect_delay), [])
          ∧ running c' = true ∧ symbols c' = symbols c.
Proof.
  induction n as [|n IH]; intros c symbol d Hrun Hd.
  - exists c. simpl. rewrite Z.mul_1_r, Z.min_l by lia. easy.
  - change (failures (S n)) with (ConnectFailed :: Woken :: failures n).
    cbn [StreamControl.run]. rewrite step_failed by exact Hrun.
    set (c1 := mkClient (symbols c) true (connections c ∖ {[symbol]})).
    change (step c1 symbol (Sleeping d) Woken)
      with (c1, AtWhile (Z.min (d * 2) max_reconnect_delay), @None tick).
    destruct (IH c1 symbol (Z.min (d * 2) max_reconnect_delay))
      as (c' & E & Hr & Hs); [reflexivity | unfold max_reconnect_delay in *; lia |].
    exists c'. rewrite E, double_capped by lia. easy.
Qed.

(** While the client runs, a stream that fails to connect [n] times in a
    row waits 1, 2, 4, ... seconds, never more than 60: the wait after
    the failure number [n + 1] is [min (2 ^ n) 60] seconds, and nothing is
    delivered meanwhile.  A connection that succeeds sets the delay back,
    so that the wait after its loss is 1 second again. *)
Theorem reconnect_delay_doubles_up_to_a_minute
    (c : client) (symbol : string) (n : nat) :
  running c = true →
  (run c symbol (AtWhile 1) (failures n ++ [ConnectFailed])).1.2
  = Sleeping (Z.min (2 ^ Z.of_nat n) 60)
  ∧ (run c symbol (AtWhile 1) (failures n ++ [ConnectFailed])).2 = []
  ∧ (run c symbol (AtWhile 1) (failures n ++ [Connected; StreamEnded])).1.2
    = Sleeping 1.
Proof.
  intros Hrun.
  destruct (run_failures n c symbol 1 Hrun) as (c' & E & Hr & _);
    [unfold max_reconnect_delay; lia|].
  rewrite Z.mul_1_l in E. unfold max_reconnect_delay in E.
  rewrite !run_app, E. simpl. rewrite Hr. unfold cleanup. rewrite Hr. simpl.
  easy.
Qed.

(** *** After [stop] *)

Lemma step_stopped (c : client) (symbol : string) (p : pc) (ev : event) :
  running c = false →
  ∃ c', step c symbol p ev
        = (c', match p with
               | Sleeping d => AtWhile (Z.min (d * 2) max_reconnect_delay)
               | _ => Returned
               end, None)
        ∧ running c' = false ∧ symbols c' = symbols c
        ∧ connections c' ⊆ connections c.
Proof.
  intros Hrun. unfold BinanceWs.step, cleanup. rewrite Hrun.
  destruct p as [d | d | d |].
  - exists c. easy.
  - eexists. split; [destruct ev; reflexivity|]. simpl.
    split; [reflexivity|]. split; [reflexivity|].
    apply elem_of_subseteq. intros x Hx. apply elem_of_difference in Hx. tauto.
  - exists c. easy.
  - exists c. easy.
Qed.

Lemma run_stopped (evs : list event) :
  ∀ c symbol p,
    running c = false →
    ∃ c' p', run c symbol p evs = (c', p', [])
             ∧ running c' = false ∧ symbols c' = symbols c
             ∧ connections c' ⊆ connections c
             ∧ (p = Returned → p' = Returned)
             ∧ ((∀ d, p ≠ Sleeping d) → (1 ≤ length evs)%nat → p' = Returned)
             ∧ ((2 ≤ length evs)%nat → p' = Returned).
Proof.
  induction evs as [|ev rest IH]; intros c symbol p Hrun.
  - exists c, p. simpl. repeat split; try easy; lia.
  - destruct (step_stopped c symbol p ev Hrun) as (c1 & E1 & Hr1 & Hs1 & Hc1).
    cbn [StreamControl.run]. rewrite E1.
    set (p1 := match p with
               | Sleeping d => AtWhile (Z.min (d * 2) max_reconnect_delay)
               | _ => Returned
               end) in *.
    destruct (IH c1 symbol p1 Hr1) as (c2 & p2 & E2 & Hr2 & Hs2 & Hc2 & Ha & Hb & Hc).
    exists c2, p2. rewrite E2. simpl.
    split; [reflexivity|]. split; [exact Hr2|]. split; [congruence|].
    split; [set_solver|].
    split; [intros ->; now apply Ha|].
    split.
    + intros Hns _. apply Ha. unfold p1. destruct p; try reflexivity.
      now destruct (Hns reconnect_delay).
    + intros Hlen. destruct rest as [|ev' rest']; [simpl in Hlen; lia|].
      destruct p; try (apply Ha; reflexivity).
      apply Hb; [unfold p1; discriminate | simpl; lia].
Qed.

(** Once [stop] has run, no stream gives a tick to the callback any more,
    whatever its connection receives: the flag stays cleared, the symbols
    are untouched, and a stream that is resumed twice has returned. *)
Theorem stop_silences_every_stream
    (c : client) (symbol : string) (p : pc) (evs : list event) :
  let r := run (stop c) symbol p evs in
  r.2 = []
  ∧ running r.1.1 = false
  ∧ symbols r.1.1 = symbols c
  ∧ ((2 ≤ length evs)%nat → r.1.2 = Returned).
Proof.
  assert (Hrun : running (stop c) = false).
  { unfold stop. now destruct (running c) eqn:E. }
  assert (Hsym : symbols (stop c) = symbols c).
  { unfold stop. now destruct (running c). }
  destruct (run_stopped evs (stop c) symbol p Hrun)
    as (c' & p' & E & Hr & Hs & _ & _ & _ & Hd).
  cbv zeta. rewrite E. simpl.
  split; [reflexivity|]. split; [exact Hr|]. split; [congruence | exact Hd].
Qed.

End RunFacts.

Lemma reconnect_delay_doubles_up_to_a_minute_witness :
  running running_client = true
  ∧ (StreamControl.run float_of_integer_numeral utc_host running_client "btcusdt"
       (AtWhile 1) (failures 7 ++ [ConnectFailed])).1.2
    = Sleeping (Z.min (2 ^ Z.of_nat 7) 60)
  ∧ Z.min (2 ^ Z.of_nat 7) 60 = 60.
Proof.
  assert (Hrun : running running_client = true) by reflexivity.
  split; [exact Hrun|].
  split; [exact (proj1 (reconnect_delay_doubles_up_to_a_minute
                          float_of_integer_numeral utc_host
                          running_client "btcusdt" 7 Hrun)) | reflexivity].
Defined.

(** *** The tracked symbols *)

Lemma lower_ascii_idempotent (a : ascii) : lower_ascii (lower_ascii a) = lower_ascii a.
Proof. destruct a as [[] [] [] [] [] [] [] []]; reflexivity. Qed.

Lemma lower_idempotent (s : string) : lower (lower s) = lower s.
Proof.
  induction s as [|a s IH]; [reflexivity|].
  simpl. now rewrite lower_ascii_idempotent, IH.
Qed.

Lemma list_remove_spec (x : string) (l : list string) :
  (∀ y, y ∈ list_remove x l → y ∈ l)
  ∧ (NoDup l → NoDup (list_remove x l) ∧ x ∉ list_remove x l).
Proof.
  induction l as [|y rest [IH1 IH2]]; simpl.
  - split; [easy|]. intros _. split; [constructor | apply not_elem_of_nil].
  - destruct (String.eqb_spec y x) as [-> | Hne].
    + split; [intros z Hz; now right|].
      intros Hnd. apply NoDup_cons in Hnd. easy.
    + split.
      * intros z Hz. apply elem_of_cons in Hz as [-> | Hz]; [now left|].
        right. now apply IH1.
      * intros Hnd. apply NoDup_cons in Hnd as [Hy Hnd].
        destruct (IH2 Hnd) as [Hnd' Hx]. split.
        -- apply NoDup_cons. split; [|exact Hnd'].
           intros Hin. apply Hy. now apply IH1.
        -- intros Hin. apply elem_of_cons in Hin as [-> | Hin]; [congruence|].
           contradiction.
Qed.

Lemma list_remove_last (x : string) (l : list string) :
  x ∉ l → list_remove x (l ++ [x]) = l.
Proof.
  induction l as [|y rest IH]; intros Hx; simpl.
  - now rewrite String.eqb_refl.
  - apply not_elem_of_cons in Hx as [Hne Hx].
    destruct (String.eqb_spec y x) as [-> | _]; [congruence|].
    now rewrite IH.
Qed.

(** The symbols a client tracks are compared in lower case and kept in
    lower case: they are so at construction, [add_symbol] and
    [remove_symbol] keep them so and keep them without repetition, a
    symbol added is tracked and a symbol removed is not, in whatever case
    it is given, and removing a symbol that was just added restores the
    list. *)
Theorem tracked_symbols_are_lower_case (c : client) (symbol : string) (l : list string) :
  Forall (fun s => lower s = s) (symbols c) → NoDup (symbols c) →
  Forall (fun s => lower s = s) (symbols (init l))
  ∧ Forall (fun s => lower s = s) (symbols (add_symbol symbol c).1)
  ∧ NoDup (symbols (add_symbol symbol c).1)
  ∧ lower symbol ∈ symbols (add_symbol symbol c).1
  ∧ Forall (fun s => lower s = s) (symbols (remove_symbol symbol c))
  ∧ NoDup (symbols (remove_symbol symbol c))
  ∧ (lower symbol ∉ symbols (remove_symbol symbol c))
  ∧ (lower symbol ∉ symbols c →
     symbols (remove_symbol symbol (add_symbol symbol c).1) = symbols c).
Proof.
  intros Hlow Hnd.
  split.
  { unfold init. simpl. apply Forall_forall. intros s Hs.
    apply list_elem_of_In, in_map_iff in Hs as (s0 & <- & _).
    apply lower_idempotent. }
  unfold add_symbol, remove_symbol.
  destruct (bool_decide_reflect (lower symbol ∈ symbols c)) as [Hin | Hin]; simpl.
  - split; [exact Hlow|]. split; [exact Hnd|]. split; [exact Hin|].
    destruct (list_remove_spec (lower symbol) (symbols c)) as [Hsub Hrm].
    destruct (Hrm Hnd) as [Hnd' Hout].
    split; [|easy].
    rewrite Forall_forall in *. intros s Hs. apply Hlow. now apply Hsub.
  - split.
    { apply Forall_app. split; [exact Hlow|].
      apply Forall_singleton, lower_idempotent. }
    split.
    { apply NoDup_app. split; [exact Hnd|]. split; [|apply NoDup_singleton].
      intros s Hs Hs'. apply list_elem_of_singleton in Hs'. now subst. }
    split; [apply elem_of_app; right; now apply list_elem_of_singleton|].
    split; [exact Hlow|]. split; [exact Hnd|]. split; [exact Hin|].
    intros _. rewrite bool_decide_true
      by (apply elem_of_app; right; now apply list_elem_of_singleton).
    simpl. now apply list_remove_last.
Qed.

Lemma tracked_symbols_are_lower_case_witness :
  Forall (fun s => lower s = s) (symbols running_client)
  ∧ NoDup (symbols running_client)
  ∧ lower "ETHUSDT" ∈ symbols (add_symbol "ETHUSDT" running_client).1
  ∧ (lower "BtcUsdt" ∉ symbols (remove_symbol "BtcUsdt" running_client)).
Proof.
  assert (H1 : Forall (fun s => lower s = s) (symbols running_client))
    by (repeat constructor).
  assert (H2 : NoDup (symbols running_client))
    by (apply (bool_decide_unpack _); vm_compute; exact I).
  split; [exact H1|]. split; [exact H2|].
  pose proof (tracked_symbols_are_lower_case running_client "ETHUSDT" [] H1 H2)
    as (_ & _ & _ & Ha & _).
  pose proof (tracked_symbols_are_lower_case running_client "BtcUsdt" [] H1 H2)
    as (_ & _ & _ & _ & _ & _ & Hb & _).
  split; [exact Ha | exact Hb].
Defined.

End StreamControlFacts.

Module ManagerSymbolsFacts.
Import RedisCache Manager.

(** *** The symbols of the manager and of its stream client *)

Lemma map_lower_id (l : list string) :
  Forall (fun s => BinanceWs.lower s = s) l → map BinanceWs.lower l = l.
Proof.
  induction 1 as [|s l Hs _ IH]; [reflexivity|]. simpl. now rewrite Hs, IH.
Qed.

(** As long as every symbol is given in lower case, the manager and its
    stream client track the same symbols, in the same order: at
    construction, and after any [add_symbol] or [remove_symbol]. *)
Theorem lower_case_symbols_keep_manager_and_client_together
    (w : world) (symbol : string) :
  agree w → BinanceWs.lower symbol = symbol →
  agree (add_symbol symbol w) ∧ agree (remove_symbol symbol w)
  ∧ ∀ l c tbl, Forall (fun s => BinanceWs.lower s = s) l → agree (init l c tbl).
Proof.
  unfold agree. intros Hag Hlow. split; [|split].
  - unfold add_symbol, BinanceWs.add_symbol. cbv zeta. rewrite Hlow, <- Hag.
    destruct (bool_decide (symbol ∈ symbols w)); simpl; [exact Hag|].
    now rewrite Hag.
  - unfold remove_symbol, BinanceWs.remove_symbol. cbv zeta. rewrite Hlow, <- Hag.
    destruct (bool_decide (symbol ∈ symbols w)); simpl; [|exact Hag].
    now rewrite Hag.
  - intros l c tbl Hl. unfold init, StreamControl.init. simpl.
    now rewrite map_lower_id.
Qed.

Lemma lower_case_symbols_keep_manager_and_client_together_witness :
  agree started ∧ BinanceWs.lower "solusdt" = "solusdt"
  ∧ agree (add_symbol "solusdt" started)
  ∧ symbols (add_symbol "solusdt" started) = ["btcusdt"; "ethusdt"; "solusdt"].
Proof.
  assert (H1 : agree started) by reflexivity.
  assert (H2 : BinanceWs.lower "solusdt" = "solusdt") by reflexivity.
  split; [exact H1|]. split; [exact H2|].
  split; [|reflexivity].
  exact (proj1 (lower_case_symbols_keep_manager_and_client_together
                  started "solusdt" H1 H2)).
Defined.

(** A symbol given in another case than the one tracked sets the two
    lists apart.  The manager compares as given and the client in lower
    case: [add_symbol] adds the symbol to the manager alone, and the
    [remove_symbol] that undoes it for the manager removes the lower-case
    symbol from the client, which the manager still lists. *)
Theorem mixed_case_symbol_sets_manager_and_client_apart
    (w : world) (symbol : string) :
  agree w → NoDup (symbols w) →
  Forall (fun s => BinanceWs.lower s = s) (symbols w) →
  BinanceWs.lower symbol ≠ symbol → BinanceWs.lower symbol ∈ symbols w →
  symbols (add_symbol symbol w) = symbols w ++ [symbol]
  ∧ BinanceWs.symbols (ws_client (add_symbol symbol w)) = symbols w
  ∧ symbols (remove_symbol symbol (add_symbol symbol w)) = symbols w
  ∧ (BinanceWs.lower symbol
       ∉ BinanceWs.symbols (ws_client (remove_symbol symbol (add_symbol symbol w)))).
Proof.
  unfold agree. intros Hag Hnd Hlow Hne Hin.
  assert (Hout : symbol ∉ symbols w).
  { intros H. rewrite Forall_forall in Hlow. now apply Hne, Hlow. }
  assert (Eadd : add_symbol symbol w
                 = mkWorld (symbols w ++ [symbol]) (tick_buffer w) (running w)
                           (ws_client w) (cache w) (ticks w)).
  { unfold add_symbol. rewrite bool_decide_false by exact Hout.
    unfold BinanceWs.add_symbol. cbv zeta.
    rewrite bool_decide_true by (now rewrite <- Hag). reflexivity. }
  rewrite Eadd. unfold remove_symbol. cbn [symbols ws_client].
  rewrite bool_decide_true
    by (apply elem_of_app; right; now apply list_elem_of_singleton).
  cbn [symbols ws_client].
  split; [reflexivity|]. split; [now rewrite Hag|].
  split; [now apply StreamControlFacts.list_remove_last|].
  unfold BinanceWs.remove_symbol. cbv zeta.
  rewrite bool_decide_true by (now rewrite <- Hag). simpl. rewrite <- Hag.
  now apply StreamControlFacts.list_remove_spec.
Qed.

Lemma mixed_case_symbol_sets_manager_and_client_apart_witness :
  agree started ∧ NoDup (symbols started)
  ∧ Forall (fun s => BinanceWs.lower s = s) (symbols started)
  ∧ BinanceWs.lower "BTCUSDT" ≠ "BTCUSDT"
  ∧ BinanceWs.lower "BTCUSDT" ∈ symbols started
  ∧ symbols (remove_symbol "BTCUSDT" (add_symbol "BTCUSDT" started))
    = ["btcusdt"; "ethusdt"]
  ∧ BinanceWs.symbols
      (ws_client (remove_symbol "BTCUSDT" (add_symbol "BTCUSDT" started)))
    = ["ethusdt"].
Proof.
  assert (H1 : agree started) by reflexivity.
  assert (H2 : NoDup (symbols started))
    by (apply (bool_decide_unpack _); vm_compute; exact I).
  assert (H3 : Forall (fun s => BinanceWs.lower s = s) (symbols started))
    by (repeat constructor).
  assert (H4 : BinanceWs.lower "BTCUSDT" ≠ "BTCUSDT") by discriminate.
  assert (H5 : BinanceWs.lower "BTCUSDT" ∈ symbols started)
    by (apply (bool_decide_unpack _); vm_compute; exact I).
  do 5 (split; [assumption|]).
  split; [|vm_compute; reflexivity].
  exact (proj1 (proj2 (proj2 (mixed_case_symbol_sets_manager_and_client_apart
                                started "BTCUSDT" H1 H2 H3 H4 H5)))).
Defined.

End ManagerSymbolsFacts.

Module AlertEvaluationFacts.
Import Database RedisCache Storage AlertEngine AlertEvaluation.

(** *** Values that are not numbers *)

Lemma SFcompare_nan_l (y : spec_float) : SFcompare S754_nan y = None.
Proof. reflexivity. Qed.

Lemma SFcompare_nan_r (x : spec_float) : SFcompare x S754_nan = None.
Proof. now destruct x. Qed.

Lemma SFcompare_refl (x : spec_float) : x ≠ S754_nan → SFcompare x x = Some Eq.
Proof.
  destruct x as [s | s | | s m e]; intros H; try congruence; simpl.
  - reflexivity.
  - now destruct s.
  - rewrite Z.compare_refl, Pos.compare_cont_refl. now destruct s.
Qed.

Lemma is_nan_spec (x : float) : is_nan x = true ↔ Prim2SF x = S754_nan.
Proof.
  unfold is_nan. rewrite FloatAxioms.eqb_spec. unfold SFeqb. split.
  - intros H. destruct (Prim2SF x) eqn:E; try reflexivity;
      rewrite SFcompare_refl in H by discriminate; discriminate H.
  - intros ->. reflexivity.
Qed.

Lemma ltb_nan (x y : float) :
  Prim2SF x = S754_nan ∨ Prim2SF y = S754_nan → PrimFloat.ltb x y = false.
Proof.
  intros H. rewrite FloatAxioms.ltb_spec. unfold SFltb.
  destruct H as [-> | ->]; [reflexivity | now rewrite SFcompare_nan_r].
Qed.

Lemma leb_nan (x y : float) :
  Prim2SF x = S754_nan ∨ Prim2SF y = S754_nan → PrimFloat.leb x y = false.
Proof.
  intros H. rewrite FloatAxioms.leb_spec. unfold SFleb.
  destruct H as [-> | ->]; [reflexivity | now rewrite SFcompare_nan_r].
Qed.

Lemma abs_sub_nan (x y : float) :
  Prim2SF x = S754_nan ∨ Prim2SF y = S754_nan →
  Prim2SF (PrimFloat.abs (PrimFloat.sub x y)) = S754_nan.
Proof.
  intros H. rewrite FloatAxioms.abs_spec, FloatAxioms.sub_spec.
  destruct H as [-> | ->]; [reflexivity|]. now destruct (Prim2SF x).
Qed.

Lemma nan_value_free (value threshold : float) (condition : string) :
  is_nan value = true → _evaluate_condition value condition threshold = false.
Proof.
  rewrite is_nan_spec. intros H. unfold _evaluate_condition.
  rewrite (ltb_nan threshold value) by tauto.
  rewrite (ltb_nan value threshold) by tauto.
  rewrite (leb_nan threshold value) by tauto.
  rewrite (leb_nan value threshold) by tauto.
  rewrite (ltb_nan (PrimFloat.abs (PrimFloat.sub value threshold)))
    by (left; apply abs_sub_nan; tauto).
  now repeat destruct (String.eqb _ _).
Qed.

(** A value that is not a number fires no alert: with NaN for the value
    or for the threshold, [_evaluate_condition] is false under every
    condition, ["=="] included. *)
Theorem nan_meets_no_condition (value threshold : float) (condition : string) :
  is_nan value = true ∨ is_nan threshold = true →
  _evaluate_condition value condition threshold = false.
Proof.
  rewrite !is_nan_spec. intros H. unfold _evaluate_condition.
  rewrite (ltb_nan threshold value) by tauto.
  rewrite (ltb_nan value threshold) by tauto.
  rewrite (leb_nan threshold value) by tauto.
  rewrite (leb_nan value threshold) by tauto.
  rewrite (ltb_nan (PrimFloat.abs (PrimFloat.sub value threshold)))
    by (left; now apply abs_sub_nan).
  now repeat destruct (String.eqb _ _).
Qed.


Lemma nan_meets_no_condition_witness :
  (is_nan nan = true ∨ is_nan 100 = true)
  ∧ _evaluate_condition nan "<=" 100 = false
  ∧ _evaluate_condition 100 "<=" 100 = true.
Proof.
  assert (H : is_nan nan = true ∨ is_nan 100 = true) by (left; reflexivity).
  split; [exact H|]. split; [|reflexivity].
  exact (nan_meets_no_condition nan 100 "<=" H).
Defined.

(** *** Alerts that cannot fire *)

Section EvaluateFacts.
Variable current_zscore : string → string → option float.
Variable current_volume : string → option float.
Variable rolling_volatility : string → option float.

Abbreviation metric_value :=
  (metric_value current_zscore current_volume rolling_volatility).
Abbreviation _evaluate_alert :=
  (_evaluate_alert current_zscore current_volume rolling_volatility).

(** An alert fires only on a metric and a condition the engine knows.
    When it fires, the trigger carries the alert's own fields and a value
    that meets the condition and is a number; it is [None] for every
    other metric, ["spread"] for one, for every other condition, for a
    z-score alert whose symbol has no underscore, and for a price alert
    when the cache holds no tick for the symbol as the alert spells it. *)
Theorem alert_fires_only_on_known_metric_and_condition
    (c : cache) (now utcnow : Z) (a : Alert) :
  (∀ tr, _evaluate_alert c now utcnow a = Some tr →
     alert_metric a ∈ ["price"; "z_score"; "volume"; "volatility"]
     ∧ alert_condition a ∈ [">"; "<"; ">="; "<="; "=="]
     ∧ metric_value c now (alert_symbol a) (alert_metric a) = Some (trigger_value tr)
     ∧ _evaluate_condition (trigger_value tr) (alert_condition a) (alert_threshold a)
       = true
     ∧ is_nan (trigger_value tr) = false
     ∧ tr = mkTrigger (alert_id a) (alert_name a) (alert_symbol a) (alert_metric a)
                      (trigger_value tr) (alert_condition a) (alert_threshold a) utcnow)
  ∧ (alert_metric a ∉ ["price"; "z_score"; "volume"; "volatility"] →
     _evaluate_alert c now utcnow a = None)
  ∧ (alert_condition a ∉ [">"; "<"; ">="; "<="; "=="] →
     _evaluate_alert c now utcnow a = None)
  ∧ (alert_metric a = "z_score" → split_underscore (alert_symbol a) = None →
     _evaluate_alert c now utcnow a = None)
  ∧ (alert_metric a = "price" → get_recent_ticks c now (alert_symbol a) 1 = [] →
     _evaluate_alert c now utcnow a = None).
Proof.
  assert (Hmetric : ∀ v, metric_value c now (alert_symbol a) (alert_metric a) = Some v →
                         alert_metric a ∈ ["price"; "z_score"; "volume"; "volatility"]).
  { intros v. unfold AlertEvaluation.metric_value.
    destruct (String.eqb_spec (alert_metric a) "price") as [-> | _];
      [intros _; apply (bool_decide_unpack _); vm_compute; exact I|].
    destruct (String.eqb_spec (alert_metric a) "z_score") as [-> | _];
      [intros _; apply (bool_decide_unpack _); vm_compute; exact I|].
    destruct (String.eqb_spec (alert_metric a) "volume") as [-> | _];
      [intros _; apply (bool_decide_unpack _); vm_compute; exact I|].
    destruct (String.eqb_spec (alert_metric a) "volatility") as [-> | _];
      [intros _; apply (bool_decide_unpack _); vm_compute; exact I | discriminate]. }
  assert (Hcond : ∀ v, _evaluate_condition v (alert_condition a) (alert_threshold a) = true →
                       alert_condition a ∈ [">"; "<"; ">="; "<="; "=="]).
  { intros v. unfold _evaluate_condition.
    destruct (String.eqb_spec (alert_condition a) ">") as [-> | _];
      [intros _; apply (bool_decide_unpack _); vm_compute; exact I|].
    destruct (String.eqb_spec (alert_condition a) "<") as [-> | _];
      [intros _; apply (bool_decide_unpack _); vm_compute; exact I|].
    destruct (String.eqb_spec (alert_condition a) ">=") as [-> | _];
      [intros _; apply (bool_decide_unpack _); vm_compute; exact I|].
    destruct (String.eqb_spec (alert_condition a) "<=") as [-> | _];
      [intros _; apply (bool_decide_unpack _); vm_compute; exact I|].
    destruct (String.eqb_spec (alert_condition a) "==") as [-> | _];
      [intros _; apply (bool_decide_unpack _); vm_compute; exact I | discriminate]. }
  unfold AlertEvaluation._evaluate_alert.
  split; [|split; [|split; [|split]]].
  - intros tr.
    destruct (metric_value c now (alert_symbol a) (alert_metric a)) as [v|] eqn:Ev;
      [|discriminate].
    destruct (_evaluate_condition v (alert_condition a) (alert_threshold a)) eqn:Ec;
      [|discriminate].
    intros E. injection E as <-. simpl.
    split; [now apply (Hmetric v)|]. split; [now apply (Hcond v)|].
    split; [reflexivity|]. split; [exact Ec|]. split; [|reflexivity].
    destruct (is_nan v) eqn:En; [|reflexivity].
    rewrite nan_value_free in Ec; [discriminate | exact En].
  - intros Hout.
    destruct (metric_value c now (alert_symbol a) (alert_metric a)) as [v|] eqn:Ev;
      [|reflexivity].
    now destruct (Hout (Hmetric v eq_refl)).
  - intros Hout.
    destruct (metric_value c now (alert_symbol a) (alert_metric a)) as [v|];
      [|reflexivity].
    destruct (_evaluate_condition v (alert_condition a) (alert_threshold a)) eqn:Ec;
      [|reflexivity].
    now destruct (Hout (Hcond v Ec)).
  - intros Em Es. unfold AlertEvaluation.metric_value. rewrite Em, Es. reflexivity.
  - intros Em Er. unfold AlertEvaluation.metric_value. rewrite Em, Er. reflexivity.
Qed.

End EvaluateFacts.

(** The metric the model of the table names in its comment beside
    ['z_score'] and ['price'] is not one the engine evaluates. *)
Example spread_alert_never_fires :
  evaluate_at_101 spread_alert = None
  ∧ trigger_value <$> evaluate_at_101 (mkAlert 1 "high" "btcusdt" "price" ">" 100 1 0 None)
    = Some 101%float.
Proof. split; vm_compute; reflexivity. Qed.

(** *** One pass of the evaluation loop *)

Lemma slice_from_neg (k : Z) (l : list trigger) :
  1 ≤ k → slice_from (- k) l = last_n (Z.to_nat k) l.
Proof.
  intros Hk. unfold slice_from, last_n. cbv zeta.
  rewrite (proj2 (Z.ltb_lt (- k) 0)) by lia. f_equal. lia.
Qed.

Lemma slice_from_0 (l : list trigger) : slice_from 0 l = l.
Proof.
  unfold slice_from. cbv zeta. change (0 <? 0) with false. cbv iota.
  rewrite Z.min_l by lia. reflexivity.
Qed.

Lemma append_trigger_last_n (tr : trigger) (l : list trigger) :
  append_trigger tr l = last_n 100 (l ++ [tr]).
Proof.
  unfold append_trigger. cbv zeta.
  destruct (Z.ltb_spec 100 (Z.of_nat (length (l ++ [tr])))) as [H | H].
  - now rewrite (slice_from_neg 100) by lia.
  - unfold last_n. replace (length (l ++ [tr]) - 100)%nat with 0%nat by lia.
    reflexivity.
Qed.

Lemma last_n_app (n : nat) (x y : list trigger) :
  last_n n (last_n n x ++ y) = last_n n (x ++ y).
Proof.
  unfold last_n. rewrite !length_app, length_drop.
  destruct (Nat.le_gt_cases (length x) n) as [H | H].
  - replace (length x - n)%nat with 0%nat by lia. simpl.
    do 2 f_equal. lia.
  - replace (length x - (length x - n) + length y - n)%nat with (length y) by lia.
    replace (length x + length y - n)%nat with ((length x - n) + length y)%nat by lia.
    rewrite <- drop_drop. rewrite (drop_app_le x) by lia. reflexivity.
Qed.

Lemma last_n_length (n : nat) (l : list trigger) : (length (last_n n l) ≤ n)%nat.
Proof. unfold last_n. rewrite length_drop. lia. Qed.

Lemma last_n_all (n : nat) (l : list trigger) : (length l ≤ n)%nat → last_n n l = l.
Proof.
  intros H. unfold last_n. now replace (length l - n)%nat with 0%nat by lia.
Qed.

Lemma last_n_last_n (n m : nat) (l : list trigger) :
  last_n n (last_n m l) = last_n (n `min` m) l.
Proof.
  unfold last_n. rewrite length_drop, drop_drop. f_equal. lia.
Qed.

Lemma foldl_append_trigger (fired : list trigger) :
  ∀ triggered,
    (length triggered ≤ 100)%nat →
    foldl (fun l tr => append_trigger tr l) triggered fired
    = last_n 100 (triggered ++ fired).
Proof.
  induction fired as [|tr rest IH]; intros triggered Hlen; simpl.
  - rewrite app_nil_r. symmetry. now apply last_n_all.
  - rewrite IH by (rewrite append_trigger_last_n; apply last_n_length).
    rewrite append_trigger_last_n, last_n_app, <- app_assoc. reflexivity.
Qed.

Lemma wf_alerts_inj (tbl : list Alert) (x a : Alert) :
  wf_alerts tbl → x ∈ tbl → a ∈ tbl → alert_id x = alert_id a → x = a.
Proof.
  unfold wf_alerts. induction tbl as [|y tbl IH]; intros Hnd Hx Ha E.
  - now apply elem_of_nil in Hx.
  - simpl in Hnd. apply NoDup_cons in Hnd as [Hy Hnd].
    apply elem_of_cons in Hx as [-> | Hx]; apply elem_of_cons in Ha as [-> | Ha].
    + reflexivity.
    + exfalso. apply Hy. rewrite E. apply list_elem_of_In, in_map, list_elem_of_In, Ha.
    + exfalso. apply Hy. rewrite <- E.
      apply list_elem_of_In, in_map, list_elem_of_In, Hx.
    + now apply IH.
Qed.

Lemma update_alert_trigger_map (t id : Z) (tbl : list Alert) :
  wf_alerts tbl →
  update_alert_trigger t id tbl
  = inr (map (fun x => if alert_id x =? id then triggered_at t x else x) tbl).
Proof.
  intros Hwf. unfold update_alert_trigger.
  destruct (decide (id ∈ map alert_id tbl)) as [Hin | Hout].
  - apply list_elem_of_In, in_map_iff in Hin as (a & <- & Ha).
    apply list_elem_of_In in Ha.
    now rewrite (StorageFacts.alert_filter_present tbl a Hwf Ha).
  - rewrite (StorageFacts.alert_filter_absent _ _ Hout). simpl. f_equal.
    rewrite <- (map_id tbl) at 1. apply map_ext_in. intros a Ha.
    destruct (Z.eqb_spec (alert_id a) id) as [E|E]; [|reflexivity].
    exfalso. apply Hout. rewrite <- E. apply list_elem_of_In, in_map, Ha.
Qed.

Section LoopFacts.
Variable evaluate : Alert → option trigger.
Variable utcnow : Alert → Z.

Abbreviation evaluate_each := (evaluate_each evaluate utcnow).
Abbreviation evaluation_pass := (evaluation_pass evaluate utcnow).
Abbreviation stamped := (stamped evaluate utcnow).
Abbreviation fires := (fires evaluate).

Lemma stamped_id (done : list Alert) (x : Alert) :
  alert_id (stamped done x) = alert_id x.
Proof.
  unfold AlertEvaluation.stamped. now destruct (_ && _).
Qed.

Lemma evaluate_each_spec (tbl0 : list Alert) (rest : list Alert) :
  ∀ done triggered,
    wf_alerts tbl0 →
    (∀ a, a ∈ done ++ rest → a ∈ tbl0) →
    NoDup (map alert_id (done ++ rest)) →
    evaluate_each rest (map (stamped done) tbl0) triggered
    = (None, map (stamped (done ++ rest)) tbl0,
       foldl (fun l tr => append_trigger tr l) triggered (omap evaluate rest)).
Proof.
  induction rest as [|a rest IH]; intros done triggered Hwf Hsub Hnd.
  - now rewrite app_nil_r.
  - assert (Ha : a ∈ tbl0)
      by (apply Hsub, elem_of_app; right; now left).
    assert (Hfresh : alert_id a ∉ map alert_id done).
    { rewrite map_app in Hnd. apply NoDup_app in Hnd as (_ & Hd & _).
      intros Hin. apply (Hd _ Hin). simpl. now left. }
    assert (Hsub' : ∀ x, x ∈ (done ++ [a]) ++ rest → x ∈ tbl0)
      by (intros x; rewrite <- app_assoc; apply Hsub).
    assert (Hnd' : NoDup (map alert_id ((done ++ [a]) ++ rest)))
      by now rewrite <- app_assoc.
    assert (Hids : ∀ x, alert_id x ∈ map alert_id (done ++ [a])
                        ↔ alert_id x ∈ map alert_id done ∨ alert_id x = alert_id a).
    { intros x. rewrite map_app, elem_of_app. simpl.
      now rewrite list_elem_of_singleton. }
    replace (done ++ a :: rest) with ((done ++ [a]) ++ rest)
      by now rewrite <- app_assoc.
    simpl. destruct (evaluate a) as [tr|] eqn:Ev.
    + rewrite update_alert_trigger_map.
      2:{ unfold wf_alerts. rewrite map_map.
          erewrite map_ext; [exact Hwf|]. intros x. apply stamped_id. }
      rewrite map_map.
      rewrite (map_ext_in _ (stamped (done ++ [a])) tbl0).
      * now apply IH.
      * intros x Hx. apply list_elem_of_In in Hx. rewrite stamped_id.
        unfold AlertEvaluation.stamped.
        destruct (Z.eqb_spec (alert_id x) (alert_id a)) as [E | E].
        -- assert (x = a) by now apply (wf_alerts_inj tbl0). subst x.
           rewrite (bool_decide_false _ Hfresh). simpl.
           rewrite (bool_decide_true (alert_id a ∈ map alert_id (done ++ [a])))
             by (apply Hids; now right).
           rewrite Ev.
           now rewrite (bool_decide_true (is_Some (Some tr))) by (now exists tr).
        -- destruct (decide (alert_id x ∈ map alert_id done)) as [Hin | Hout].
           ++ rewrite (bool_decide_true _ Hin).
              now rewrite (bool_decide_true (alert_id x ∈ map alert_id (done ++ [a])))
                by (apply Hids; now left).
           ++ rewrite (bool_decide_false _ Hout).
              rewrite (bool_decide_false (alert_id x ∈ map alert_id (done ++ [a])));
                [reflexivity|].
              intros H. apply Hids in H. tauto.
    + rewrite (map_ext_in (stamped done) (stamped (done ++ [a])) tbl0).
      * now apply IH.
      * intros x Hx. apply list_elem_of_In in Hx.
        unfold AlertEvaluation.stamped.
        destruct (decide (alert_id x ∈ map alert_id done)) as [Hin | Hout].
        -- rewrite (bool_decide_true _ Hin).
           now rewrite (bool_decide_true (alert_id x ∈ map alert_id (done ++ [a])))
             by (apply Hids; now left).
        -- rewrite (bool_decide_false _ Hout). simpl.
           destruct (decide (alert_id x = alert_id a)) as [E | E].
           ++ assert (x = a) by now apply (wf_alerts_inj tbl0). subst x.
              rewrite Ev. rewrite (bool_decide_false (is_Some None)).
              ** now rewrite andb_false_r.
              ** now intros [? ?].
           ++ rewrite (bool_decide_false (alert_id x ∈ map alert_id (done ++ [a])));
                [reflexivity|].
              intros H. apply Hids in H. tauto.
Qed.

Lemma active_sublist (tbl : list Alert) :
  (∀ a, a ∈ get_alerts true tbl ↔ a ∈ tbl ∧ alert_is_active a = 1)
  ∧ (wf_alerts tbl → NoDup (map alert_id (get_alerts true tbl))).
Proof.
  split.
  - intros a. unfold get_alerts.
    rewrite list_elem_of_In, filter_In, <- list_elem_of_In, Z.eqb_eq. tauto.
  - unfold wf_alerts, get_alerts. induction tbl as [|x tbl IH]; intros Hnd.
    + constructor.
    + simpl in Hnd. apply NoDup_cons in Hnd as [Hx Hnd]. simpl.
      destruct (alert_is_active x =? 1); [|auto]. simpl.
      apply NoDup_cons. split; [|auto].
      intros Hin. apply Hx.
      apply list_elem_of_In, in_map_iff in Hin as (y & Ey & Hy).
      apply filter_In in Hy as [Hy _]. rewrite <- Ey.
      apply list_elem_of_In, in_map, Hy.
Qed.

Lemma evaluation_pass_spec (tbl : list Alert) (triggered : list trigger) :
  wf_alerts tbl →
  evaluation_pass tbl triggered
  = (None,
     map (fun a => if fires a then triggered_at (utcnow a) a else a) tbl,
     foldl (fun l tr => append_trigger tr l) triggered
           (omap evaluate (get_alerts true tbl))).
Proof.
  intros Hwf. destruct (active_sublist tbl) as [Hact Hnd].
  unfold AlertEvaluation.evaluation_pass.
  assert (E0 : map (stamped []) tbl = tbl).
  { rewrite <- (map_id tbl) at 2. apply map_ext. intros x.
    unfold AlertEvaluation.stamped.
    rewrite (bool_decide_false (alert_id x ∈ map alert_id []));
      [reflexivity | apply not_elem_of_nil]. }
  pose proof (evaluate_each_spec tbl (get_alerts true tbl) [] triggered Hwf) as Hspec.
  rewrite E0 in Hspec.
  change ([] ++ get_alerts true tbl) with (get_alerts true tbl) in Hspec.
  rewrite Hspec.
  - do 2 f_equal. apply map_ext_in. intros x Hx.
    apply list_elem_of_In in Hx.
    unfold AlertEvaluation.stamped, AlertEvaluation.fires.
    destruct (Z.eqb_spec (alert_is_active x) 1) as [E | E].
    + rewrite (bool_decide_true (alert_id x ∈ map alert_id (get_alerts true tbl)));
        [reflexivity|].
      apply list_elem_of_In, in_map, list_elem_of_In, Hact. now split.
    + rewrite (bool_decide_false (alert_id x ∈ map alert_id (get_alerts true tbl)));
        [reflexivity|].
      intros Hin. apply list_elem_of_In, in_map_iff in Hin as (y & Ey & Hy).
      apply list_elem_of_In, Hact in Hy as [Hy Hy1].
      assert (y = x) by now apply (wf_alerts_inj tbl). now subst y.
  - intros a Ha. now apply Hact in Ha.
  - now apply Hnd.
Qed.

(** A pass over a table with unique primary keys never raises.  It sets
    [last_triggered] of exactly the alerts that are active and fire, each
    to the clock reading of its own update, and changes nothing else: an
    inactive alert is not evaluated, and the keys and the set of active
    alerts are as before. *)
Theorem evaluation_pass_stamps_the_alerts_that_fire
    (tbl : list Alert) (triggered : list trigger) :
  wf_alerts tbl →
  let r := evaluation_pass tbl triggered in
  r.1.1 = None
  ∧ r.1.2 = map (fun a => if fires a then triggered_at (utcnow a) a else a) tbl
  ∧ map alert_id r.1.2 = map alert_id tbl
  ∧ wf_alerts r.1.2
  ∧ (∀ a, a ∈ tbl → alert_is_active a ≠ 1 → a ∈ r.1.2)
  ∧ (∀ a, a ∈ tbl → evaluate a = None → a ∈ r.1.2).
Proof.
  intros Hwf. cbv zeta. rewrite (evaluation_pass_spec tbl triggered Hwf). simpl.
  set (f := fun a => if fires a then triggered_at (utcnow a) a else a).
  assert (Hids : map alert_id (map f tbl) = map alert_id tbl).
  { rewrite map_map. apply map_ext. intros a. unfold f. now destruct (fires a). }
  split; [reflexivity|]. split; [reflexivity|]. split; [exact Hids|].
  split; [unfold wf_alerts; now rewrite Hids|].
  split.
  - intros a Ha Hina. apply list_elem_of_In, in_map_iff. exists a.
    split; [|now apply list_elem_of_In].
    unfold f, AlertEvaluation.fires.
    now destruct (Z.eqb_spec (alert_is_active a) 1).
  - intros a Ha Hev. apply list_elem_of_In, in_map_iff. exists a.
    split; [|now apply list_elem_of_In].
    unfold f, AlertEvaluation.fires. rewrite Hev.
    rewrite (bool_decide_false (is_Some None)) by (now intros [? ?]).
    now rewrite andb_false_r.
Qed.

(** The engine keeps the last hundred triggers.  After a pass,
    [triggered_alerts] holds the last 100 of the triggers it held before
    followed by those of the active alerts that fired, in the order of
    the table; [get_recent_triggers(limit)] returns the last [limit] of
    them, oldest first, and all of them when [limit] is 0. *)
Theorem triggers_are_kept_to_the_last_hundred
    (tbl : list Alert) (triggered : list trigger) :
  wf_alerts tbl → (length triggered ≤ 100)%nat →
  let r := evaluation_pass tbl triggered in
  let all := triggered ++ omap evaluate (get_alerts true tbl) in
  r.2 = last_n 100 all
  ∧ (length r.2 ≤ 100)%nat
  ∧ (∀ limit, 1 ≤ limit →
       get_recent_triggers limit r.2 = last_n (Z.to_nat (Z.min limit 100)) all)
  ∧ get_recent_triggers 0 r.2 = r.2.
Proof.
  intros Hwf Hlen. cbv zeta. rewrite (evaluation_pass_spec tbl triggered Hwf). simpl.
  rewrite foldl_append_trigger by exact Hlen.
  split; [reflexivity|]. split; [apply last_n_length|]. split.
  - intros limit Hl. unfold get_recent_triggers.
    rewrite slice_from_neg by exact Hl. rewrite last_n_last_n. f_equal. lia.
  - unfold get_recent_triggers. apply slice_from_0.
Qed.

End LoopFacts.

Lemma evaluation_pass_stamps_the_alerts_that_fire_witness :
  wf_alerts stored_alerts
  ∧ (evaluation_pass evaluate_at_101 (fun _ => 1793707173000000) stored_alerts []).1.2
    = [mkAlert 1 "high" "btcusdt" "price" ">" 100 1 0 (Some 1793707173000000);
       mkAlert 2 "quiet" "ethusdt" "volume" "<" 5 0 0 None].
Proof.
  assert (Hwf : wf_alerts stored_alerts).
  { unfold wf_alerts. apply (bool_decide_unpack _). vm_compute. exact I. }
  split; [exact Hwf|].
  rewrite (proj1 (proj2 (evaluation_pass_stamps_the_alerts_that_fire
                           evaluate_at_101 (fun _ => 1793707173000000)
                           stored_alerts [] Hwf))).
  vm_compute. reflexivity.
Defined.

Lemma triggers_are_kept_to_the_last_hundred_witness :
  wf_alerts stored_alerts ∧ (length (@nil trigger) ≤ 100)%nat
  ∧ (evaluation_pass evaluate_at_101 (fun _ => 1793707173000000) stored_alerts []).2
    = last_n 100 ([] ++ omap evaluate_at_101 (get_alerts true stored_alerts))
  ∧ map trigger_alert_id
        (omap evaluate_at_101 (get_alerts true stored_alerts)) = [1].
Proof.
  assert (Hwf : wf_alerts stored_alerts).
  { unfold wf_alerts. apply (bool_decide_unpack _). vm_compute. exact I. }
  assert (Hlen : (length (@nil trigger) ≤ 100)%nat) by (simpl; lia).
  split; [exact Hwf|]. split; [exact Hlen|].
  split; [|vm_compute; reflexivity].
  exact (proj1 (triggers_are_kept_to_the_last_hundred
                  evaluate_at_101 (fun _ => 1793707173000000)
                  stored_alerts [] Hwf Hlen)).
Defined.

(** *** From the stream to a price alert *)

(** A price alert reads the tick the manager handled last.  Once the
    manager has handled a tick, with the cache connected, a price alert
    on the symbol of the tick, spelled as the tick has it, evaluated
    within the hour, fires exactly when the price of that tick meets its
    condition, and the trigger carries that price. *)
Theorem price_alert_reads_the_last_tick_handled
    (current_zscore : string → string → option float)
    (current_volume rolling_volatility : string → option float)
    (w : Manager.world) (db : redis) (now now' utcnow : Z) (t : tick) (a : Alert) :
  Manager.cache w = mkCache true (Some db) →
  alert_metric a = "price" → alert_symbol a = tick_symbol t →
  now' < now + ttl →
  _evaluate_alert current_zscore current_volume rolling_volatility
                  (Manager.cache (Manager._handle_tick now t w)) now' utcnow a
  = if _evaluate_condition (tick_price t) (alert_condition a) (alert_threshold a)
    then Some (mkTrigger (alert_id a) (alert_name a) (tick_symbol t) "price"
                         (tick_price t) (alert_condition a) (alert_threshold a)
                         utcnow)
    else None.
Proof.
  intros Hc Hm Hs Hlive.
  unfold _evaluate_alert, metric_value. rewrite Hm, Hs. simpl String.eqb. cbv iota.
  unfold Manager._handle_tick. cbn [Manager.cache]. rewrite Hc.
  rewrite RedisCacheFacts.push_tick_read
    by (unfold max_size_default; lia || assumption).
  change (Z.to_nat (Z.min 1 max_size_default)) with 1%nat.
  rewrite RedisCacheFacts.last_reverse_take_cons. reflexivity.
Qed.

Lemma price_alert_reads_the_last_tick_handled_witness :
  Manager.cache (Manager.init ["btcusdt"] connected_empty [])
  = mkCache true (Some ∅)
  ∧ alert_metric (mkAlert 1 "high" "btcusdt" "price" ">" 100 1 0 None) = "price"
  ∧ alert_symbol (mkAlert 1 "high" "btcusdt" "price" ">" 100 1 0 None)
    = tick_symbol tick_newer
  ∧ 1793707172000000 < 1793707171000000 + ttl
  ∧ trigger_value
      <$> _evaluate_alert no_pair no_value no_value
            (Manager.cache
               (Manager._handle_tick 1793707171000000 tick_newer
                  (Manager.init ["btcusdt"] connected_empty [])))
            1793707172000000 1793707172000000
            (mkAlert 1 "high" "btcusdt" "price" ">" 100 1 0 None)
    = Some 101%float.
Proof.
  assert (H1 : Manager.cache (Manager.init ["btcusdt"] connected_empty [])
               = mkCache true (Some ∅)) by reflexivity.
  assert (H4 : 1793707172000000 < 1793707171000000 + ttl) by (unfold ttl; lia).
  split; [exact H1|]. do 2 (split; [reflexivity|]). split; [exact H4|].
  rewrite (price_alert_reads_the_last_tick_handled no_pair no_value no_value
             (Manager.init ["btcusdt"] connected_empty []) ∅
             1793707171000000 1793707172000000 1793707172000000 tick_newer
             (mkAlert 1 "high" "btcusdt" "price" ">" 100 1 0 None)
             H1 eq_refl eq_refl H4).
  vm_compute. reflexivity.
Defined.

End AlertEvaluationFacts.

Module ConfigFacts.
Import PyTime Config.

Lemma is_space_lower (a : ascii) : is_space (BinanceWs.lower_ascii a) = is_space a.
Proof. destruct a as [[] [] [] [] [] [] [] []]; reflexivity. Qed.

Lemma not_comma_lower (a : ascii) : not_comma (BinanceWs.lower_ascii a) = not_comma a.
Proof. destruct a as [[] [] [] [] [] [] [] []]; reflexivity. Qed.

Lemma lstrip_lower (s : string) :
  lstrip (BinanceWs.lower s) = BinanceWs.lower (lstrip s).
Proof.
  induction s as [|a s IH]; [reflexivity|]. simpl.
  rewrite is_space_lower. now destruct (is_space a).
Qed.

Lemma rstrip_lower (s : string) :
  rstrip (BinanceWs.lower s) = BinanceWs.lower (rstrip s).
Proof.
  induction s as [|a s IH]; [reflexivity|]. simpl. rewrite IH, is_space_lower.
  destruct (rstrip s); simpl; [now destruct (is_space a) | reflexivity].
Qed.

Lemma rstrip_idempotent (s : string) : rstrip (rstrip s) = rstrip s.
Proof.
  induction s as [|a s IH]; [reflexivity|]. simpl.
  destruct (rstrip s) as [|b r] eqn:E.
  - destruct (is_space a) eqn:Ea; simpl; [reflexivity | now rewrite Ea].
  - change (rstrip (String a (String b r)))
      with (match rstrip (String b r) with
            | EmptyString => if is_space a then EmptyString else String a EmptyString
            | String c r' => String a (String c r')
            end).
    now rewrite IH.
Qed.

Lemma lstrip_head (s : string) :
  match lstrip s with
  | EmptyString => True
  | String a _ => is_space a = false
  end.
Proof.
  induction s as [|a s IH]; [exact I|]. simpl.
  destruct (is_space a) eqn:E; [exact IH | exact E].
Qed.

Lemma lstrip_rstrip_lstrip (s : string) :
  lstrip (rstrip (lstrip s)) = rstrip (lstrip s).
Proof.
  pose proof (lstrip_head s) as H. destruct (lstrip s) as [|a q]; [reflexivity|].
  simpl. destruct (rstrip q); [rewrite H|]; simpl; now rewrite H.
Qed.

Lemma strip_idempotent (s : string) : strip (strip s) = strip s.
Proof. unfold strip. now rewrite lstrip_rstrip_lstrip, rstrip_idempotent. Qed.

Lemma strip_lower (s : string) : strip (BinanceWs.lower s) = BinanceWs.lower (strip s).
Proof. unfold strip. now rewrite lstrip_lower, rstrip_lower. Qed.

Lemma lower_empty (s : string) : BinanceWs.lower s = EmptyString → s = EmptyString.
Proof. now destruct s. Qed.

Lemma all_chars_lower (s : string) :
  all_chars not_comma (BinanceWs.lower s) = all_chars not_comma s.
Proof.
  induction s as [|a s IH]; [reflexivity|]. simpl. now rewrite not_comma_lower, IH.
Qed.

Lemma all_chars_lstrip (p : ascii → bool) (s : string) :
  all_chars p s = true → all_chars p (lstrip s) = true.
Proof.
  induction s as [|a s IH]; [easy|]. simpl. intros H.
  apply andb_true_iff in H as [Ha Hs].
  destruct (is_space a); [auto | simpl; now rewrite Ha, Hs].
Qed.

Lemma all_chars_rstrip (p : ascii → bool) (s : string) :
  all_chars p s = true → all_chars p (rstrip s) = true.
Proof.
  induction s as [|a s IH]; [easy|]. simpl. intros H.
  apply andb_true_iff in H as [Ha Hs]. specialize (IH Hs).
  destruct (rstrip s) as [|b r].
  - destruct (is_space a); [reflexivity | simpl; now rewrite Ha].
  - change (all_chars p (String a (String b r)))
      with (p a && all_chars p (String b r)). now rewrite Ha, IH.
Qed.

Lemma split_comma_pieces (s : string) :
  split_comma s ≠ [] ∧ Forall (fun piece => all_chars not_comma piece = true) (split_comma s).
Proof.
  induction s as [|a s [Hne IH]]; simpl.
  - split; [discriminate | repeat constructor].
  - destruct (Ascii.eqb a ",") eqn:E.
    + split; [discriminate|]. constructor; [reflexivity | exact IH].
    + destruct (split_comma s) as [|piece pieces]; [congruence|].
      split; [discriminate|]. inversion IH as [|? ? Hp Hps]; subst.
      constructor; [|exact Hps]. simpl. unfold not_comma at 1. now rewrite E, Hp.
Qed.

Lemma split_comma_app (s1 s2 : string) :
  split_comma (s1 +:+ String "," s2) = split_comma s1 ++ split_comma s2.
Proof.
  induction s1 as [|a s1 IH]; [reflexivity|].
  change (String a s1 +:+ String "," s2) with (String a (s1 +:+ String "," s2)).
  simpl. rewrite IH. destruct (Ascii.eqb a ","); [reflexivity|].
  destruct (split_comma_pieces s1) as [Hne _].
  destruct (split_comma s1) as [|p ps]; [congruence | reflexivity].
Qed.

Lemma lstrip_blank (s : string) :
  all_chars is_space s = true → lstrip s = EmptyString.
Proof.
  induction s as [|a s IH]; [reflexivity|]. simpl. intros H.
  apply andb_true_iff in H as [Ha Hs]. rewrite Ha. auto.
Qed.

Lemma split_comma_blank (s : string) :
  all_chars (fun a => is_space a || Ascii.eqb a ",") s = true →
  Forall (fun piece => all_chars is_space piece = true) (split_comma s).
Proof.
  induction s as [|a s IH]; simpl; intros H; [repeat constructor|].
  apply andb_true_iff in H as [Ha Hs]. specialize (IH Hs).
  destruct (Ascii.eqb a ",") eqn:E; [now constructor|].
  rewrite orb_false_r in Ha.
  destruct (split_comma s) as [|piece pieces]; [repeat constructor; simpl; now rewrite Ha|].
  inversion IH as [|? ? Hp Hps]; subst. constructor; [|exact Hps].
  simpl. now rewrite Ha, Hp.
Qed.

Lemma filter_blank (pieces : list string) :
  Forall (fun piece => all_chars is_space piece = true) pieces →
  List.filter (fun s => negb (String.eqb (strip s) EmptyString)) pieces = [].
Proof.
  induction 1 as [|piece pieces Hp _ IH]; [reflexivity|].
  cbn [List.filter]. unfold strip at 1. rewrite (lstrip_blank piece Hp).
  simpl. exact IH.
Qed.

(** The configured symbols are clean: every entry of [symbols_list] is
    non-empty, in lower case, free of commas and of blanks at either end,
    whatever the setting, so the ingestion manager built from them at
    start-up and its stream client track the same symbols; a setting
    that holds only blanks and commas gives no symbol at all.  Entries
    are not made unique: a setting that names its symbols twice gives
    each of them twice. *)
Theorem symbols_list_entries_are_clean (DEFAULT_SYMBOLS : string) :
  Forall (fun s => s ≠ EmptyString
                   ∧ BinanceWs.lower s = s
                   ∧ strip s = s
                   ∧ all_chars not_comma s = true)
         (symbols_list DEFAULT_SYMBOLS)
  ∧ (∀ c tbl, Manager.agree (Manager.init (symbols_list DEFAULT_SYMBOLS) c tbl))
  ∧ (all_chars (fun a => is_space a || Ascii.eqb a ",") DEFAULT_SYMBOLS = true →
     symbols_list DEFAULT_SYMBOLS = [])
  ∧ symbols_list (DEFAULT_SYMBOLS +:+ String "," DEFAULT_SYMBOLS)
    = symbols_list DEFAULT_SYMBOLS ++ symbols_list DEFAULT_SYMBOLS.
Proof.
  assert (Hclean : Forall (fun s => s ≠ EmptyString
                                    ∧ BinanceWs.lower s = s
                                    ∧ strip s = s
                                    ∧ all_chars not_comma s = true)
                          (symbols_list DEFAULT_SYMBOLS)).
  { apply Forall_forall. intros x Hx. unfold symbols_list in Hx.
    apply list_elem_of_In, in_map_iff in Hx as (piece & <- & Hp).
    apply filter_In in Hp as [Hp Hne].
    destruct (split_comma_pieces DEFAULT_SYMBOLS) as [_ Hpieces].
    rewrite Forall_forall in Hpieces.
    specialize (Hpieces piece (proj2 (list_elem_of_In _ _) Hp)).
    split; [|split; [|split]].
    - intros E. apply lower_empty in E. rewrite E in Hne. discriminate.
    - apply StreamControlFacts.lower_idempotent.
    - now rewrite strip_lower, strip_idempotent.
    - rewrite all_chars_lower. unfold strip.
      now apply all_chars_rstrip, all_chars_lstrip. }
  split; [exact Hclean|]. split; [|split].
  - intros c tbl. unfold Manager.agree, Manager.init, StreamControl.init. simpl.
    symmetry. apply ManagerSymbolsFacts.map_lower_id.
    eapply Forall_impl; [exact Hclean|]. simpl. tauto.
  - intros Hblank. unfold symbols_list.
    now rewrite (filter_blank _ (split_comma_blank DEFAULT_SYMBOLS Hblank)).
  - unfold symbols_list. now rewrite split_comma_app, List.filter_app, map_app.
Qed.

End ConfigFacts.
